(** * ThunderWPEConsole: transport, session protocol, lifecycle and debug feed

    A shallow embedding of
      - [src/lib/websocket.js]      (module [WebSocketClient]),
      - [src/lib/thunderSession.js] (module [ThunderSession]),
      - [src/lib/webInspector.js]   (module [WebInspector]),
    together with the part of the JavaScript platform these files lean on
    (module [JS]), followed by the vocabulary of the properties (modules
    [...Spec]) and by the properties themselves (modules [...Facts]).

    JavaScript closures are defunctionalised: every arrow function of the
    source is a constructor carrying what the closure captures.  Two
    evaluations of the same arrow expression are two different function
    objects, which is what [removeEventListener] compares, so closures that
    are compared by identity carry an allocation stamp.

    Promises are states ([Pending], [Resolved], [Rejected]) in a store;
    what awaits a promise is a continuation, again a constructor, that
    runs at the microtask checkpoint after the promise has settled. *)

From Stdlib Require Import ZArith String List Bool Lia.
From stdpp Require Import base tactics option list strings pretty sorting.
Import ListNotations.

Local Open Scope string_scope.
Local Open Scope Z_scope.
Local Open Scope list_scope.

(** ** The JavaScript values the program handles *)

Module JS.

(** What [JSON.parse] can return.  Numbers are the integers. *)
Unset Elimination Schemes.
Inductive json : Type :=
| JNull
| JBool (b : bool)
| JNum (n : Z)
| JStr (s : string)
| JArr (items : list json)
| JObj (fields : list (string * json)).
Set Elimination Schemes.

(** A JavaScript value met by this program: [undefined] or a JSON value. *)
Inductive value : Type :=
| VUndefined
| VJson (j : json).

Coercion VJson : json >-> value.

Inductive error : Type :=
| TypeError
| SyntaxError
| Error (message : string).

(** Completion of an expression or a call: a value or a thrown error. *)
Inductive completion (A : Type) : Type :=
| Normal (a : A)
| Throw (e : error).
Arguments Normal {A} a.
Arguments Throw {A} e.

Definition bind {A B} (c : completion A) (k : A -> completion B) : completion B :=
  match c with
  | Normal a => k a
  | Throw e => Throw e
  end.

(** The state of a promise. *)
Inductive settled (A : Type) : Type :=
| Pending
| Resolved (a : A)
| Rejected (e : error).
Arguments Pending {A}.
Arguments Resolved {A} a.
Arguments Rejected {A} e.

(** [resolve] and [reject] act on a pending promise only. *)
Definition settle {A} (outcome : settled A) (p : settled A) : settled A :=
  match p with
  | Pending => outcome
  | _ => p
  end.

(** ToBoolean. *)
Definition truthy (v : value) : bool :=
  match v with
  | VUndefined => false
  | VJson JNull => false
  | VJson (JBool b) => b
  | VJson (JNum n) => negb (n =? 0)
  | VJson (JStr s) => negb (String.eqb s "")
  | VJson (JArr _) => true
  | VJson (JObj _) => true
  end.

(** [a === b].  An object or an array is equal only to itself; the objects
    compared here always come out of a fresh [JSON.parse] on one side, so
    the two sides are never the same object. *)
Definition strict_equals (a b : value) : bool :=
  match a, b with
  | VUndefined, VUndefined => true
  | VJson JNull, VJson JNull => true
  | VJson (JBool x), VJson (JBool y) => Bool.eqb x y
  | VJson (JNum x), VJson (JNum y) => x =? y
  | VJson (JStr x), VJson (JStr y) => String.eqb x y
  | _, _ => false
  end.

(** Own property of a parsed object: [JSON.parse] keeps the last of
    several members with one name. *)
Fixpoint own (fields : list (string * json)) (key : string) : value :=
  match fields with
  | [] => VUndefined
  | (k, j) :: rest =>
      match own rest key with
      | VUndefined => if String.eqb k key then VJson j else VUndefined
      | v => v
      end
  end.

(** The array index a property name denotes, below [n]. *)
Definition index_of (key : string) (n : nat) : option nat :=
  List.find (fun i => String.eqb (pretty i) key) (seq 0 n).

Fixpoint chars (s : string) : list json :=
  match s with
  | EmptyString => []
  | String a rest => JStr (String a EmptyString) :: chars rest
  end.

Definition indexed (items : list json) (key : string) : value :=
  if String.eqb key "length" then VJson (JNum (Z.of_nat (length items)))
  else match index_of key (length items) with
       | Some i => match nth_error items i with
                   | Some j => VJson j
                   | None => VUndefined
                   end
       | None => VUndefined
       end.

(** [v.key] and [v[key]].  Reading a property of [undefined] or [null]
    throws a TypeError.  The names the program reads ([id], [result],
    [method], [params], [event], [callsign], [state], [filter], and the
    keys of [matchParams]) are own properties or absent; inherited
    methods such as [toString] are functions, never equal to a JSON
    value, and are read as absent. *)
Definition get (v : value) (key : string) : completion value :=
  match v with
  | VUndefined => Throw TypeError
  | VJson JNull => Throw TypeError
  | VJson (JObj fields) => Normal (own fields key)
  | VJson (JArr items) => Normal (indexed items key)
  | VJson (JStr s) => Normal (indexed (chars s) key)
  | VJson (JBool _) => Normal VUndefined
  | VJson (JNum _) => Normal VUndefined
  end.

(** A text frame as [JSON.parse] sees it. *)
Inductive text : Type :=
| Blank                 (* the empty string: falsy, and not JSON *)
| Malformed             (* a non-empty string on which JSON.parse throws *)
| Json (j : json).      (* a non-empty string JSON.parse turns into j *)

Definition JSON_parse (t : text) : completion json :=
  match t with
  | Json j => Normal j
  | _ => Throw SyntaxError
  end.

Definition nonempty (t : text) : bool :=
  match t with
  | Blank => false
  | _ => true
  end.

End JS.

(** Sequencing of completions, written [x ← c; k]. *)
#[global] Instance completion_bind : MBind JS.completion :=
  fun A B k c => JS.bind c k.

(** ** Transport: [createWebSocketClient] of src/lib/websocket.js

    The functions are those of websocket.js; [off] and [isConnected] are
    the two its later revision adds, which thunderSession.js and
    webInspector.js call. *)

Module WebSocketClient.

(** [WebSocket.readyState]. *)
Inductive ready : Set := CONNECTING | OPEN | CLOSING | CLOSED.

(** The function objects given to the socket's [addEventListener] and
    [removeEventListener].  [OnOpen c], [OnError c], [OnClose c] and
    [OnMessage c] are the four closures the [c]-th run of [connect]
    creates; [Noop k] is the [k]-th closure allocated by the client, an
    evaluation of [() => {}] in [close]. *)
Inductive socket_listener : Set :=
| OnOpen (c : nat)
| OnError (c : nat)
| OnClose (c : nat)
| OnMessage (c : nat)
| Noop (k : nat).

#[global] Instance socket_listener_eq_dec : EqDecision socket_listener.
Proof. solve_decision. Defined.

#[global] Instance ready_eq_dec : EqDecision ready.
Proof. solve_decision. Defined.

(** A timer made by [setTimeout]. *)
Inductive timer_state : Set := Armed | Cleared | Fired.

(** The events the client dispatches on its own [EventTarget]:
    [new Event('open')], [new CustomEvent('error', { detail: err })],
    [new Event('close')],
    [new CustomEvent('message', { detail: message.data })]. *)
Inductive event (M : Type) : Type :=
| OpenEvent
| ErrorEvent
| CloseEvent
| MessageEvent (data : M).
Arguments OpenEvent {M}.
Arguments ErrorEvent {M}.
Arguments CloseEvent {M}.
Arguments MessageEvent {M} data.

Definition type_of {M} (e : event M) : string :=
  match e with
  | OpenEvent => "open"
  | ErrorEvent => "error"
  | CloseEvent => "close"
  | MessageEvent _ => "message"
  end.

(** [EventTarget.addEventListener]: a listener already present for the
    type is not added again. [EventTarget.removeEventListener]: removes the
    listener of that type that is the same object. *)
Definition addEventListener {F} (same : F -> F -> bool)
    (type : string) (f : F) (ls : list (string * F)) : list (string * F) :=
  if existsb (fun e => String.eqb (fst e) type && same (snd e) f) ls
  then ls else ls ++ [(type, f)].

Definition removeEventListener {F} (same : F -> F -> bool)
    (type : string) (f : F) (ls : list (string * F)) : list (string * F) :=
  List.filter (fun e => negb (String.eqb (fst e) type && same (snd e) f)) ls.

Definition same_listener (f g : socket_listener) : bool := bool_decide (f = g).

Section Client.

(** [D]: what [send] is given; [H]: the handlers given to [on] and [off]. *)
Context {D H : Type}.

(** What one run of [connect] creates: the WebSocket object ([url],
    [protocols], [readyState], its listeners, what was passed to its
    [send]), the variable [connected] and the promise its closures share,
    and the timer it arms. *)
Record connection : Type := {
  url : string;
  protocols : list string;
  readyState : ready;
  listeners : list (string * socket_listener);
  sent : list D;
  connected : bool;
  promise : JS.settled unit;
  timeout : Z;
  timer : timer_state
}.

(** The variables of [createWebSocketClient].  [socket] is [null] or a
    reference to the socket of a connection, [timeoutId] is [undefined]
    or the timer of a connection.  A listener of [events] is the wrapper
    [(e) => handler(e)]: its allocation stamp and the handler it
    captured. *)
Record client : Type := {
  socket : option nat;
  events : list (string * (nat * H));
  timeoutId : option nat;
  connections : list connection;
  closures : nat
}.

Definition createWebSocketClient : client :=
  {| socket := None; events := []; timeoutId := None;
     connections := []; closures := 0%nat |}.

Definition with_connection (c : nat) (f : connection -> connection)
    (cl : client) : client :=
  {| socket := socket cl; events := events cl; timeoutId := timeoutId cl;
     connections := alter f c (connections cl); closures := closures cl |}.

Definition set_listeners (f : list (string * socket_listener) ->
                              list (string * socket_listener))
    (k : connection) : connection :=
  {| url := url k; protocols := protocols k; readyState := readyState k;
     listeners := f (listeners k); sent := sent k; connected := connected k;
     promise := promise k; timeout := timeout k; timer := timer k |}.

Definition set_readyState (r : ready) (k : connection) : connection :=
  {| url := url k; protocols := protocols k; readyState := r;
     listeners := listeners k; sent := sent k; connected := connected k;
     promise := promise k; timeout := timeout k; timer := timer k |}.

Definition push_sent (data : D) (k : connection) : connection :=
  {| url := url k; protocols := protocols k; readyState := readyState k;
     listeners := listeners k; sent := sent k ++ [data];
     connected := connected k; promise := promise k; timeout := timeout k;
     timer := timer k |}.

Definition set_connected (b : bool) (k : connection) : connection :=
  {| url := url k; protocols := protocols k; readyState := readyState k;
     listeners := listeners k; sent := sent k; connected := b;
     promise := promise k; timeout := timeout k; timer := timer k |}.

Definition settle_promise (o : JS.settled unit) (k : connection) : connection :=
  {| url := url k; protocols := protocols k; readyState := readyState k;
     listeners := listeners k; sent := sent k; connected := connected k;
     promise := JS.settle o (promise k); timeout := timeout k;
     timer := timer k |}.

Definition set_timer (t : timer_state) (k : connection) : connection :=
  {| url := url k; protocols := protocols k; readyState := readyState k;
     listeners := listeners k; sent := sent k; connected := connected k;
     promise := promise k; timeout := timeout k; timer := t |}.

(** [socket.close()]: a socket that is connecting or open starts closing. *)
Definition socket_close (k : connection) : connection :=
  match readyState k with
  | CONNECTING | OPEN => set_readyState CLOSING k
  | CLOSING | CLOSED => k
  end.

(** [close()].  Each [() => {}] is a new function object. *)
Definition close (cl : client) : client :=
  match socket cl with
  | Some s =>
      let k := closures cl in
      let cl := with_connection s (set_listeners
                  (removeEventListener same_listener "open" (Noop k))) cl in
      let cl := with_connection s (set_listeners
                  (removeEventListener same_listener "error" (Noop (k + 1)))) cl in
      let cl := with_connection s (set_listeners
                  (removeEventListener same_listener "close" (Noop (k + 2)))) cl in
      let cl := with_connection s (set_listeners
                  (removeEventListener same_listener "message" (Noop (k + 3)))) cl in
      let cl := with_connection s socket_close cl in
      {| socket := None; events := events cl; timeoutId := timeoutId cl;
         connections := connections cl; closures := (k + 4)%nat |}
  | None => cl
  end.

(** [connect({ url, timeout = 5000, protocols = [] })], up to the return of
    the promise; the result is the index of the connection, which stands
    for the promise too.  The WebSocket constructor is taken to accept
    [url]. *)
Definition connect (url : string) (timeout : option Z)
    (protocols : option (list string)) (cl : client) : nat * client :=
  let timeout := default 5000 timeout in
  let protocols := default [] protocols in
  let cl := match socket cl with Some _ => close cl | None => cl end in
  let c := length (connections cl) in
  let ws :=
    {| url := url; protocols := protocols; readyState := CONNECTING;
       listeners := []; sent := []; connected := false;
       promise := JS.Pending; timeout := timeout; timer := Armed |} in
  let ws := set_listeners (addEventListener same_listener "open" (OnOpen c)) ws in
  let ws := set_listeners (addEventListener same_listener "error" (OnError c)) ws in
  let ws := set_listeners (addEventListener same_listener "close" (OnClose c)) ws in
  let ws := set_listeners (addEventListener same_listener "message" (OnMessage c)) ws in
  (c, {| socket := Some c; events := events cl; timeoutId := Some c;
         connections := connections cl ++ [ws]; closures := closures cl |}).

(** [send(data)]. *)
Definition send (data : D) (cl : client) : JS.completion client :=
  match socket cl with
  | Some s =>
      match connections cl !! s with
      | Some k =>
          if bool_decide (readyState k = OPEN)
          then JS.Normal (with_connection s (push_sent data) cl)
          else JS.Throw (JS.Error "WebSocket is not open")
      | None => JS.Throw (JS.Error "WebSocket is not open")
      end
  | None => JS.Throw (JS.Error "WebSocket is not open")
  end.

Definition same_wrapper (f g : nat * H) : bool := Nat.eqb (fst f) (fst g).

(** [on(event, handler)]: the listener is a new wrapper around [handler]. *)
Definition on (event : string) (handler : H) (cl : client) : client :=
  let k := closures cl in
  {| socket := socket cl;
     events := addEventListener same_wrapper event (k, handler) (events cl);
     timeoutId := timeoutId cl; connections := connections cl;
     closures := S k |}.

(** [off(event, handler)]: what is removed is a new wrapper around
    [handler]. *)
Definition off (event : string) (handler : H) (cl : client) : client :=
  let k := closures cl in
  {| socket := socket cl;
     events := removeEventListener same_wrapper event (k, handler) (events cl);
     timeoutId := timeoutId cl; connections := connections cl;
     closures := S k |}.

(** [isConnected()]. *)
Definition isConnected (cl : client) : bool :=
  match socket cl with
  | Some s =>
      match connections cl !! s with
      | Some k => bool_decide (readyState k = OPEN)
      | None => false
      end
  | None => false
  end.

(** [clearTimeout(id)]. *)
Definition clearTimeout (id : option nat) (cl : client) : client :=
  match id with
  | Some t =>
      with_connection t
        (fun k => match timer k with Armed => set_timer Cleared k | _ => k end) cl
  | None => cl
  end.

Definition is_connected (c : nat) (cl : client) : bool :=
  match connections cl !! c with
  | Some k => connected k
  | None => false
  end.

(** [onOpen] of connection [c], before and after its [dispatchEvent]. *)
Definition onOpen_enter (c : nat) (cl : client) : client :=
  with_connection c (set_connected true) (clearTimeout (timeoutId cl) cl).

Definition onOpen_leave (c : nat) (cl : client) : client :=
  with_connection c (settle_promise (JS.Resolved tt)) cl.

(** [onError] of connection [c], before its [dispatchEvent]. *)
Definition onError_enter (c : nat) (cl : client) : client :=
  if is_connected c cl then cl
  else with_connection c
         (settle_promise (JS.Rejected (JS.Error "WebSocket connection failed"))) cl.

(** The function given to [setTimeout] by connection [c]. *)
Definition onTimeout (c : nat) (cl : client) : client :=
  if is_connected c cl then cl
  else with_connection c
         (settle_promise (JS.Rejected (JS.Error "WebSocket connection timed out")))
         (close cl).

(** The handlers [events.dispatchEvent(e)] calls, in order. *)
Definition handlers (type : string) (cl : client) : list H :=
  map (fun e => snd (snd e))
      (List.filter (fun e => String.eqb (fst e) type) (events cl)).

(** The listeners socket [s] calls for an event of a type, in order. *)
Definition socket_listeners (s : nat) (type : string) (cl : client)
    : list socket_listener :=
  match connections cl !! s with
  | Some k => map snd (List.filter (fun e => String.eqb (fst e) type) (listeners k))
  | None => []
  end.

(** *** The client seen from outside

    What can happen to a client, one step at a time: a call of its
    interface, an event of one of its sockets, or a timer running out.
    The handlers that [dispatchEvent] calls are code of the owner; what
    they do to the client they do through its interface, so in a trace
    they are further steps.  [Opens s] is therefore the part of the open
    listeners before [dispatchEvent] and [Opened c] the part of [onOpen]
    after it.

    The platform's part: a socket opens only while it is connecting, and
    then becomes open; a socket that reports an error or closes is
    closed. *)
Inductive action : Type :=
| Connect (url : string) (timeout : option Z) (protocols : option (list string))
| Send (data : D)
| Close
| On (event : string) (handler : H)
| Off (event : string) (handler : H)
| Opens (s : nat)
| Opened (c : nat)
| Errors (s : nat)
| Closes (s : nat)
| Receives (s : nat)
| Expires (t : nat).

Definition enter (cl : client) (f : socket_listener) : client :=
  match f with
  | OnOpen c => onOpen_enter c cl
  | OnError c => onError_enter c cl
  | OnClose _ | OnMessage _ | Noop _ => cl
  end.

Definition is_connecting (s : nat) (cl : client) : bool :=
  match connections cl !! s with
  | Some k => bool_decide (readyState k = CONNECTING)
  | None => false
  end.

Definition is_armed (t : nat) (cl : client) : bool :=
  match connections cl !! t with
  | Some k => match timer k with Armed => true | _ => false end
  | None => false
  end.

Definition expire (t : nat) (cl : client) : client :=
  if is_armed t cl then onTimeout t (with_connection t (set_timer Fired) cl)
  else cl.

Definition step (cl : client) (a : action) : client :=
  match a with
  | Connect u t p => snd (connect u t p cl)
  | Send data =>
      match send data cl with
      | JS.Normal cl' => cl'
      | JS.Throw _ => cl
      end
  | Close => close cl
  | On e h => on e h cl
  | Off e h => off e h cl
  | Opens s =>
      if is_connecting s cl
      then let cl := with_connection s (set_readyState OPEN) cl in
           foldl enter cl (socket_listeners s "open" cl)
      else cl
  | Opened c => if is_connected c cl then onOpen_leave c cl else cl
  | Errors s =>
      let cl := with_connection s (set_readyState CLOSED) cl in
      foldl enter cl (socket_listeners s "error" cl)
  | Closes s => with_connection s (set_readyState CLOSED) cl
  | Receives s => cl
  | Expires t => expire t cl
  end.

Definition run (cl : client) (trace : list action) : client :=
  foldl step cl trace.

End Client.

Arguments connection : clear implicits.
Arguments client : clear implicits.
Arguments action : clear implicits.

(** *** The client driven by its owner

    [W] is the state of the code that owns the client, [view] and [update]
    reach the client inside it, and [invoke h e] is the call [handler(e)]
    of a handler given to [on]. *)
Section Owner.

Context {D H M W : Type}.
Variable view : W -> client D H.
Variable update : (client D H -> client D H) -> W -> W.
Variable invoke : H -> event M -> W -> W.

(** [events.dispatchEvent(e)]. *)
Definition dispatchEvent (e : event M) (w : W) : W :=
  foldl (fun w h => invoke h e w) w (handlers (type_of e) (view w)).

(** A listener of the socket called with the socket's event. *)
Definition call (e : event M) (w : W) (f : socket_listener) : W :=
  match f with
  | OnOpen c =>
      let w := update (onOpen_enter c) w in
      let w := dispatchEvent OpenEvent w in
      update (onOpen_leave c) w
  | OnError c =>
      let w := update (onError_enter c) w in
      dispatchEvent ErrorEvent w
  | OnClose c => dispatchEvent CloseEvent w
  | OnMessage c =>
      match e with
      | MessageEvent data => dispatchEvent (MessageEvent data) w
      | _ => w
      end
  | Noop _ => w
  end.

(** The platform's part of an event of socket [s]. *)
Definition arrive (e : event M) (k : connection D) : connection D :=
  match e with
  | OpenEvent => set_readyState OPEN k
  | ErrorEvent | CloseEvent => set_readyState CLOSED k
  | MessageEvent _ => k
  end.

Definition possible (s : nat) (e : event M) (cl : client D H) : bool :=
  match e with
  | OpenEvent => is_connecting s cl
  | _ => true
  end.

(** Socket [s] fires [e]: its listeners for the type run in order. *)
Definition fire (s : nat) (e : event M) (w : W) : W :=
  if possible s e (view w)
  then let w := update (with_connection s (arrive e)) w in
       foldl (call e) w (socket_listeners s (type_of e) (view w))
  else w.

End Owner.

End WebSocketClient.

(** ** Session protocol client and lifecycle controller:
       [createThunderSession] of src/lib/thunderSession.js

    An outbound frame is represented by the value given to
    [JSON.stringify], an inbound one by what [JSON.parse] makes of it.

    Promises.  [sendRpc] and [waitForEvent] create promises that code of
    the session itself may await; they live in [promises], each with the
    continuations awaiting it.  The promises [connect], [stop], [start]
    and [resume] return are awaited by the caller only; they live in
    [operations].  A continuation whose promise settles becomes a job,
    and the jobs run at the microtask checkpoint that ends the current
    turn of the event loop, after the listeners of the event being
    dispatched. *)

Module ThunderSession.

Import JS WebSocketClient.

Record config : Type := {
  host : string;
  callsign : string;
  jsonRpcId : option Z
}.

Inductive operation : Set := Stop | Start | Resume.

(** What awaits a promise of the session.
    [GetState op q]: the rest of [getState] after [await status()],
    followed by the rest of the executor of [op] after
    [await getState()]; [q] is the promise [op] returned.
    [Forward q]: [.then(resolve).catch(reject)] in the executor of the
    operation that returned [q]. *)
Inductive continuation : Set :=
| GetState (op : operation) (q : nat)
| Forward (q : nat).

(** The handlers given to [wsClient.on] and [wsClient.off].
    [Response id p]: the arrow function of [sendRpc], with the [id] and
    the [resolve] and [reject] of promise [p] it captured.
    [handleEvent eventType matchParams p]: the function of that name in
    [waitForEvent]; [matchParams] is listed in the order of
    [Object.entries]. *)
Inductive handler : Type :=
| Response (id : Z) (p : nat)
| handleEvent (eventType : string) (matchParams : list (string * json)) (p : nat).

Record promise : Type := {
  state : settled value;
  reactions : list continuation
}.

Record session : Type := {
  cfg : config;
  wsClient : client json handler;
  messageId : Z;
  promises : list promise;
  operations : list (settled value);
  connecting : list (nat * nat);
  jobs : list (continuation * settled value)
}.

Definition createThunderSession (config : config) : session :=
  {| cfg := config;
     wsClient := createWebSocketClient;
     messageId := default 1 (jsonRpcId config);
     promises := []; operations := []; connecting := []; jobs := [] |}.

Definition view (st : session) : client json handler := wsClient st.

Definition update (f : client json handler -> client json handler)
    (st : session) : session :=
  {| cfg := cfg st; wsClient := f (wsClient st); messageId := messageId st;
     promises := promises st; operations := operations st;
     connecting := connecting st; jobs := jobs st |}.

Definition set_promises (f : list promise -> list promise) (st : session) : session :=
  {| cfg := cfg st; wsClient := wsClient st; messageId := messageId st;
     promises := f (promises st); operations := operations st;
     connecting := connecting st; jobs := jobs st |}.

Definition set_operations (f : list (settled value) -> list (settled value))
    (st : session) : session :=
  {| cfg := cfg st; wsClient := wsClient st; messageId := messageId st;
     promises := promises st; operations := f (operations st);
     connecting := connecting st; jobs := jobs st |}.

Definition set_connecting (l : list (nat * nat)) (st : session) : session :=
  {| cfg := cfg st; wsClient := wsClient st; messageId := messageId st;
     promises := promises st; operations := operations st;
     connecting := l; jobs := jobs st |}.

Definition set_jobs (l : list (continuation * settled value)) (st : session) : session :=
  {| cfg := cfg st; wsClient := wsClient st; messageId := messageId st;
     promises := promises st; operations := operations st;
     connecting := connecting st; jobs := l |}.

(** [nextId()]: [return messageId++]. *)
Definition nextId (st : session) : Z * session :=
  (messageId st,
   {| cfg := cfg st; wsClient := wsClient st; messageId := messageId st + 1;
      promises := promises st; operations := operations st;
      connecting := connecting st; jobs := jobs st |}).

(** [new Promise(...)], for the two kinds of promises. *)
Definition new_promise (st : session) : nat * session :=
  (length (promises st),
   set_promises (fun ps => ps ++ [{| state := Pending; reactions := [] |}]) st).

Definition new_operation (st : session) : nat * session :=
  (length (operations st), set_operations (fun os => os ++ [Pending]) st).

(** [resolve] and [reject] of promise [p]: a pending promise takes the
    outcome and its continuations become jobs. *)
Definition settle_promise (p : nat) (o : settled value) (st : session) : session :=
  match promises st !! p with
  | Some {| state := Pending; reactions := ks |} =>
      set_jobs (jobs st ++ map (fun k => (k, o)) ks)
        (set_promises (fun ps => <[p := {| state := o; reactions := [] |}]> ps) st)
  | _ => st
  end.

Definition settle_operation (q : nat) (o : settled value) (st : session) : session :=
  set_operations (alter (settle o) q) st.

(** [await p] or [p.then(...)] with continuation [k]. *)
Definition await (p : nat) (k : continuation) (st : session) : session :=
  match promises st !! p with
  | Some {| state := Pending; reactions := ks |} =>
      set_promises (fun ps => <[p := {| state := Pending; reactions := ks ++ [k] |}]> ps) st
  | Some {| state := o |} => set_jobs (jobs st ++ [(k, o)]) st
  | None => st
  end.

(** [event.detail]: the data of a message event, the error object (which
    is not JSON text) of an error event, [undefined] otherwise. *)
Definition detail (e : event text) : option text :=
  match e with
  | MessageEvent data => Some data
  | ErrorEvent => Some Malformed
  | OpenEvent | CloseEvent => None
  end.

(** The [try] block of the arrow function of [sendRpc]: [Some v] when it
    calls [resolve(v)]. *)
Definition response_for (id : Z) (data : text) : completion (option value) :=
  response ← JSON_parse data;
  rid ← get (VJson response) "id";
  if strict_equals rid (VJson (JNum id))
  then result ← get (VJson response) "result";
       Normal (Some (if truthy result then result else VJson response))
  else Normal None.

Definition on_response (id : Z) (p : nat) (e : event text) (st : session) : session :=
  match detail e with
  | Some data =>
      if nonempty data then
        match response_for id data with
        | Normal (Some v) => settle_promise p (Resolved v) st
        | Normal None => st
        | Throw err => settle_promise p (Rejected err) st
        end
      else st
  | None => st
  end.

(** [Array.prototype.every] over a callback that may throw. *)
Fixpoint every {A} (f : A -> completion bool) (l : list A) : completion bool :=
  match l with
  | [] => Normal true
  | x :: rest => b ← f x; if b : bool then every f rest else Normal false
  end.

(** The two nested conditions of [handleEvent]. *)
Definition selects (eventType : string) (response : json) : completion bool :=
  method ← get (VJson response) "method";
  if strict_equals method (VJson (JStr "client.Controller.events.all"))
  then Normal true
  else params ← get (VJson response) "params";
       event ← get params "event";
       Normal (strict_equals event (VJson (JStr eventType))).

Definition matches (matchParams : list (string * json)) (response : json)
    : completion bool :=
  every (fun entry =>
           params ← get (VJson response) "params";
           inner ← get params "params";
           found ← get inner (fst entry);
           Normal (strict_equals found (VJson (snd entry))))
        matchParams.

Definition accepts (eventType : string) (matchParams : list (string * json))
    (response : json) : completion bool :=
  hit ← selects eventType response;
  if hit : bool then matches matchParams response else Normal false.

Definition on_event (eventType : string) (matchParams : list (string * json))
    (p : nat) (e : event text) (st : session) : session :=
  let me := handleEvent eventType matchParams p in
  match detail e with
  | Some data =>
      if nonempty data then
        match JSON_parse data with
        | Normal response =>
            match accepts eventType matchParams response with
            | Normal true =>
                settle_promise p (Resolved (VJson response))
                  (update (off "message" me) st)
            | Normal false => st
            | Throw _ => update (off "message" me) st
            end
        | Throw _ => update (off "message" me) st
        end
      else st
  | None => st
  end.

(** The call [handler(e)]. *)
Definition invoke (h : handler) (e : event text) (st : session) : session :=
  match h with
  | Response id p => on_response id p e st
  | handleEvent eventType matchParams p => on_event eventType matchParams p e st
  end.

Definition request (id : Z) (method : string) (params : json) : json :=
  JObj [("jsonrpc", JStr "2.0"); ("id", JNum id);
        ("method", JStr method); ("params", params)].

(** [sendRpc(method, params = {})]. *)
Definition sendRpc (method : string) (params : option json) (st : session)
    : nat * session :=
  let params := default (JObj []) params in
  let (p, st) := new_promise st in
  let (id, st) := nextId st in
  let payload := request id method params in
  match send payload (wsClient st) with
  | Normal cl => (p, update (fun _ => on "message" (Response id p) cl) st)
  | Throw err => (p, settle_promise p (Rejected err) st)
  end.

(** [waitForEvent(eventType, matchParams = {})]. *)
Definition waitForEvent (eventType : string)
    (matchParams : option (list (string * json))) (st : session) : nat * session :=
  let matchParams := default [] matchParams in
  let (p, st) := new_promise st in
  (p, update (on "message" (handleEvent eventType matchParams p)) st).

(** [status()]. *)
Definition status (st : session) : nat * session :=
  sendRpc "Controller.1.status" None st.

(** [result.filter((instance) => instance.callsign === callsign)]. *)
Fixpoint filter_callsign (callsign : string) (result : list json)
    : completion (list json) :=
  match result with
  | [] => Normal []
  | instance :: rest =>
      found ← get (VJson instance) "callsign";
      kept ← filter_callsign callsign rest;
      Normal (if strict_equals found (VJson (JStr callsign))
              then instance :: kept else kept)
  end.

(** The rest of [getState] once [status()] has given [result]:
    [result.filter(...)[0].state].  Only an array has [filter]; calling
    what is not a function and reading [state] of [undefined] both throw
    a TypeError. *)
Definition state_of (callsign : string) (result : value) : completion value :=
  match result with
  | VJson (JArr items) =>
      kept ← filter_callsign callsign items;
      match kept with
      | first :: _ => get (VJson first) "state"
      | [] => Throw TypeError
      end
  | _ => Throw TypeError
  end.

Definition equals (s : string) (v : value) : bool :=
  strict_equals v (VJson (JStr s)).

Definition callsign_params (st : session) : json :=
  JObj [("callsign", JStr (callsign (cfg st)))].

(** The executors of [stop], [start] and [resume] from
    [const state = await getState()] on.  The value of the last
    [await sendRpc(...)] is not used. *)
Definition stop_rest (q : nat) (state : value) (st : session) : session :=
  if equals "Deactivated" state
  then settle_operation q (Resolved VUndefined) st
  else let (w, st) :=
         waitForEvent "statechange" (Some [("state", JStr "deactivated")]) st in
       let st := await w (Forward q) st in
       snd (sendRpc "Controller.1.deactivate" (Some (callsign_params st)) st).

Definition start_rest (q : nat) (state : value) (st : session) : session :=
  if equals "Activated" state || equals "Resumed" state
  then settle_operation q (Resolved VUndefined) st
  else let (w, st) :=
         waitForEvent "statechange" (Some [("state", JStr "activated")]) st in
       let st := await w (Forward q) st in
       snd (sendRpc "Controller.1.activate" (Some (callsign_params st)) st).

Definition resume_rest (q : nat) (state : value) (st : session) : session :=
  if equals "Activated" state || equals "Resumed" state
  then settle_operation q (Resolved VUndefined) st
  else let (w, st) :=
         waitForEvent "statechange" (Some [("suspended", JBool false)]) st in
       let st := await w (Forward q) st in
       snd (sendRpc "Controller.1.resume" (Some (callsign_params st)) st).

Definition rest_of (op : operation) : nat -> value -> session -> session :=
  match op with
  | Stop => stop_rest
  | Start => start_rest
  | Resume => resume_rest
  end.

(** A job.  When [getState] throws or the status call was rejected, the
    promise of [getState] rejects and with it the promise of the async
    executor, which nothing awaits: [q] stays pending. *)
Definition run_job (st : session) (job : continuation * settled value) : session :=
  match job with
  | (GetState op q, Resolved result) =>
      match state_of (callsign (cfg st)) result with
      | Normal state => rest_of op q state st
      | Throw _ => st
      end
  | (GetState _ _, _) => st
  | (Forward q, o) => settle_operation q o st
  end.

(** [getState()], awaited by the executor of [op]. *)
Definition getState (op : operation) (q : nat) (st : session) : session :=
  let (p, st) := status st in
  await p (GetState op q) st.

(** [stop()], [start()], [resume()] up to their return. *)
Definition stop (st : session) : nat * session :=
  let (q, st) := new_operation st in
  (q, getState Stop q st).

Definition start (st : session) : nat * session :=
  let (q, st) := new_operation st in
  (q, getState Start q st).

Definition resume (st : session) : nat * session :=
  let (q, st) := new_operation st in
  (q, getState Resume q st).

Definition register_request (id : Z) : json :=
  request id "Controller.1.register"
    (JObj [("event", JStr "all"); ("id", JStr "client.Controller.events")]).

(** [connect()] up to its return: it awaits [wsClient.connect]. *)
Definition connect (st : session) : nat * session :=
  let (q, st) := new_operation st in
  let url := String.append "ws://" (String.append (host (cfg st)) ":80/jsonrpc") in
  let (c, cl) := WebSocketClient.connect url None None (wsClient st) in
  (q, set_connecting (connecting st ++ [(c, q)]) (update (fun _ => cl) st)).

Definition connection_promise (c : nat) (st : session) : settled unit :=
  match connections (wsClient st) !! c with
  | Some k => WebSocketClient.promise k
  | None => Pending
  end.

(** The rest of [connect] once the promise of connection [c] is settled. *)
Definition connect_rest (st : session) (cq : nat * nat) : session :=
  match connection_promise (fst cq) st with
  | Resolved _ =>
      let (id, st) := nextId st in
      match send (register_request id) (wsClient st) with
      | Normal cl =>
          settle_operation (snd cq) (Resolved VUndefined) (update (fun _ => cl) st)
      | Throw err => settle_operation (snd cq) (Rejected err) st
      end
  | Rejected err => settle_operation (snd cq) (Rejected err) st
  | Pending => st
  end.

Definition still_connecting (st : session) (cq : nat * nat) : bool :=
  match connection_promise (fst cq) st with
  | Pending => true
  | _ => false
  end.

(** The microtask checkpoint: the continuations of settled promises run. *)
Definition checkpoint (st : session) : session :=
  let waiting := connecting st in
  let st := set_connecting (List.filter (still_connecting st) waiting) st in
  let st := foldl connect_rest st waiting in
  foldl run_job (set_jobs [] st) (jobs st).

(** [disconnect()] and [isConnected()]. *)
Definition disconnect (st : session) : session := update close st.

Definition isConnected (st : session) : bool :=
  WebSocketClient.isConnected (wsClient st).

(** A turn of the event loop: socket [s] of the client fires [e], then
    the checkpoint. *)
Definition deliver (s : nat) (e : event text) (st : session) : session :=
  checkpoint (fire view update invoke s e st).

(** The state of the promise [sendRpc] or [waitForEvent] returned. *)
Definition outcome (p : nat) (st : session) : option (settled value) :=
  state <$> promises st !! p.

(** The frames the session has passed to its sockets, oldest first. *)
Definition frames (st : session) : list json :=
  concat (map sent (connections (wsClient st))).

End ThunderSession.

(** ** Debug feed client: [createWebInspectorClient] of
       src/lib/webInspector.js

    What is written to the console is left out. *)

Module WebInspector.

Import JS WebSocketClient.

Record webInspectorConfig : Type := {
  hostIP : string;
  port : Z
}.

(** The handlers [connect] gives to [ws.on], in the order of the source. *)
Inductive handler : Set :=
| whenOpen
| handleMessage
| whenError
| whenClose.

(** [ws] is [null] or one of the clients made so far; [forwarded] lists
    the texts given to [onMessage(null, text)], oldest first. *)
Record inspector : Type := {
  config : webInspectorConfig;
  ws : option nat;
  clients : list (client json handler);
  forwarded : list value
}.

Definition createWebInspectorClient (config : webInspectorConfig) : inspector :=
  {| config := config; ws := None; clients := []; forwarded := [] |}.

Definition view (i : nat) (st : inspector) : client json handler :=
  default createWebSocketClient (clients st !! i).

Definition update (i : nat) (f : client json handler -> client json handler)
    (st : inspector) : inspector :=
  {| config := config st; ws := ws st; clients := alter f i (clients st);
     forwarded := forwarded st |}.

(** [ws.send(data)] for the client [ws] refers to now. *)
Definition ws_send (data : json) (st : inspector) : completion inspector :=
  match ws st with
  | Some i =>
      cl ← send data (view i st);
      Normal (update i (fun _ => cl) st)
  | None => Throw TypeError
  end.

Definition enable_inspector : json :=
  JObj [("id", JNum 1); ("method", JStr "Inspector.enable")].
Definition enable_console : json :=
  JObj [("id", JNum 22); ("method", JStr "Console.enable")].
Definition initialized : json :=
  JObj [("id", JNum 23); ("method", JStr "Inspector.initialized")].

(** The handler of 'open'.  A [send] that throws ends it there. *)
Definition on_open (st : inspector) : inspector :=
  match ws st with
  | None => st
  | Some _ =>
      match ws_send enable_inspector st with
      | Throw _ => st
      | Normal st1 =>
          match ws_send enable_console st1 with
          | Throw _ => st1
          | Normal st2 =>
              match ws_send initialized st2 with
              | Throw _ => st2
              | Normal st3 => st3
              end
          end
      end
  end.

(** [v?.key]. *)
Definition optional (v : value) (key : string) : value :=
  match get v key with
  | Normal x => x
  | Throw _ => VUndefined
  end.

(** The [try] block of [handleMessage]: [Some text] when it calls
    [onMessage(null, text)]. *)
Definition console_text (data : text) : completion (option value) :=
  message ← JSON_parse data;
  method ← get (VJson message) "method";
  if strict_equals method (VJson (JStr "Console.messageAdded"))
  then params ← get (VJson message) "params";
       let text := optional (optional params "message") "text" in
       Normal (if truthy text then Some text else None)
  else Normal None.

Definition on_message (e : event text) (st : inspector) : inspector :=
  match e with
  | MessageEvent data =>
      if nonempty data then
        match console_text data with
        | Normal (Some text) =>
            {| config := config st; ws := ws st; clients := clients st;
               forwarded := forwarded st ++ [text] |}
        | _ => st
        end
      else st
  | _ => st
  end.

Definition invoke (h : handler) (e : event text) (st : inspector) : inspector :=
  match h with
  | whenOpen => on_open st
  | handleMessage => on_message e st
  | whenError | whenClose => st
  end.

(** [disconnect()]. *)
Definition disconnect (st : inspector) : inspector :=
  match ws st with
  | Some i =>
      {| config := config st; ws := None; clients := alter close i (clients st);
         forwarded := forwarded st |}
  | None => st
  end.

Definition endpoint (config : webInspectorConfig) : string :=
  String.append "ws://"
    (String.append (hostIP config)
       (String.append ":" (String.append (pretty (port config)) "/socket/1/1/WebPage"))).

(** [connect()]. *)
Definition connect (st : inspector) : inspector :=
  let st := match ws st with Some _ => disconnect st | None => st end in
  let cl := createWebSocketClient in
  let cl := snd (WebSocketClient.connect (endpoint (config st)) None None cl) in
  let cl := on "open" whenOpen cl in
  let cl := on "message" handleMessage cl in
  let cl := on "error" whenError cl in
  let cl := on "close" whenClose cl in
  {| config := config st; ws := Some (length (clients st));
     clients := clients st ++ [cl]; forwarded := forwarded st |}.

(** [isConnected()]. *)
Definition isConnected (st : inspector) : bool :=
  match ws st with
  | Some i => WebSocketClient.isConnected (view i st)
  | None => false
  end.

(** Socket [s] of client [i] fires [e]. *)
Definition deliver (i s : nat) (e : event text) (st : inspector) : inspector :=
  fire (view i) (update i) invoke s e st.

(** What has been passed to the [send] of socket [s] of client [i]. *)
Definition sent_on (i s : nat) (st : inspector) : list json :=
  match connections (view i st) !! s with
  | Some k => sent k
  | None => []
  end.

End WebInspector.

(** ** Orchestrator: [createThunderWebkitAPI] of src/index.js

    The session and the inspector are taken as the objects
    [createThunderSession] and [createWebInspectorClient] return: a call
    of one of their methods returns a promise, and when that promise is
    settled, and with what, is up to them.  Everything the orchestrator
    does to the outside goes into one log, in the order it happens: the
    objects it creates, the methods it calls, and the events it gives to
    [onEvent].  The promise a call returns is named by the position of
    the call in the log. *)

Module ThunderWebkitAPI.

Import JS.

Record config : Type := {
  thunderUrl : string;
  callsign : string;
  targetUrl : string;
  webInspectorHost : string;
  webInspectorPort : option Z
}.

(** The object given to [onEvent]. *)
Record notice : Type := {
  type : string;
  source : string;
  message : value
}.

(** The methods of the session and of the inspector that are called. *)
Inductive request : Type :=
| ThunderConnect
| ThunderStop
| ThunderStart
| ThunderResume
| ThunderSetURL (url : string)
| ThunderDisconnect
| InspectorConnect
| InspectorDisconnect.

Inductive effect : Type :=
| CreateSession (url callsign : string)
| CreateInspector (hostIP : string) (port : Z)
| Call (object : nat) (method : request)
| Event (n : notice).

(** Where an async function waits: [start] at [await
    thunderSession.connect()], [launch] and [close] at the await of their
    step [step], [quit] at [await thunderSession.disconnect()]. *)
Inductive continuation : Type :=
| StartConnected
| Launch (step : nat) (url : string)
| Close (step : nat)
| QuitDisconnected.

(** The variables [thunderSession] and [webInspector] hold [null] or the
    object created at that position of the log. *)
Record api : Type := {
  cfg : config;
  thunderSession : option nat;
  webInspector : option nat;
  log : list effect;
  suspended : list (nat * continuation)
}.

Definition createThunderWebkitAPI (config : config) : api :=
  {| cfg := config; thunderSession := None; webInspector := None;
     log := []; suspended := [] |}.

Definition record (e : effect) (st : api) : api :=
  {| cfg := cfg st; thunderSession := thunderSession st;
     webInspector := webInspector st; log := log st ++ [e];
     suspended := suspended st |}.

Definition onEvent (type source : string) (message : value) (st : api) : api :=
  record (Event {| type := type; source := source; message := message |}) st.

Definition text (s : string) : value := VJson (JStr s).

(** [handleConsoleMessage(error, message)]; [error] is [null] or an
    object whose [message] is given. *)
Definition handleConsoleMessage (error : option value) (message : value)
    (st : api) : api :=
  match error with
  | Some error_message => onEvent "error" "WebInspector" error_message st
  | None => onEvent "console" "WebInspector" message st
  end.

(** [await p] in an async function that goes on with [k]. *)
Definition await (p : nat) (k : continuation) (st : api) : api :=
  {| cfg := cfg st; thunderSession := thunderSession st;
     webInspector := webInspector st; log := log st;
     suspended := suspended st ++ [(p, k)] |}.

(** [thunderSession.m()] and [webInspector.m()]: calling a method of
    [null] throws a TypeError. *)
Definition call (object : option nat) (m : request) (st : api)
    : completion (nat * api) :=
  match object with
  | Some o => Normal (length (log st), record (Call o m) st)
  | None => Throw TypeError
  end.

(** [config.webInspectorPort || 9998]. *)
Definition port_of (config : config) : Z :=
  match webInspectorPort config with
  | Some p => if p =? 0 then 9998 else p
  | None => 9998
  end.

(** [start()] up to its first await. *)
Definition start (st : api) : api :=
  match thunderSession st with
  | Some _ => onEvent "error" "Thunder" (text "Session already started") st
  | None =>
      let st :=
        {| cfg := cfg st; thunderSession := Some (length (log st));
           webInspector := webInspector st;
           log := log st ++ [CreateSession (thunderUrl (cfg st)) (callsign (cfg st))];
           suspended := suspended st |} in
      let st :=
        {| cfg := cfg st; thunderSession := thunderSession st;
           webInspector := Some (length (log st));
           log := log st ++ [CreateInspector (webInspectorHost (cfg st))
                               (port_of (cfg st))];
           suspended := suspended st |} in
      match call (thunderSession st) ThunderConnect st with
      | Normal (p, st) => await p StartConnected st
      | Throw _ =>
          onEvent "error" "Thunder" (text "Failed to start Thunder session") st
      end
  end.

(** The awaited calls of [launch] and of [close], in order. *)
Definition launch_call (step : nat) (url : string) (st : api)
    : option (option nat * request) :=
  match step with
  | 0%nat => Some (webInspector st, InspectorDisconnect)
  | 1%nat => Some (thunderSession st, ThunderStop)
  | 2%nat => Some (thunderSession st, ThunderStart)
  | 3%nat => Some (webInspector st, InspectorConnect)
  | 4%nat => Some (thunderSession st, ThunderResume)
  | 5%nat => Some (thunderSession st, ThunderSetURL url)
  | _ => None
  end.

Definition close_call (step : nat) (st : api) : option (option nat * request) :=
  match step with
  | 0%nat => Some (webInspector st, InspectorDisconnect)
  | 1%nat => Some (thunderSession st, ThunderStop)
  | _ => None
  end.

(** The [try] block of [launch] from its step [step] on, up to the next
    await. *)
Definition launch_from (step : nat) (url : string) (st : api) : api :=
  match launch_call step url st with
  | Some (object, m) =>
      match call object m st with
      | Normal (p, st) => await p (Launch step url) st
      | Throw _ => onEvent "error" "Thunder" (text "Failed to launch URL") st
      end
  | None =>
      onEvent "url-launch" "Thunder" (text (String.append "URL launched: " url)) st
  end.

Definition close_from (step : nat) (st : api) : api :=
  match close_call step st with
  | Some (object, m) =>
      match call object m st with
      | Normal (p, st) => await p (Close step) st
      | Throw _ => onEvent "error" "Thunder" (text "Failed to close instance") st
      end
  | None => onEvent "closed" "Thunder" (text "Browser instance closed") st
  end.

(** [launch(url)] and [close()] up to their first await. *)
Definition launch (url : string) (st : api) : api :=
  match thunderSession st with
  | None => onEvent "error" "Thunder" (text "Session not started") st
  | Some _ => launch_from 0 url st
  end.

Definition close (st : api) : api :=
  match thunderSession st with
  | None => onEvent "error" "Thunder" (text "Session not started") st
  | Some _ => close_from 0 st
  end.

Definition set_thunderSession (o : option nat) (st : api) : api :=
  {| cfg := cfg st; thunderSession := o; webInspector := webInspector st;
     log := log st; suspended := suspended st |}.

Definition set_webInspector (o : option nat) (st : api) : api :=
  {| cfg := cfg st; thunderSession := thunderSession st; webInspector := o;
     log := log st; suspended := suspended st |}.

Definition quit_done (st : api) : api :=
  onEvent "quit" "UnifiedAPI" (text "Session fully stopped") st.

(** [quit()] up to its await; the call of [webInspector.disconnect] is
    not awaited. *)
Definition quit (st : api) : api :=
  let st :=
    match webInspector st with
    | Some o => set_webInspector None (record (Call o InspectorDisconnect) st)
    | None => st
    end in
  match thunderSession st with
  | Some o =>
      match call (Some o) ThunderDisconnect st with
      | Normal (p, st) => await p QuitDisconnected st
      | Throw _ =>
          quit_done (set_thunderSession None
            (onEvent "error" "Thunder" (text "Failed to stop instance") st))
      end
  | None => quit_done st
  end.

(** An async function goes on after its await, the awaited promise
    having been settled with [outcome] ([true]: resolved). *)
Definition resume (k : continuation) (resolved : bool) (st : api) : api :=
  match k with
  | StartConnected =>
      if resolved
      then onEvent "connected" "Thunder" (text "Session connected") st
      else onEvent "error" "Thunder" (text "Failed to start Thunder session") st
  | Launch step url =>
      if resolved then launch_from (S step) url st
      else onEvent "error" "Thunder" (text "Failed to launch URL") st
  | Close step =>
      if resolved then close_from (S step) st
      else onEvent "error" "Thunder" (text "Failed to close instance") st
  | QuitDisconnected =>
      let st :=
        if resolved then st
        else onEvent "error" "Thunder" (text "Failed to stop instance") st in
      quit_done (set_thunderSession None st)
  end.

Definition waits_for (p : nat) (entry : nat * continuation) : bool :=
  Nat.eqb (fst entry) p.

(** The promise of call [p] is settled: what awaits it goes on. *)
Definition settle (p : nat) (resolved : bool) (st : api) : api :=
  match List.find (waits_for p) (suspended st) with
  | Some (_, k) =>
      resume k resolved
        {| cfg := cfg st; thunderSession := thunderSession st;
           webInspector := webInspector st; log := log st;
           suspended := List.filter (fun e => negb (waits_for p e)) (suspended st) |}
  | None => st
  end.

(** What can happen to the orchestrator, one step at a time. *)
Inductive action : Type :=
| DoStart
| DoLaunch (url : string)
| DoClose
| DoQuit
| Settle (p : nat) (resolved : bool)
| Console (error : option value) (message : value).

Definition step (st : api) (a : action) : api :=
  match a with
  | DoStart => start st
  | DoLaunch url => launch url st
  | DoClose => close st
  | DoQuit => quit st
  | Settle p resolved => settle p resolved st
  | Console error message => handleConsoleMessage error message st
  end.

Definition run (st : api) (trace : list action) : api := foldl step st trace.

End ThunderWebkitAPI.

(** * Vocabulary of the properties

    ** The transport *)

Module WebSocketClientSpec.

Import JS WebSocketClient.

(** The listeners [connect] attaches to the socket of connection [c]. *)
Definition own_listeners (c : nat) : list (string * socket_listener) :=
  [("open", OnOpen c); ("error", OnError c);
   ("close", OnClose c); ("message", OnMessage c)].

(** What the function given to [setTimeout] rejects the promise with. *)
Definition timed_out : settled unit :=
  Rejected (Error "WebSocket connection timed out").

(** The device the examples talk to. *)
Definition device : string := "ws://192.168.1.100:80/jsonrpc".

Section Spec.

Context {D H : Type}.
Implicit Types (cl : client D H) (k : connection D).

(** A client some sequence of steps leads to from a new client. *)
Definition reachable cl : Prop :=
  exists trace, cl = run createWebSocketClient trace.

(** What holds of every reachable client. *)
Record wf cl : Prop := {
  wf_listeners : forall c k,
    connections cl !! c = Some k -> listeners k = own_listeners c;
  wf_socket : forall s,
    socket cl = Some s -> S s = length (connections cl);
  wf_connecting : forall c k,
    connections cl !! c = Some k -> readyState k = CONNECTING ->
    socket cl = Some c;
  wf_timeoutId :
    timeoutId cl = match length (connections cl) with
                   | O => None
                   | S n => Some n
                   end;
  wf_events : forall e, In e (events cl) -> (fst (snd e) < closures cl)%nat
}.

(** The socket of connection [c]: its state, what it was given to send,
    its listeners; and the promise of connection [c]. *)
Definition readyState_of (c : nat) cl : option ready :=
  readyState <$> connections cl !! c.

Definition promise_of (c : nat) cl : option (settled unit) :=
  promise <$> connections cl !! c.

Definition sent_of (c : nat) cl : list D :=
  match connections cl !! c with
  | Some k => sent k
  | None => []
  end.

Definition listeners_of (c : nat) cl : list (string * socket_listener) :=
  match connections cl !! c with
  | Some k => listeners k
  | None => []
  end.

(** Connection [c] is still waiting for its socket: the promise is
    pending, [connected] is false, the timer is armed and the socket has
    not been open. *)
Definition waiting (c : nat) cl : Prop :=
  exists k, connections cl !! c = Some k /\
            promise k = Pending /\ connected k = false /\
            timer k = Armed /\ readyState k <> OPEN.

(** The action is neither the opening of socket [c], nor an error of it,
    nor the running out of its timer. *)
Definition leaves_alone (c : nat) (a : action D H) : Prop :=
  a <> Opens c /\ a <> Errors c /\ a <> Expires c.

End Spec.

End WebSocketClientSpec.

(** ** The session *)

Module ThunderSessionSpec.

Import JS WebSocketClient WebSocketClientSpec ThunderSession.

(** The promise a handler resolves or rejects. *)
Definition handler_promise (h : handler) : nat :=
  match h with
  | Response _ p => p
  | handleEvent _ _ p => p
  end.

(** The handlers that are listeners of [events]. *)
Definition registered (st : session) : list handler :=
  map (fun e => snd (snd e)) (events (wsClient st)).

(** What holds of every session the interface leads to: the client is
    well formed, every registered handler has a promise of its own, and
    the ids the registered handlers wait for were allocated, each once. *)
Record consistent (st : session) : Prop := {
  consistent_client : wf (wsClient st);
  consistent_bound : forall h,
    In h (registered st) -> (handler_promise h < length (promises st))%nat;
  consistent_promises : NoDup (map handler_promise (registered st));
  consistent_ids : forall id p,
    In (Response id p) (registered st) -> id < messageId st;
  consistent_unique : forall id p p',
    In (Response id p) (registered st) ->
    In (Response id p') (registered st) -> p = p'
}.

(** The sessions the interface, the sockets and the timers lead to. *)
Inductive reachable : session -> Prop :=
| reach_new config : reachable (createThunderSession config)
| reach_connect st : reachable st -> reachable (snd (connect st))
| reach_disconnect st : reachable st -> reachable (disconnect st)
| reach_stop st : reachable st -> reachable (snd (stop st))
| reach_start st : reachable st -> reachable (snd (start st))
| reach_resume st : reachable st -> reachable (snd (resume st))
| reach_waitForEvent st eventType matchParams :
    reachable st -> reachable (snd (waitForEvent eventType matchParams st))
| reach_fire st s e :
    reachable st -> reachable (fire view update invoke s e st)
| reach_expire st t : reachable st -> reachable (update (expire t) st)
| reach_checkpoint st : reachable st -> reachable (checkpoint st).

(** The outcome the arrow function of [sendRpc] gives its promise on an
    event, [Pending] when it leaves the promise alone. *)
Definition answer (id : Z) (e : event text) : settled value :=
  match detail e with
  | Some data =>
      if nonempty data then
        match response_for id data with
        | Normal (Some v) => Resolved v
        | Normal None => Pending
        | Throw err => Rejected err
        end
      else Pending
  | None => Pending
  end.

(** The promises a step keeps as they are. *)
Definition keeps (st st' : session) : Prop :=
  (length (promises st) <= length (promises st'))%nat /\
  forall p, (p < length (promises st))%nat -> outcome p st' = outcome p st.

(** [data] is a response whose [id] is [id]. *)
Definition carries (id : Z) (data : text) : Prop :=
  exists response rid,
    data = Json response /\ get (VJson response) "id" = Normal rid /\
    strict_equals rid (VJson (JNum id)) = true.

(** [response.result || response]. *)
Definition result_or_response (response : json) : value :=
  match get (VJson response) "result" with
  | Normal result => if truthy result then result else VJson response
  | Throw _ => VJson response
  end.

(** The session of the examples. *)
Definition UX : config :=
  {| host := "192.168.1.100"; callsign := "UX"; jsonRpcId := None |}.

(** [connect()], then the socket opens: the session has sent the
    registration with id 1 and the next id is 2. *)
Definition opened : session :=
  deliver 0 OpenEvent (snd (connect (createThunderSession UX))).


(** A status listing with one entry. *)
Definition listing (id : Z) (state : string) : json :=
  JObj [("jsonrpc", JStr "2.0"); ("id", JNum id);
        ("result", JArr [JObj [("callsign", JStr "UX"); ("state", JStr state)]])].

(** A notification of the controller. *)
Definition notification (event : string) (params : list (string * json)) : json :=
  JObj [("jsonrpc", JStr "2.0"); ("method", JStr "client.Controller.events.all");
        ("params", JObj [("event", JStr event); ("params", JObj params)])].

(** The promise a continuation settles, and the continuations that only
    pass an outcome on. *)
Definition target (k : continuation) : nat :=
  match k with
  | GetState _ q => q
  | Forward q => q
  end.

Definition forwards (k : continuation) : Prop :=
  match k with
  | Forward _ => True
  | GetState _ _ => False
  end.

(** Every continuation is for a promise that exists, and what awaits the
    promise of a wait only forwards its outcome. *)
Record tidy (st : session) : Prop := {
  tidy_reactions : forall p pr k,
    promises st !! p = Some pr -> In k (reactions pr) ->
    (target k < length (operations st))%nat;
  tidy_waiters : forall eventType matchParams p pr k,
    In (handleEvent eventType matchParams p) (registered st) ->
    promises st !! p = Some pr -> In k (reactions pr) -> forwards k;
  tidy_jobs : forall k o,
    In (k, o) (jobs st) -> (target k < length (operations st))%nat
}.

(** Between two turns of the event loop: no job is left and no
    [connect] of the session has a settled promise to go on from. *)
Definition idle (st : session) : Prop :=
  jobs st = [] /\
  forall cq, In cq (connecting st) -> connection_promise (fst cq) st = Pending.

(** The frame of [status()]. *)
Definition status_request (id : Z) : json :=
  request id "Controller.1.status" (JObj []).

(** While the handlers registered before an operation look at the
    response to its status request, the state of the session stays
    [calm]: the wire, the listeners and the promises of the callers are
    as they were in [st1], the promise [p] of the status request is
    untouched, and the jobs only forward outcomes to promises older than
    [q]. *)
Record calm (st1 : session) (q p : nat) (st : session) : Prop := {
  calm_connections : connections (wsClient st) = connections (wsClient st1);
  calm_socket : socket (wsClient st) = socket (wsClient st1);
  calm_events : events (wsClient st) = events (wsClient st1);
  calm_wf : wf (wsClient st);
  calm_cfg : cfg st = cfg st1;
  calm_operations : operations st = operations st1;
  calm_connecting : connecting st = connecting st1;
  calm_length : length (promises st) = length (promises st1);
  calm_promise : promises st !! p = promises st1 !! p;
  calm_jobs :
    Forall (fun job => forwards (fst job) /\ (target (fst job) < q)%nat) (jobs st);
  calm_waiters : forall eventType matchParams p' pr k,
    In (handleEvent eventType matchParams p') (registered st1) ->
    promises st !! p' = Some pr -> In k (reactions pr) ->
    forwards k /\ (target k < q)%nat
}.



End ThunderSessionSpec.

(** ** The debug feed *)

Module WebInspectorSpec.

Import JS WebSocketClient WebInspector.

(** An inspector whose [ws] is the client made last. *)
Definition with_last (config : webInspectorConfig)
    (older : list (client json handler)) (cl : client json handler)
    (forwarded : list value) : inspector :=
  {| config := config; ws := Some (length older);
     clients := older ++ [cl]; forwarded := forwarded |}.

(** The client [connect] makes, with its four handlers. *)
Definition new_client (url : string) : client json handler :=
  on "close" whenClose
    (on "error" whenError
       (on "message" handleMessage
          (on "open" whenOpen
             (snd (WebSocketClient.connect url None None createWebSocketClient))))).

End WebInspectorSpec.

(** ** More about the transport *)

Module WebSocketClientTerms.

Import JS WebSocketClient WebSocketClientSpec.

(** A socket that is connecting or open. *)
Definition live (r : ready) : bool :=
  match r with
  | CONNECTING | OPEN => true
  | CLOSING | CLOSED => false
  end.

Definition failed : settled unit :=
  Rejected (Error "WebSocket connection failed").

Section Terms.

Context {D H : Type}.
Implicit Types (cl : client D H) (k : connection D).

(** No socket but the one [socket] refers to is open. *)
Definition tight cl : Prop :=
  forall c k, connections cl !! c = Some k -> readyState k = OPEN ->
              socket cl = Some c.

(** Connection [c] has opened: [connected] is true, its timer is no
    longer armed, and its promise is pending or resolved. *)
Definition has_opened (c : nat) cl : Prop :=
  exists k, connections cl !! c = Some k /\
            connected k = true /\ timer k <> Armed /\
            (promise k = Pending \/ promise k = Resolved tt).

Definition timer_of (c : nat) cl : option timer_state :=
  timer <$> connections cl !! c.

(** What the client has passed to its sockets, oldest first. *)
Definition wire cl : list D := concat (map sent (connections cl)).

(** The handlers the steps of a trace give to [on] for a type of event,
    in the order of the calls. *)
Fixpoint subscribed (type : string) (trace : list (action D H)) : list H :=
  match trace with
  | [] => []
  | On event handler :: trace =>
      if String.eqb event type then handler :: subscribed type trace
      else subscribed type trace
  | _ :: trace => subscribed type trace
  end.

End Terms.

End WebSocketClientTerms.

(** ** More about the session *)

Module ThunderSessionTerms.

Import JS WebSocketClient WebSocketClientSpec WebSocketClientTerms.
Import ThunderSession ThunderSessionSpec.



(** [frame] is a JSON-RPC request with id [id]. *)
Definition is_request (id : Z) (frame : json) : Prop :=
  exists method params, frame = request id method params.

(** From [st] to [st'] the configuration stays, the counter of ids does
    not go back, the sockets are given requests only, numbered in
    increasing order from the counter of [st] to below the counter of
    [st'], the listeners of the session all stay and those added are
    for messages, no promise of the interface goes away, and a [connect]
    that came to be in flight is for a promise made on the way. *)
Record advances (st st' : session) : Prop := {
  advances_cfg : cfg st' = cfg st;
  advances_id : messageId st <= messageId st';
  advances_frames : exists ids news,
    frames st' = frames st ++ news /\ Forall2 is_request ids news /\
    StronglySorted Z.lt ids /\
    Forall (fun id => messageId st <= id < messageId st') ids;
  advances_events : exists more,
    events (wsClient st') = events (wsClient st) ++ more /\
    forall e, In e more -> fst e = "message";
  advances_operations : (length (operations st) <= length (operations st'))%nat;
  advances_connecting : forall cq,
    In cq (connecting st') ->
    In cq (connecting st) \/
    (length (operations st) <= snd cq < length (operations st'))%nat
}.

(** [stop()], [start()] or [resume()]. *)
Definition operate (op : operation) : session -> nat * session :=
  match op with
  | Stop => stop
  | Start => start
  | Resume => resume
  end.




(** A status listing with no instance. *)
Definition no_instances (id : Z) : json :=
  JObj [("jsonrpc", JStr "2.0"); ("id", JNum id); ("result", JArr [])].

(** The outcome the waiter of [waitForEvent] gives its promise on a
    message, [Pending] when it leaves the promise alone. *)
Definition verdict (eventType : string) (matchParams : list (string * json))
    (data : text) : settled value :=
  match data with
  | Json note =>
      match accepts eventType matchParams note with
      | Normal true => Resolved (VJson note)
      | _ => Pending
      end
  | _ => Pending
  end.

(** What may follow a state of the session. *)
Inductive later (st : session) : session -> Prop :=
| later_now : later st st
| later_connect st' : later st st' -> later st (snd (connect st'))
| later_disconnect st' : later st st' -> later st (disconnect st')
| later_stop st' : later st st' -> later st (snd (stop st'))
| later_start st' : later st st' -> later st (snd (start st'))
| later_resume st' : later st st' -> later st (snd (resume st'))
| later_waitForEvent st' eventType matchParams :
    later st st' -> later st (snd (waitForEvent eventType matchParams st'))
| later_fire st' s e :
    later st st' -> later st (fire view update invoke s e st')
| later_expire st' t : later st st' -> later st (update (expire t) st')
| later_checkpoint st' : later st st' -> later st (checkpoint st').

(** A job that ends without a word: the rest of [getState] when the
    status call was rejected, or when looking up the state throws. *)
Definition lost (config : config) (job : continuation * settled value) : Prop :=
  match job with
  | (GetState _ _, Resolved result) =>
      exists err, state_of (callsign config) result = Throw err
  | (GetState _ _, _) => True
  | (Forward _, _) => False
  end.

(** Nothing is left that would settle promise [q] of the interface. *)
Record hung (config : config) (q : nat) (st : session) : Prop := {
  hung_cfg : cfg st = config;
  hung_pending : operations st !! q = Some Pending;
  hung_reactions : forall p pr k,
    promises st !! p = Some pr -> In k (reactions pr) -> target k <> q;
  hung_jobs : forall job,
    In job (jobs st) -> target (fst job) = q -> lost config job;
  hung_connecting : forall cq, In cq (connecting st) -> snd cq <> q
}.

(** What awaits a promise other than [p] is for a promise of the
    interface older than [q]. *)
Definition reacts_below (p q : nat) (st : session) : Prop :=
  forall p' pr k,
    promises st !! p' = Some pr -> In k (reactions pr) -> p' <> p ->
    (target k < q)%nat.

(** The session [st3] in which the rest of [getState] runs, for an
    operation called in [st] whose promise is [q]: the status request has
    been sent and answered, its handler is the one listener added, and
    nothing else has changed on the wire. *)
Record answered (st : session) (q : nat) (st3 : session) : Prop := {
  answered_cfg : cfg st3 = cfg st;
  answered_id : messageId st3 = messageId st + 1;
  answered_open : isConnected st3 = true;
  answered_consistent : consistent st3;
  answered_frames : frames st3 = frames st ++ [status_request (messageId st)];
  answered_handlers :
    handlers "message" (wsClient st3)
    = handlers "message" (wsClient st) ++
      [Response (messageId st) (length (promises st))];
  answered_pending : operations st3 !! q = Some Pending;
  answered_operations : length (operations st3) = S q;
  answered_promises : length (promises st3) = S (length (promises st));
  answered_reactions : forall p pr k,
    promises st3 !! p = Some pr -> In k (reactions pr) -> (target k < q)%nat;
  answered_jobs : jobs st3 = [];
  answered_connecting : connecting st3 = connecting st
}.



End ThunderSessionTerms.

(** ** More about the debug feed *)

Module WebInspectorTerms.

Import JS WebSocketClient WebSocketClientSpec WebInspector WebInspectorSpec.

(** The listeners [connect] gives a new client. *)
Definition subscriptions : list (string * (nat * handler)) :=
  [("open", (0%nat, whenOpen)); ("message", (1%nat, handleMessage));
   ("error", (2%nat, whenError)); ("close", (3%nat, whenClose))].

(** The inspectors the interface, the sockets and the timers lead to. *)
Inductive reachable : inspector -> Prop :=
| reach_new config : reachable (createWebInspectorClient config)
| reach_connect st : reachable st -> reachable (connect st)
| reach_disconnect st : reachable st -> reachable (disconnect st)
| reach_deliver st i s e : reachable st -> reachable (deliver i s e st)
| reach_expire st i t : reachable st -> reachable (update i (expire t) st).

(** Every client is well formed and has the listeners [connect] gave it. *)
Definition sound (st : inspector) : Prop :=
  forall i cl, clients st !! i = Some cl -> wf cl /\ events cl = subscriptions.

(** The texts [handleMessage] gives to [onMessage] for a message. *)
Definition forwards (data : text) : list value :=
  if nonempty data then
    match console_text data with
    | Normal (Some text) => [text]
    | _ => []
    end
  else [].

(** [message.params?.message?.text]. *)
Definition message_text (params : value) : value :=
  optional (optional params "message") "text".

(** A [Console.messageAdded] notification with a text. *)
Definition console_message (text : string) : json :=
  JObj [("method", JStr "Console.messageAdded");
        ("params", JObj [("message", JObj [("text", JStr text)])])].

(** The client [connect] makes, once its socket has opened and the
    handler of 'open' has run: the trace of the client. *)
Definition opened_client (url : string) : client json handler :=
  run (new_client url)
    [Opens 0; Send enable_inspector; Send enable_console; Send initialized;
     Opened 0].

(** The inspector of the examples. *)
Definition box : webInspectorConfig :=
  {| hostIP := "192.168.1.100"; port := 9998 |}.

End WebInspectorTerms.

(** ** The orchestrator *)

Module ThunderWebkitAPITerms.

Import JS ThunderWebkitAPI.

(** The orchestrators some sequence of steps leads to. *)
Definition reachable (st : api) : Prop :=
  exists config trace, st = run (createThunderWebkitAPI config) trace.

(** The events of the orchestrator. *)
Definition thunder (type message : string) : effect :=
  Event {| type := type; source := "Thunder"; message := text message |}.

Definition not_started : effect := thunder "error" "Session not started".
Definition already_started : effect := thunder "error" "Session already started".
Definition connected : effect := thunder "connected" "Session connected".
Definition failed_start : effect :=
  thunder "error" "Failed to start Thunder session".
Definition launched (url : string) : effect :=
  thunder "url-launch" (String.append "URL launched: " url).
Definition failed_launch : effect := thunder "error" "Failed to launch URL".
Definition closed : effect := thunder "closed" "Browser instance closed".
Definition failed_close : effect := thunder "error" "Failed to close instance".
Definition failed_stop : effect := thunder "error" "Failed to stop instance".
Definition stopped : effect :=
  Event {| type := "quit"; source := "UnifiedAPI";
           message := text "Session fully stopped" |}.

(** The calls of [launch(url)] on session [i] and inspector [j], and
    those of [close()]. *)
Definition calls_of_launch (i j : nat) (url : string) : list effect :=
  [Call j InspectorDisconnect; Call i ThunderStop; Call i ThunderStart;
   Call j InspectorConnect; Call i ThunderResume; Call i (ThunderSetURL url)].

Definition calls_of_close (i j : nat) : list effect :=
  [Call j InspectorDisconnect; Call i ThunderStop].

(** The promises of the calls at positions [first], [first + 1], ... are
    resolved, one after the other. *)
Definition answers (first n : nat) : list action :=
  map (fun k => Settle (first + k) true) (seq 0 n).

(** The methods of the session. *)
Definition of_session (m : request) : bool :=
  match m with
  | InspectorConnect | InspectorDisconnect => false
  | _ => true
  end.

Definition is_session (e : effect) : bool :=
  match e with
  | CreateSession _ _ => true
  | _ => false
  end.

Definition is_inspector (e : effect) : bool :=
  match e with
  | CreateInspector _ _ => true
  | _ => false
  end.

(** What holds of every reachable orchestrator: what is suspended waits
    for a call that was made, the variables hold objects that were
    created, of their kind, and every call went to an object created
    before, of the kind of its method. *)
Record orderly (st : api) : Prop := {
  orderly_suspended : forall e,
    In e (suspended st) -> (fst e < length (log st))%nat;
  orderly_session : forall o,
    thunderSession st = Some o -> is_session <$> log st !! o = Some true;
  orderly_inspector : forall o,
    webInspector st = Some o -> is_inspector <$> log st !! o = Some true;
  orderly_calls : forall n o m,
    log st !! n = Some (Call o m) ->
    (o < n)%nat /\
    (if of_session m then is_session else is_inspector) <$> log st !! o
    = Some true
}.

(** [launch(url)] waits at its step [m], having been called in [st]. *)
Definition launching (st : api) (i j : nat) (url : string) (m : nat) : api :=
  {| cfg := cfg st; thunderSession := Some i; webInspector := Some j;
     log := log st ++ firstn (S m) (calls_of_launch i j url);
     suspended := suspended st ++ [((length (log st) + m)%nat, Launch m url)] |}.

Definition closing (st : api) (i j : nat) (m : nat) : api :=
  {| cfg := cfg st; thunderSession := Some i; webInspector := Some j;
     log := log st ++ firstn (S m) (calls_of_close i j);
     suspended := suspended st ++ [((length (log st) + m)%nat, Close m)] |}.

(** The orchestrator of the examples. *)
Definition demo : config :=
  {| thunderUrl := "ws://192.168.1.100:9998"; callsign := "UX";
     targetUrl := "https://example.com"; webInspectorHost := "192.168.1.100";
     webInspectorPort := None |}.

End ThunderWebkitAPITerms.

(** * Properties of the transport *)

Module WebSocketClientFacts.

Import JS WebSocketClient WebSocketClientSpec.

Section Proofs.

Context {D H : Type}.
Implicit Types (cl : client D H) (k : connection D).

Lemma remove_noop (c n : nat) (type : string) :
  removeEventListener same_listener type (Noop n) (own_listeners c)
  = own_listeners c.
Proof.
  unfold removeEventListener, own_listeners, same_listener; simpl.
  repeat (rewrite bool_decide_eq_false_2 by discriminate).
  by rewrite !andb_false_r.
Qed.

Lemma set_listeners_noop k (c n : nat) (type : string) :
  listeners k = own_listeners c ->
  set_listeners (removeEventListener same_listener type (Noop n)) k = k.
Proof.
  destruct k as [u p r ls sn cn pr to ti]; simpl. intros ->.
  unfold set_listeners. f_equal. apply remove_noop.
Qed.

(** [close()] written out for a client whose socket has its own listeners:
    the four [removeEventListener] calls remove nothing. *)
Lemma close_unfold cl s k :
  socket cl = Some s -> connections cl !! s = Some k ->
  listeners k = own_listeners s ->
  close cl =
    {| socket := None; events := events cl; timeoutId := timeoutId cl;
       connections := <[s := socket_close k]> (connections cl);
       closures := (closures cl + 4)%nat |}.
Proof.
  intros Hs Hk Hl. unfold close. rewrite Hs. unfold with_connection; simpl.
  f_equal.
  rewrite !list_alter_alter_eq.
  apply list_eq. intros i. rewrite list_lookup_alter, list_lookup_insert.
  assert (s < length (connections cl))%nat by (eapply lookup_lt_Some; eauto).
  destruct (decide (s = i)) as [->|]; simpl.
  - rewrite Hk; simpl. rewrite decide_True by (split; [done|lia]).
    f_equal. unfold compose.
    by rewrite !(set_listeners_noop k i) by done.
  - rewrite decide_False by tauto. reflexivity.
Qed.

Lemma wf_new : wf (@createWebSocketClient D H).
Proof. split; simpl; try done. Qed.

Lemma lookup_with_connection cl s f c :
  connections (with_connection s f cl) !! c
  = if decide (s = c) then f <$> connections cl !! s else connections cl !! c.
Proof. unfold with_connection; simpl. apply list_lookup_alter. Qed.

(** Changing a connection keeps the invariant as long as its listeners
    stay and the socket does not go back to connecting. *)
Lemma wf_with_connection cl s f :
  wf cl ->
  (forall k, listeners (f k) = listeners k) ->
  (forall k, readyState (f k) = CONNECTING -> readyState k = CONNECTING) ->
  wf (with_connection s f cl).
Proof.
  intros [HL HS HC HT HE] Hl Hr. split.
  - intros c k. rewrite lookup_with_connection.
    destruct (decide (s = c)) as [->|]; [|by apply HL].
    destruct (connections cl !! c) as [k0|] eqn:E; simpl; [|done].
    intros [= <-]. rewrite Hl. by apply HL.
  - simpl. intros s0 Hs0. rewrite length_alter. by apply HS.
  - intros c k. rewrite lookup_with_connection. simpl.
    destruct (decide (s = c)) as [->|]; [|by apply HC].
    destruct (connections cl !! c) as [k0|] eqn:E; simpl; [|done].
    intros [= <-] Hc. apply (HC c k0 E). by apply Hr.
  - simpl. rewrite length_alter. exact HT.
  - simpl. exact HE.
Qed.

Lemma wf_close cl : wf cl -> wf (close cl).
Proof.
  intros Hwf. destruct (socket cl) as [s|] eqn:Hs.
  2:{ unfold close. by rewrite Hs. }
  pose proof (wf_socket _ Hwf s Hs) as Hlen.
  destruct (connections cl !! s) as [k|] eqn:Hk.
  2:{ apply lookup_ge_None in Hk. lia. }
  rewrite (close_unfold cl s k Hs Hk (wf_listeners _ Hwf s k Hk)).
  destruct Hwf as [HL HS HC HT HE]. split; simpl.
  - intros c k'. rewrite list_lookup_insert.
    destruct (decide (s = c ∧ (s < length (connections cl))%nat)) as [[-> _]|];
      [|by apply HL].
    intros [= <-]. rewrite <- (HL c k Hk).
    unfold socket_close. by destruct (readyState k).
  - done.
  - intros c k'. rewrite list_lookup_insert.
    destruct (decide (s = c ∧ (s < length (connections cl))%nat)) as [[-> _]|].
    + intros [= <-]. unfold socket_close.
      destruct (readyState k) eqn:E; simpl; rewrite ?E; done.
    + intros Hc Hr. assert (s ≠ c) by (intros ->; apply n; split; [done|lia]).
      pose proof (HC c k' Hc Hr). congruence.
  - by rewrite length_insert.
  - intros e He. specialize (HE e He). lia.
Qed.

Lemma close_socket cl : socket (close cl) = None.
Proof. unfold close. by destruct (socket cl) eqn:E. Qed.

Lemma close_events cl : events (close cl) = events cl.
Proof. unfold close. by destruct (socket cl). Qed.

Lemma wf_connect cl url timeout protocols :
  wf cl -> wf (snd (connect url timeout protocols cl)).
Proof.
  intros Hwf. unfold connect.
  set (cl' := match socket cl with Some _ => close cl | None => cl end).
  assert (Hwf' : wf cl') by (subst cl'; destruct (socket cl); auto using wf_close).
  assert (Hnone : socket cl' = None).
  { subst cl'. destruct (socket cl) eqn:E; [apply close_socket|done]. }
  clearbody cl'. destruct Hwf' as [HL HS HC HT HE]. split; simpl.
  - intros c k Hc. apply lookup_app_Some in Hc as [Hc|[Hlen Hc]]; [by apply HL|].
    destruct (c - length (connections cl'))%nat eqn:E; simpl in Hc; [|done].
    injection Hc as <-. simpl. replace c with (length (connections cl')) by lia.
    reflexivity.
  - intros s [= <-]. rewrite length_app; simpl. lia.
  - intros c k Hc Hr. apply lookup_app_Some in Hc as [Hc|[Hlen Hc]].
    + pose proof (HC c k Hc Hr). congruence.
    + destruct (c - length (connections cl'))%nat eqn:E; simpl in Hc; [|done].
      f_equal. lia.
  - rewrite length_app; simpl.
    replace (length (connections cl') + 1)%nat with (S (length (connections cl'))) by lia.
    done.
  - exact HE.
Qed.

Lemma wf_on cl event handler : wf cl -> wf (on event handler cl).
Proof.
  intros [HL HS HC HT HE]. split; simpl; try done.
  intros e. unfold addEventListener.
  destruct (existsb _ _).
  - intros He. specialize (HE e He). lia.
  - rewrite in_app_iff. intros [He|[<-|[]]]; simpl; [|lia].
    specialize (HE e He). lia.
Qed.

Lemma wf_off cl event handler : wf cl -> wf (off event handler cl).
Proof.
  intros [HL HS HC HT HE]. split; simpl; try done.
  intros e. unfold removeEventListener. rewrite filter_In.
  intros [He _]. specialize (HE e He). lia.
Qed.

Lemma wf_send cl data cl' : wf cl -> send data cl = Normal cl' -> wf cl'.
Proof.
  intros Hwf. unfold send.
  destruct (socket cl) as [s|]; [|done].
  destruct (connections cl !! s) as [k|]; [|done].
  destruct (bool_decide _); [|done].
  intros [= <-]. by apply wf_with_connection.
Qed.

Lemma wf_clearTimeout cl id : wf cl -> wf (clearTimeout id cl).
Proof.
  intros Hwf. destruct id as [t|]; [|done]. simpl.
  apply wf_with_connection; [done|..]; intros k; by destruct (timer k).
Qed.

Lemma wf_enter cl f : wf cl -> wf (enter cl f).
Proof.
  intros Hwf. destruct f as [c|c|c|c|n]; simpl; try done.
  - unfold onOpen_enter. apply wf_with_connection; [|done..].
    by apply wf_clearTimeout.
  - unfold onError_enter. destruct (is_connected c cl); [done|].
    by apply wf_with_connection.
Qed.

Lemma wf_foldl_enter fs cl : wf cl -> wf (foldl enter cl fs).
Proof.
  revert cl. induction fs as [|f fs IH]; intros cl Hwf; simpl; [done|].
  apply IH. by apply wf_enter.
Qed.

Lemma wf_expire cl t : wf cl -> wf (expire t cl).
Proof.
  intros Hwf. unfold expire. destruct (is_armed t cl); [|done].
  unfold onTimeout. destruct (is_connected _ _).
  - by apply wf_with_connection.
  - apply wf_with_connection; [|done..]. apply wf_close.
    by apply wf_with_connection.
Qed.

Lemma wf_step cl a : wf cl -> wf (step cl a).
Proof.
  intros Hwf. destruct a; simpl.
  - by apply wf_connect.
  - destruct (send data cl) eqn:E; [|done]. by eapply wf_send.
  - by apply wf_close.
  - by apply wf_on.
  - by apply wf_off.
  - destruct (is_connecting s cl); [|done].
    apply wf_foldl_enter. by apply wf_with_connection.
  - destruct (is_connected c cl); [|done]. by apply wf_with_connection.
  - apply wf_foldl_enter. by apply wf_with_connection.
  - by apply wf_with_connection.
  - done.
  - by apply wf_expire.
Qed.

Lemma wf_run trace cl : wf cl -> wf (run cl trace).
Proof.
  revert cl. induction trace as [|a trace IH]; intros cl Hwf; simpl; [done|].
  apply IH. by apply wf_step.
Qed.

Lemma reachable_wf cl : reachable cl -> wf cl.
Proof. intros [trace ->]. apply wf_run, wf_new. Qed.

(** *** What [on] and [off] do to the listeners of [events] *)

(** [on] always adds a listener: its wrapper is new. *)
Lemma on_events cl event handler :
  wf cl ->
  events (on event handler cl) = events cl ++ [(event, (closures cl, handler))].
Proof.
  intros Hwf. unfold on, addEventListener; simpl.
  destruct (existsb _ _) eqn:E; [|done].
  apply existsb_exists in E as (e & He & Hsame).
  apply (wf_events _ Hwf) in He. unfold same_wrapper in Hsame; simpl in Hsame.
  rewrite (proj2 (Nat.eqb_neq _ _)), andb_false_r in Hsame by lia. done.
Qed.

(** [off] removes nothing: its wrapper is new too, so it is no listener
    of [events]. *)
Lemma off_events cl event handler :
  wf cl -> events (off event handler cl) = events cl.
Proof.
  intros Hwf. unfold off, removeEventListener; simpl.
  apply forallb_filter_id. apply forallb_forall. intros e He.
  apply (wf_events _ Hwf) in He. unfold same_wrapper; simpl.
  rewrite (proj2 (Nat.eqb_neq _ _)) by lia. by rewrite andb_false_r.
Qed.

Lemma off_handlers cl event handler type :
  wf cl -> handlers type (off event handler cl) = handlers type cl.
Proof. intros Hwf. unfold handlers. by rewrite off_events. Qed.

Lemma connect_events cl url timeout protocols :
  events (snd (connect url timeout protocols cl)) = events cl.
Proof. unfold connect; simpl. destruct (socket cl); [apply close_events|done]. Qed.

Lemma send_events cl data cl' : send data cl = Normal cl' -> events cl' = events cl.
Proof.
  unfold send. destruct (socket cl); [|done].
  destruct (connections cl !! _); [|done]. destruct (bool_decide _); [|done].
  by intros [= <-].
Qed.

Lemma enter_events cl f : events (enter cl f) = events cl.
Proof.
  destruct f; simpl; try done.
  - unfold onOpen_enter, clearTimeout. by destruct (timeoutId cl).
  - unfold onError_enter. by destruct (is_connected _ _).
Qed.

Lemma expire_events cl t : events (expire t cl) = events cl.
Proof.
  unfold expire. destruct (is_armed _ _); [|done].
  unfold onTimeout. destruct (is_connected _ _); [done|]. simpl.
  by rewrite close_events.
Qed.

(** *** C6: [send] *)

Lemma send_returns (data : D) cl cl' :
  send data cl = Normal cl' ->
  exists s, socket cl = Some s /\ cl' = with_connection s (push_sent data) cl.
Proof.
  unfold send. destruct (socket cl) as [s|]; [|done].
  destruct (connections cl !! s) as [k|]; [|done].
  destruct (bool_decide _); [|done]. intros [= <-]. by exists s.
Qed.

Lemma send_when_connected (data : D) cl :
  isConnected cl = true ->
  exists s, socket cl = Some s /\
            send data cl = Normal (with_connection s (push_sent data) cl) /\
            sent_of s (with_connection s (push_sent data) cl)
            = sent_of s cl ++ [data].
Proof.
  unfold isConnected, send, sent_of.
  destruct (socket cl) as [s|]; [|done].
  destruct (connections cl !! s) as [k|] eqn:Hk; [|done].
  intros ->. exists s. repeat split.
  by rewrite lookup_with_connection, decide_True, Hk.
Qed.

(** C6.  [send(data)] either throws at once, which it does exactly when
    there is no socket or the socket is not open, and then the error is
    'WebSocket is not open'; or it returns, which it does exactly when
    the socket is open, and then [data] has been passed to the socket's
    [send] and nothing else has changed.  The data is never dropped
    without an error. *)
Theorem send_passes_or_throws (data : D) cl :
  match send data cl with
  | Throw e =>
      (socket cl = None \/
       exists s, socket cl = Some s /\ readyState_of s cl <> Some OPEN) /\
      isConnected cl = false /\
      e = Error "WebSocket is not open"
  | Normal cl' =>
      exists s, socket cl = Some s /\ readyState_of s cl = Some OPEN /\
                isConnected cl = true /\
                sent_of s cl' = sent_of s cl ++ [data] /\
                cl' = with_connection s (push_sent data) cl
  end.
Proof.
  unfold send, isConnected, readyState_of.
  destruct (socket cl) as [s|] eqn:Hs; [|by auto].
  destruct (connections cl !! s) as [k|] eqn:Hk; simpl.
  2:{ repeat split; try done. right. exists s. by rewrite Hk. }
  case_bool_decide as Hr.
  - exists s. rewrite Hk; simpl. repeat split; try done; [by rewrite Hr|].
    unfold sent_of.
    rewrite lookup_with_connection, decide_True, Hk by done. reflexivity.
  - repeat split; try done. right. exists s. rewrite Hk; simpl.
    split; [done|congruence].
Qed.

(** *** C5: [close] *)

Lemma close_idempotent cl : close (close cl) = close cl.
Proof.
  unfold close at 1. by rewrite close_socket.
Qed.

Lemma close_when_closed cl : socket cl = None -> close cl = cl.
Proof. intros Hs. unfold close. by rewrite Hs. Qed.

(** On a reachable client [close] leaves the listeners of every socket
    where they are: what it hands to [removeEventListener] are new
    functions, attached nowhere. *)
Lemma close_keeps_listeners cl c :
  reachable cl -> listeners_of c (close cl) = listeners_of c cl.
Proof.
  intros Hwf%reachable_wf. unfold listeners_of.
  destruct (connections (close cl) !! c) as [k'|] eqn:Hc'.
  - pose proof (wf_listeners _ (wf_close _ Hwf) c k' Hc') as ->.
    assert (is_Some (connections cl !! c)) as [k Hc].
    { apply lookup_lt_is_Some. apply lookup_lt_Some in Hc'.
      unfold close in Hc'. destruct (socket cl); [|done].
      unfold with_connection in Hc'; simpl in Hc'.
      by rewrite !length_alter in Hc'. }
    rewrite Hc. symmetry. by apply (wf_listeners _ Hwf).
  - assert (connections cl !! c = None) as ->; [|done].
    apply lookup_ge_None. apply lookup_ge_None in Hc'.
    unfold close in Hc'. destruct (socket cl); [|done].
    unfold with_connection in Hc'; simpl in Hc'.
    by rewrite !length_alter in Hc'.
Qed.

(** *** C4: [connect] and its timer *)

Lemma waiting_with_connection cl c s f :
  waiting c cl ->
  (forall k, promise k = Pending -> connected k = false -> timer k = Armed ->
             readyState k <> OPEN ->
             promise (f k) = Pending /\ connected (f k) = false /\
             timer (f k) = Armed /\ readyState (f k) <> OPEN) ->
  waiting c (with_connection s f cl).
Proof.
  intros (k & Hk & Hp & Hc & Ht & Hr) Hf. unfold waiting.
  rewrite lookup_with_connection. destruct (decide (s = c)) as [->|].
  - rewrite Hk; simpl. exists (f k). split; [done|]. by apply Hf.
  - by exists k.
Qed.

Lemma waiting_with_connection_ne cl c s f :
  s <> c -> waiting c cl -> waiting c (with_connection s f cl).
Proof.
  intros Hne (k & Hk & Hrest). exists k.
  by rewrite lookup_with_connection, decide_False.
Qed.

Lemma waiting_close cl c : wf cl -> waiting c cl -> waiting c (close cl).
Proof.
  intros Hwf Hw. destruct (socket cl) as [s|] eqn:Hs.
  2:{ by rewrite close_when_closed. }
  pose proof (wf_socket _ Hwf s Hs) as Hlen.
  destruct (connections cl !! s) as [k|] eqn:Hk.
  2:{ apply lookup_ge_None in Hk. lia. }
  rewrite (close_unfold cl s k Hs Hk (wf_listeners _ Hwf s k Hk)).
  destruct Hw as (k0 & Hk0 & Hp & Hc & Ht & Hr). unfold waiting; simpl.
  rewrite list_lookup_insert.
  destruct (decide (s = c ∧ (s < length (connections cl))%nat)) as [[-> _]|].
  - exists (socket_close k). split; [done|].
    assert (k0 = k) as -> by congruence.
    unfold socket_close. destruct (readyState k) eqn:E; simpl; rewrite ?E; done.
  - by exists k0.
Qed.

Lemma socket_listeners_open cl s k :
  connections cl !! s = Some k -> listeners k = own_listeners s ->
  socket_listeners s "open" cl = [OnOpen s].
Proof. intros Hk Hl. unfold socket_listeners. by rewrite Hk, Hl. Qed.

Lemma socket_listeners_error cl s k :
  connections cl !! s = Some k -> listeners k = own_listeners s ->
  socket_listeners s "error" cl = [OnError s].
Proof. intros Hk Hl. unfold socket_listeners. by rewrite Hk, Hl. Qed.

Lemma socket_listeners_none cl s type :
  connections cl !! s = None -> socket_listeners s type cl = [].
Proof. intros Hk. unfold socket_listeners. by rewrite Hk. Qed.

Ltac other_connection :=
  repeat (apply waiting_with_connection_ne; [done|]).

Lemma waiting_step cl a c :
  wf cl -> waiting c cl -> leaves_alone c a -> waiting c (step cl a).
Proof.
  intros Hwf Hw (Hopen & Herr & Hexp). destruct a; simpl.
  - (* connect *)
    unfold connect.
    set (cl' := match socket cl with Some _ => close cl | None => cl end).
    assert (Hw' : waiting c cl') by (subst cl'; destruct (socket cl); auto using waiting_close).
    destruct Hw' as (k & Hk & Hrest). exists k. simpl.
    split; [by apply lookup_app_l_Some|done].
  - (* send *)
    destruct (send data cl) as [cl'|] eqn:Hsend; [|done].
    apply send_returns in Hsend as (s & _ & ->).
    by apply waiting_with_connection.
  - by apply waiting_close.
  - done.
  - done.
  - (* a socket opens *)
    destruct (is_connecting s cl) eqn:Hcon; [|done].
    assert (s <> c) by congruence.
    unfold is_connecting in Hcon.
    destruct (connections cl !! s) as [k|] eqn:Hk; [|done].
    apply bool_decide_eq_true in Hcon.
    pose proof (wf_connecting _ Hwf s k Hk Hcon) as Hs.
    pose proof (wf_socket _ Hwf s Hs) as Hlen.
    pose proof (wf_timeoutId _ Hwf) as Ht. rewrite <- Hlen in Ht.
    erewrite socket_listeners_open.
    2:{ rewrite lookup_with_connection, decide_True, Hk by done. reflexivity. }
    2:{ simpl. by apply (wf_listeners _ Hwf). }
    simpl. unfold onOpen_enter. simpl timeoutId. rewrite Ht. simpl.
    by other_connection.
  - (* the end of onOpen *)
    destruct (is_connected c0 cl) eqn:Hcon; [|done].
    apply waiting_with_connection_ne; [|done]. intros ->.
    destruct Hw as (k & Hk & _ & Hc & _). unfold is_connected in Hcon.
    rewrite Hk in Hcon. congruence.
  - (* a socket reports an error *)
    assert (s <> c) by congruence.
    destruct (connections cl !! s) as [k|] eqn:Hk.
    + erewrite socket_listeners_error.
      2:{ rewrite lookup_with_connection, decide_True, Hk by done. reflexivity. }
      2:{ simpl. by apply (wf_listeners _ Hwf). }
      simpl. unfold onError_enter. destruct (is_connected _ _);
        by other_connection.
    + rewrite socket_listeners_none.
      2:{ by rewrite lookup_with_connection, decide_True, Hk. }
      simpl. by apply waiting_with_connection_ne.
  - (* a socket closes *)
    by apply waiting_with_connection.
  - done.
  - (* another timer runs out *)
    assert (t <> c) by congruence.
    unfold expire. destruct (is_armed t cl); [|done].
    unfold onTimeout. destruct (is_connected _ _).
    + by apply waiting_with_connection_ne.
    + apply waiting_with_connection_ne; [done|]. apply waiting_close.
      * by apply wf_with_connection.
      * by apply waiting_with_connection_ne.
Qed.

Lemma waiting_run trace cl c :
  wf cl -> waiting c cl -> Forall (leaves_alone c) trace ->
  wf (run cl trace) /\ waiting c (run cl trace).
Proof.
  revert cl. induction trace as [|a trace IH]; intros cl Hwf Hw Hall; simpl; [done|].
  inversion Hall; subst. apply IH; [by apply wf_step|by apply waiting_step|done].
Qed.

Lemma waiting_connect cl url timeout protocols :
  waiting (fst (connect url timeout protocols cl))
          (snd (connect url timeout protocols cl)).
Proof.
  unfold connect, waiting; simpl.
  eexists. split; [apply list_lookup_middle; reflexivity|]. by simpl.
Qed.

Lemma close_lookup cl c k :
  wf cl -> connections cl !! c = Some k ->
  connections (close cl) !! c
  = Some (if decide (socket cl = Some c) then socket_close k else k).
Proof.
  intros Hwf Hc. destruct (socket cl) as [s|] eqn:Hs.
  2:{ rewrite close_when_closed by done. by rewrite decide_False. }
  pose proof (wf_socket _ Hwf s Hs) as Hlen.
  destruct (connections cl !! s) as [k0|] eqn:Hk.
  2:{ apply lookup_ge_None in Hk. lia. }
  rewrite (close_unfold cl s k0 Hs Hk (wf_listeners _ Hwf s k0 Hk)). simpl.
  rewrite list_lookup_insert.
  destruct (decide (s = c ∧ (s < length (connections cl))%nat)) as [[-> _]|].
  - rewrite decide_True by done. congruence.
  - rewrite decide_False; [done|]. intros [= ->]. apply n. split; [done|lia].
Qed.


End Proofs.



(** The default of [timeout] is 5000. *)
Lemma connect_default_timeout (cl : client string unit) url protocols :
  timeout <$> connections (snd (connect url None protocols cl))
                !! fst (connect url None protocols cl)
  = Some 5000.
Proof.
  unfold connect; simpl. by rewrite list_lookup_middle.
Qed.

(** C5, where the code departs from it.  After [connect] and the opening
    of the socket, [close()] releases the socket and calling it again
    changes nothing, but the four listeners [connect] attached to the
    socket are still attached: each [removeEventListener] was given a new
    [() => {}]. *)
Theorem close_detaches_nothing :
  let opened :=
    run (@createWebSocketClient string unit)
      [Connect device None None; Opens 0%nat; Opened 0%nat] in
  listeners_of 0 opened = own_listeners 0 /\
  listeners_of 0 (close opened) = own_listeners 0 /\
  socket (close opened) = None /\
  close (close opened) = close opened.
Proof. by vm_compute. Qed.

End WebSocketClientFacts.

(** * Properties of the session protocol client *)

Module ThunderSessionFacts.

Import JS WebSocketClient WebSocketClientSpec WebSocketClientFacts.
Import ThunderSession ThunderSessionSpec.

#[local] Arguments on : simpl never.
#[local] Arguments off : simpl never.
#[local] Arguments close : simpl never.
#[local] Arguments send : simpl never.
#[local] Arguments WebSocketClient.connect : simpl never.
#[local] Arguments expire : simpl never.
#[local] Arguments get : simpl never.

Lemma handlers_registered st type h :
  In h (handlers type (wsClient st)) -> In h (registered st).
Proof.
  unfold handlers, registered. rewrite !in_map_iff.
  intros (e & <- & He%filter_In). exists e. tauto.
Qed.

Lemma consistent_new config : consistent (createThunderSession config).
Proof.
  split; simpl; try done; first [apply wf_new|constructor].
Qed.

(** A step that leaves the listeners of [events] alone. *)
Lemma consistent_same_events st st' :
  consistent st -> wf (wsClient st') ->
  events (wsClient st') = events (wsClient st) ->
  (length (promises st) <= length (promises st'))%nat ->
  messageId st <= messageId st' ->
  consistent st'.
Proof.
  intros [Hc Hb Hn Hi Hu] Hwf He Hlen Hid. unfold registered in *.
  split; unfold registered; rewrite ?He; try done.
  - intros h Hh. specialize (Hb h Hh). lia.
  - intros id p Hh. specialize (Hi id p Hh). lia.
Qed.

(** A step that adds one listener, for a promise no handler has yet. *)
Lemma consistent_one_more st st' event k h :
  consistent st -> wf (wsClient st') ->
  events (wsClient st') = events (wsClient st) ++ [(event, (k, h))] ->
  (length (promises st) <= handler_promise h < length (promises st'))%nat ->
  messageId st <= messageId st' ->
  (forall id p, h = Response id p -> messageId st <= id < messageId st') ->
  consistent st'.
Proof.
  intros [Hc Hb Hn Hi Hu] Hwf He Hlen Hid Hnew. unfold registered in *.
  split; unfold registered; rewrite ?He, ?map_app; simpl; try done.
  - intros h' [Hh|[<-|[]]]%in_app_iff; [|lia]. specialize (Hb h' Hh). lia.
  - apply NoDup_app. split; [done|]. split; [|apply NoDup_singleton].
    intros x Hx%list_elem_of_In [= ->]%list_elem_of_singleton.
    apply in_map_iff in Hx as (h' & Heq & Hh').
    specialize (Hb h' Hh'). lia.
  - intros id p [Hh|[Heq|[]]]%in_app_iff; [|by eapply Hnew].
    specialize (Hi id p Hh). lia.
  - intros id p p' [Hh|[Heq|[]]]%in_app_iff [Hh'|[Heq'|[]]]%in_app_iff.
    + by eapply Hu.
    + specialize (Hi id p Hh). specialize (Hnew id p' Heq'). lia.
    + specialize (Hi id p' Hh'). specialize (Hnew id p Heq). lia.
    + congruence.
Qed.

Lemma consistent_settle_promise st p o :
  consistent st -> consistent (settle_promise p o st).
Proof.
  intros Hc. unfold settle_promise.
  destruct (promises st !! p) as [[[] ks]|]; try done.
  apply (consistent_same_events st); simpl; try done; try lia.
  - apply Hc.
  - by rewrite length_insert.
Qed.

Lemma consistent_settle_operation st q o :
  consistent st -> consistent (settle_operation q o st).
Proof.
  intros Hc. apply (consistent_same_events st); simpl; try done; try lia.
  apply Hc.
Qed.

Lemma consistent_await st p k :
  consistent st -> consistent (await p k st).
Proof.
  intros Hc. unfold await.
  destruct (promises st !! p) as [[[] ks]|]; try done;
    apply (consistent_same_events st); simpl; try done; try lia;
    try apply Hc.
  by rewrite length_insert.
Qed.

Lemma consistent_update st f :
  consistent st -> wf (f (wsClient st)) ->
  events (f (wsClient st)) = events (wsClient st) ->
  consistent (update f st).
Proof.
  intros Hc Hwf He. by apply (consistent_same_events st).
Qed.

Lemma consistent_sendRpc st method params :
  consistent st -> consistent (snd (sendRpc method params st)).
Proof.
  intros Hc. unfold sendRpc. simpl.
  destruct (send _ _) as [cl|err] eqn:Hsend; simpl.
  - simpl in Hsend.
    eapply (consistent_one_more st); simpl; try done.
    + apply wf_on. eapply wf_send; [|done]. apply Hc.
    + etrans;
        [apply (on_events cl "message"
                  (Response (messageId st) (length (promises st))));
         eapply wf_send; [|done]; apply Hc|].
      by rewrite (send_events _ _ _ Hsend).
    + simpl. rewrite length_app; simpl. lia.
    + lia.
    + intros id p [= <- _]. lia.
  - apply consistent_settle_promise.
    apply (consistent_same_events st); simpl; try done; try lia.
    + apply Hc.
    + rewrite length_app; lia.
Qed.

Lemma consistent_waitForEvent st eventType matchParams :
  consistent st -> consistent (snd (waitForEvent eventType matchParams st)).
Proof.
  intros Hc. unfold waitForEvent. simpl.
  eapply (consistent_one_more st); simpl; try done.
  - apply wf_on, Hc.
  - apply (on_events (wsClient st) "message"). apply Hc.
  - simpl. rewrite length_app; simpl. lia.
  - intros id p [=].
Qed.

Lemma consistent_off st h :
  consistent st -> consistent (update (off "message" h) st).
Proof.
  intros Hc. apply consistent_update; [done|apply wf_off, Hc|].
  apply off_events, Hc.
Qed.

Lemma consistent_invoke st h e :
  consistent st -> consistent (invoke h e st).
Proof.
  intros Hc. destruct h as [id p|eventType matchParams p]; simpl.
  - unfold on_response. destruct (detail e) as [data|]; [|done].
    destruct (nonempty data); [|done].
    destruct (response_for id data) as [[v|]|err];
      auto using consistent_settle_promise.
  - unfold on_event. destruct (detail e) as [data|]; [|done].
    destruct (nonempty data); [|done].
    destruct (JSON_parse data) as [response|err];
      [|by apply consistent_off].
    destruct (accepts _ _ _) as [[]|];
      auto using consistent_settle_promise, consistent_off.
Qed.

Lemma consistent_foldl_invoke hs e st :
  consistent st -> consistent (foldl (fun w h => invoke h e w) st hs).
Proof.
  revert st. induction hs as [|h hs IH]; intros st Hc; simpl; [done|].
  by apply IH, consistent_invoke.
Qed.

Lemma consistent_dispatchEvent st e :
  consistent st -> consistent (dispatchEvent view invoke e st).
Proof. apply consistent_foldl_invoke. Qed.

Lemma consistent_call st e f :
  consistent st -> consistent (call view update invoke e st f).
Proof.
  intros Hc. destruct f as [c|c|c|c|n]; simpl; try done.
  - apply consistent_update.
    + apply consistent_dispatchEvent, consistent_update; [done|..].
      * apply (wf_enter _ (OnOpen c)), Hc.
      * apply (enter_events _ (OnOpen c)).
    + apply wf_with_connection; [|done..].
      apply consistent_dispatchEvent, consistent_update; [done|..].
      * apply (wf_enter _ (OnOpen c)), Hc.
      * apply (enter_events _ (OnOpen c)).
    + done.
  - apply consistent_dispatchEvent, consistent_update; [done|..].
    + apply (wf_enter _ (OnError c)), Hc.
    + apply (enter_events _ (OnError c)).
  - by apply consistent_dispatchEvent.
  - destruct e; try done. by apply consistent_dispatchEvent.
Qed.

Lemma consistent_foldl_call fs e st :
  consistent st -> consistent (foldl (call view update invoke e) st fs).
Proof.
  revert st. induction fs as [|f fs IH]; intros st Hc; simpl; [done|].
  by apply IH, consistent_call.
Qed.

Lemma consistent_fire st s e :
  consistent st -> consistent (fire view update invoke s e st).
Proof.
  intros Hc. unfold fire. destruct (possible _ _ _); [|done].
  apply consistent_foldl_call, consistent_update; [done| |done].
  apply wf_with_connection; [apply Hc|by destruct e|].
  intros k. destruct e; simpl; done.
Qed.

Lemma consistent_connect_rest st cq :
  consistent st -> consistent (connect_rest st cq).
Proof.
  intros Hc. unfold connect_rest.
  destruct (connection_promise _ _); auto using consistent_settle_operation.
  simpl. destruct (send _ _) as [cl|err] eqn:Hsend; simpl in *.
  - apply consistent_settle_operation.
    apply (consistent_same_events st); simpl; try done; try lia.
    + eapply wf_send; [|done]. apply Hc.
    + by apply send_events in Hsend.
  - apply consistent_settle_operation.
    apply (consistent_same_events st); simpl; try done; try lia. apply Hc.
Qed.

Lemma consistent_transition st q eventType matchParams method params :
  consistent st ->
  consistent
    (let (w, st) := waitForEvent eventType matchParams st in
     let st := await w (Forward q) st in
     snd (sendRpc method (params st) st)).
Proof.
  intros Hc.
  pose proof (consistent_waitForEvent st eventType matchParams Hc) as Hw.
  destruct (waitForEvent eventType matchParams st) as [w st1]; simpl in Hw.
  by apply consistent_sendRpc, consistent_await.
Qed.

Lemma consistent_rest_of st op q state :
  consistent st -> consistent (rest_of op q state st).
Proof.
  intros Hc. destruct op; simpl.
  - unfold stop_rest. destruct (equals _ _);
      [by apply consistent_settle_operation|].
    by apply (consistent_transition st q _ _ _ (fun st => Some (callsign_params st))).
  - unfold start_rest. destruct (_ || _);
      [by apply consistent_settle_operation|].
    by apply (consistent_transition st q _ _ _ (fun st => Some (callsign_params st))).
  - unfold resume_rest. destruct (_ || _);
      [by apply consistent_settle_operation|].
    by apply (consistent_transition st q _ _ _ (fun st => Some (callsign_params st))).
Qed.

Lemma consistent_run_job st job :
  consistent st -> consistent (run_job st job).
Proof.
  intros Hc. destruct job as [[op q|q] o]; simpl.
  - destruct o as [|result|err]; try done.
    destruct (state_of _ _); [|done]. by apply consistent_rest_of.
  - by apply consistent_settle_operation.
Qed.

Lemma consistent_checkpoint st :
  consistent st -> consistent (checkpoint st).
Proof.
  intros Hc. unfold checkpoint.
  set (st1 := set_connecting _ st).
  assert (Hc1 : consistent st1)
    by (apply (consistent_same_events st); simpl; try done; try lia; apply Hc).
  clearbody st1.
  assert (Hc2 : consistent (foldl connect_rest st1 (connecting st))).
  { clear Hc. revert st1 Hc1. induction (connecting st) as [|cq l IH];
      intros st1 Hc1; simpl; [done|]. by apply IH, consistent_connect_rest. }
  set (st2 := foldl connect_rest st1 (connecting st)) in *. clearbody st2.
  assert (Hc3 : consistent (set_jobs [] st2))
    by (apply (consistent_same_events st2); simpl; try done; try lia; apply Hc2).
  revert Hc3. generalize (set_jobs [] st2). induction (jobs st2) as [|j l IH];
    intros st3 Hc3; simpl; [done|]. by apply IH, consistent_run_job.
Qed.

Lemma consistent_deliver st s e :
  consistent st -> consistent (deliver s e st).
Proof. intros Hc. by apply consistent_checkpoint, consistent_fire. Qed.

Lemma consistent_getState st op q :
  consistent st -> consistent (getState op q st).
Proof.
  intros Hc. unfold getState, status.
  pose proof (consistent_sendRpc st "Controller.1.status" None Hc) as Hs.
  destruct (sendRpc _ _ st) as [p st1]. by apply consistent_await.
Qed.

Lemma consistent_new_operation st :
  consistent st -> consistent (snd (new_operation st)).
Proof.
  intros Hc. apply (consistent_same_events st); simpl; try done; try lia.
  apply Hc.
Qed.

Lemma consistent_connect st :
  consistent st -> consistent (snd (connect st)).
Proof.
  intros Hc. unfold connect, new_operation.
  match goal with
  | |- context [WebSocketClient.connect ?u ?t ?p ?c] =>
      pose proof (wf_connect c u t p) as Hwf;
      pose proof (connect_events c u t p) as Hev;
      destruct (WebSocketClient.connect u t p c) as [c' cl]
  end.
  simpl in *.
  apply (consistent_same_events st); simpl; try done; try lia.
  apply Hwf, Hc.
Qed.

Lemma reachable_consistent st : reachable st -> consistent st.
Proof.
  induction 1.
  - apply consistent_new.
  - by apply consistent_connect.
  - apply consistent_update; [done|apply wf_close, IHreachable|apply close_events].
  - by apply consistent_getState, consistent_new_operation.
  - by apply consistent_getState, consistent_new_operation.
  - by apply consistent_getState, consistent_new_operation.
  - by apply consistent_waitForEvent.
  - by apply consistent_fire.
  - apply consistent_update; [done|apply wf_expire, IHreachable|apply expire_events].
  - by apply consistent_checkpoint.
Qed.

(** *** What a message does to the promise of a call *)

Lemma outcome_settle_other st p p' o :
  p <> p' -> outcome p (settle_promise p' o st) = outcome p st.
Proof.
  intros Hne. unfold settle_promise, outcome.
  destruct (promises st !! p') as [[[] ks]|]; try done. simpl.
  by rewrite list_lookup_insert_ne.
Qed.

Lemma outcome_settle_pending st p o :
  outcome p st = Some Pending -> outcome p (settle_promise p o st) = Some o.
Proof.
  unfold settle_promise, outcome. intros Hp.
  destruct (promises st !! p) as [[[] ks]|] eqn:E; try done. simpl.
  rewrite list_lookup_insert_eq; [done|]. by eapply lookup_lt_Some.
Qed.

Lemma outcome_invoke_other st h e p :
  handler_promise h <> p -> outcome p (invoke h e st) = outcome p st.
Proof.
  intros Hne. destruct h as [id p'|eventType matchParams p']; simpl in *.
  - unfold on_response. destruct (detail e) as [data|]; [|done].
    destruct (nonempty data); [|done].
    destruct (response_for id data) as [[v|]|err];
      by rewrite ?outcome_settle_other.
  - unfold on_event. destruct (detail e) as [data|]; [|done].
    destruct (nonempty data); [|done].
    destruct (JSON_parse data) as [response|err]; [|done].
    destruct (accepts _ _ _) as [[]|]; by rewrite ?outcome_settle_other.
Qed.


Lemma outcome_foldl_other hs st e p :
  (forall h, In h hs -> handler_promise h <> p) ->
  outcome p (foldl (fun w h => invoke h e w) st hs) = outcome p st.
Proof.
  revert st. induction hs as [|h hs IH]; intros st Hall; simpl; [done|].
  rewrite IH by (intros h' Hh'; apply Hall; by right).
  apply outcome_invoke_other, Hall. by left.
Qed.


Lemma NoDup_handlers st type :
  consistent st -> NoDup (map handler_promise (handlers type (wsClient st))).
Proof.
  intros Hc. pose proof (consistent_promises _ Hc) as Hnd.
  unfold registered, handlers in *.
  induction (events (wsClient st)) as [|e l IH]; simpl in *; [done|].
  apply NoDup_cons in Hnd as [Hfresh Hnd].
  destruct (String.eqb (fst e) type); simpl; [|by apply IH].
  apply NoDup_cons. split; [|by apply IH].
  intros Hin%list_elem_of_In. apply Hfresh, list_elem_of_In.
  apply in_map_iff in Hin as (h & Heq & Hh). rewrite <- Heq.
  apply in_map. apply in_map_iff in Hh as (e' & <- & He'%filter_In).
  apply (in_map (fun e => snd (snd e))). tauto.
Qed.

Lemma keeps_refl st : keeps st st.
Proof. by split. Qed.

Lemma keeps_trans st1 st2 st3 : keeps st1 st2 -> keeps st2 st3 -> keeps st1 st3.
Proof.
  intros [Hl1 H1] [Hl2 H2]. split; [lia|].
  intros p Hp. rewrite H2 by lia. by apply H1.
Qed.

Lemma keeps_same_promises st st' : promises st' = promises st -> keeps st st'.
Proof. intros He. split; unfold outcome; by rewrite He. Qed.

Lemma keeps_new_promise st : keeps st (snd (new_promise st)).
Proof.
  split; simpl; [rewrite length_app; lia|].
  intros p Hp. unfold outcome; simpl. by rewrite lookup_app_l.
Qed.

Lemma keeps_settle_new st st' p o :
  keeps st st' -> (length (promises st) <= p)%nat ->
  keeps st (settle_promise p o st').
Proof.
  intros [Hl Hk] Hp. split.
  - unfold settle_promise. destruct (promises st' !! p) as [[[] ks]|]; try done.
    simpl. by rewrite length_insert.
  - intros p' Hp'. rewrite outcome_settle_other by lia. by apply Hk.
Qed.

Lemma keeps_await_new st st' p k :
  keeps st st' -> (length (promises st) <= p)%nat -> keeps st (await p k st').
Proof.
  intros [Hl Hk] Hp. unfold await.
  destruct (promises st' !! p) as [[[] ks]|]; try done; split; simpl; try done.
  - by rewrite length_insert.
  - intros p' Hp'. unfold outcome; simpl.
    rewrite list_lookup_insert_ne by lia. by apply Hk.
Qed.

Lemma keeps_sendRpc st method params :
  keeps st (snd (sendRpc method params st)) /\
  fst (sendRpc method params st) = length (promises st).
Proof.
  unfold sendRpc. simpl. destruct (send _ _) as [cl|err]; simpl.
  - split; [|done]. apply (keeps_trans _ _ _ (keeps_new_promise st)).
    by apply keeps_same_promises.
  - split; [|done]. apply keeps_settle_new; [|done].
    apply (keeps_trans _ _ _ (keeps_new_promise st)).
    by apply keeps_same_promises.
Qed.

Lemma keeps_waitForEvent st eventType matchParams :
  keeps st (snd (waitForEvent eventType matchParams st)) /\
  fst (waitForEvent eventType matchParams st) = length (promises st).
Proof.
  unfold waitForEvent. simpl. split; [|done].
  apply (keeps_trans _ _ _ (keeps_new_promise st)). by apply keeps_same_promises.
Qed.

Lemma keeps_transition st q eventType matchParams method params :
  keeps st
    (let (w, st) := waitForEvent eventType matchParams st in
     let st := await w (Forward q) st in
     snd (sendRpc method (params st) st)).
Proof.
  destruct (keeps_waitForEvent st eventType matchParams) as [Hk Hw].
  destruct (waitForEvent eventType matchParams st) as [w st1]; simpl in *.
  eapply keeps_trans; [|apply keeps_sendRpc].
  apply keeps_await_new; [done|lia].
Qed.

Lemma keeps_rest_of st op q state : keeps st (rest_of op q state st).
Proof.
  destruct op; simpl.
  - unfold stop_rest. destruct (equals _ _); [by apply keeps_same_promises|].
    apply (keeps_transition st q _ _ _ (fun st => Some (callsign_params st))).
  - unfold start_rest. destruct (_ || _); [by apply keeps_same_promises|].
    apply (keeps_transition st q _ _ _ (fun st => Some (callsign_params st))).
  - unfold resume_rest. destruct (_ || _); [by apply keeps_same_promises|].
    apply (keeps_transition st q _ _ _ (fun st => Some (callsign_params st))).
Qed.

Lemma keeps_run_job st job : keeps st (run_job st job).
Proof.
  destruct job as [[op q|q] o]; simpl.
  - destruct o as [|result|err]; try apply keeps_refl.
    destruct (state_of _ _); [apply keeps_rest_of|apply keeps_refl].
  - by apply keeps_same_promises.
Qed.

Lemma promises_connect_rest st cq : promises (connect_rest st cq) = promises st.
Proof.
  unfold connect_rest. destruct (connection_promise _ _); try done.
  simpl. by destruct (send _ _).
Qed.

(** The checkpoint settles no promise of [sendRpc] or [waitForEvent] that
    exists when it starts. *)
Lemma keeps_checkpoint st : keeps st (checkpoint st).
Proof.
  unfold checkpoint.
  set (st1 := set_connecting _ st).
  assert (H1 : keeps st st1) by (by apply keeps_same_promises).
  clearbody st1.
  assert (H2 : keeps st (foldl connect_rest st1 (connecting st))).
  { revert st1 H1. induction (connecting st) as [|cq l IH];
      intros st1 H1; simpl; [done|]. apply IH.
    eapply keeps_trans; [done|]. apply keeps_same_promises, promises_connect_rest. }
  set (st2 := foldl connect_rest st1 (connecting st)) in *. clearbody st2.
  assert (H3 : keeps st (set_jobs [] st2))
    by (eapply keeps_trans; [done|]; by apply keeps_same_promises).
  revert H3. generalize (set_jobs [] st2). induction (jobs st2) as [|j l IH];
    intros st3 H3; simpl; [done|]. apply IH.
  eapply keeps_trans; [done|apply keeps_run_job].
Qed.

Lemma update_same st : update (fun cl => cl) st = st.
Proof. by destruct st. Qed.

Lemma with_connection_same {D H} (cl : client D H) s :
  with_connection s (fun k => k) cl = cl.
Proof.
  destruct cl. unfold with_connection; simpl. f_equal. by apply list_alter_id.
Qed.

(** A message of a socket of the client is dispatched to the handlers
    registered for 'message', in the order of their registration. *)
Lemma fire_message st s data :
  consistent st -> (s < length (connections (wsClient st)))%nat ->
  fire view update invoke s (MessageEvent data) st
  = foldl (fun w h => invoke h (MessageEvent data) w) st
      (handlers "message" (wsClient st)).
Proof.
  intros Hc Hs. unfold fire. simpl possible. cbv iota.
  replace (update (with_connection s (arrive (MessageEvent data))) st) with st.
  2:{ unfold update, view. rewrite <- (update_same st) at 1. unfold update.
      f_equal. symmetry. apply with_connection_same. }
  apply lookup_lt_is_Some in Hs as [k Hk].
  unfold socket_listeners, view. rewrite Hk.
  rewrite (wf_listeners _ (consistent_client _ Hc) s k Hk). reflexivity.
Qed.

Lemma outcome_lt st p o : outcome p st = Some o -> (p < length (promises st))%nat.
Proof.
  unfold outcome. destruct (promises st !! p) eqn:E; [|done].
  intros _. by eapply lookup_lt_Some.
Qed.


(** A handler that is given nothing for its id leaves everything as it
    is. *)
Lemma invoke_unanswered st id p e :
  answer id e = Pending -> invoke (Response id p) e st = st.
Proof.
  simpl. unfold on_response, answer.
  destruct (detail e) as [data|]; [|done].
  destruct (nonempty data); [|done].
  by destruct (response_for id data) as [[v|]|err].
Qed.


Lemma answer_resolved id data v :
  answer id (MessageEvent data) = Resolved v <->
  exists response, data = Json response /\ carries id data /\
                   v = result_or_response response.
Proof.
  unfold answer, carries, result_or_response, response_for. simpl.
  destruct data as [| |response]; simpl.
  - split; [done|]. by intros (r & [=] & _).
  - split; [done|]. by intros (r & [=] & _).
  - unfold mbind, completion_bind; simpl.
    destruct (get (VJson response) "id") as [rid|err] eqn:Hid; simpl.
    2:{ split; [done|]. intros (r & [= <-] & (r' & rid & [= <-] & Hr & _) & _).
        congruence. }
    destruct (strict_equals rid (VJson (JNum id))) eqn:Heq; simpl.
    + assert (exists result, get (VJson response) "result" = Normal result)
        as [result Hres].
      { destruct response; simpl in *; try done; eauto. }
      rewrite Hres; simpl. split.
      * intros [= <-]. exists response. rewrite Hres. eauto 10.
      * intros (r & [= <-] & _ & ->). by rewrite Hres.
    + split; [done|].
      intros (r & [= <-] & (r' & rid' & [= <-] & Hr & Hs) & _). congruence.
Qed.

Lemma answer_other id id' data :
  carries id data -> id' <> id -> answer id' (MessageEvent data) = Pending.
Proof.
  intros (response & rid & -> & Hid & Heq) Hne.
  unfold answer, response_for; simpl. unfold mbind, completion_bind; simpl.
  rewrite Hid; simpl.
  destruct rid as [|[]]; simpl in *; try done.
  apply Z.eqb_eq in Heq as ->.
  by rewrite (proj2 (Z.eqb_neq _ _)) by done.
Qed.

Lemma handlers_on {D H} (cl : client D H) event handler type :
  wf cl ->
  handlers type (on event handler cl)
  = handlers type cl ++ (if String.eqb event type then [handler] else []).
Proof.
  intros Hwf. unfold handlers. rewrite on_events by done.
  rewrite List.filter_app, map_app. simpl. by destruct (String.eqb event type).
Qed.

(** A call of [sendRpc] on an open socket: the request carries the next
    id, the handler waiting for that id is registered, last, and the
    promise returned is pending. *)
Lemma sendRpc_registers st method params :
  consistent st -> isConnected st = true ->
  let id := messageId st in
  let p := fst (sendRpc method params st) in
  let st1 := snd (sendRpc method params st) in
  handlers "message" (wsClient st1)
  = handlers "message" (wsClient st) ++ [Response id p] /\
  outcome p st1 = Some Pending /\
  exists s, socket (wsClient st) = Some s /\
            sent_of s (wsClient st1)
            = sent_of s (wsClient st) ++ [request id method (default (JObj []) params)].
Proof.
  intros Hc Hopen. unfold sendRpc. simpl.
  destruct (send_when_connected
              (request (messageId st) method (default (JObj []) params))
              (wsClient st) Hopen) as (s & Hs & Hsend & Hsent).
  rewrite Hsend. simpl. repeat split.
  - etrans; [apply handlers_on; apply wf_with_connection; [apply Hc|done..]|done].
  - unfold outcome; simpl. by rewrite list_lookup_middle.
  - exists s. split; [done|]. by rewrite <- Hsent.
Qed.



(** *** A session on a device *)

Lemma opened_consistent : consistent opened.
Proof.
  apply consistent_deliver, consistent_connect, consistent_new.
Qed.

Lemma opened_frames :
  frames opened = [register_request 1] /\ messageId opened = 2 /\
  isConnected opened = true /\ operations opened = [Resolved VUndefined].
Proof. by vm_compute. Qed.



(** A call whose promise a frame that is not JSON has rejected stays
    rejected when its response arrives. *)
Lemma rejected_call_stays_rejected :
  let st := snd (sendRpc "Controller.1.status" None opened) in
  let st := deliver 0 (MessageEvent Malformed) st in
  outcome 0 st = Some (Rejected SyntaxError) /\
  outcome 0 (deliver 0 (MessageEvent (Json (listing 2 "Activated"))) st)
  = Some (Rejected SyntaxError).
Proof. by vm_compute. Qed.

(** *** C2 and C3: [waitForEvent] *)

Lemma every_true {A} (f : A -> completion bool) l x :
  every f l = Normal true -> In x l -> f x = Normal true.
Proof.
  induction l as [|y l IH]; [done|]. simpl.
  unfold mbind, completion_bind; simpl.
  destruct (f y) as [[]|] eqn:Hy; simpl; try done.
  intros Hl [<-|Hin]; [done|]. by apply IH.
Qed.

(** The part of C2 the code keeps: a notification that resolves the wait
    has every key of [matchParams], with a strictly equal value. *)
Lemma accepted_has_every_param eventType matchParams response key value :
  accepts eventType matchParams response = Normal true ->
  In (key, value) matchParams ->
  exists params inner found,
    get (VJson response) "params" = Normal params /\
    get params "params" = Normal inner /\
    get inner key = Normal found /\
    strict_equals found (VJson value) = true.
Proof.
  unfold accepts. unfold mbind at 1, completion_bind; simpl.
  destruct (selects eventType response) as [[]|]; simpl; try done.
  unfold matches. intros Hall Hin.
  pose proof (every_true _ _ _ Hall Hin) as Hone. simpl in Hone.
  unfold mbind, completion_bind in Hone; simpl in Hone.
  destruct (get (VJson response) "params") as [params|]; simpl in Hone; [|done].
  destruct (get params "params") as [inner|] eqn:Hi; simpl in Hone; [|done].
  destruct (get inner key) as [found|] eqn:Hf; simpl in Hone; [|done].
  injection Hone as Heq. by exists params, inner, found.
Qed.

(** A value strictly equal to a JSON value is not [undefined]: a key that
    the parameters of the notification lack does not match. *)
Lemma missing_param_does_not_match (value : json) :
  strict_equals VUndefined (VJson value) = false.
Proof. by destruct value. Qed.

(** C2, where the code departs from it.  A wait for 'statechange' with
    [{ state: 'activated' }] is resolved by a notification of the event
    'urlchange' that has that parameter: the test of the event type is
    joined to the test of the method by [||], and every notification of
    the controller passes the test of the method. *)
Theorem other_event_resolves_wait :
  let params := [("state", JStr "activated")] in
  let st := snd (waitForEvent "statechange" (Some params) opened) in
  let other := notification "urlchange" params in
  selects "statechange" other = Normal true /\
  outcome 0 st = Some Pending /\
  outcome 0 (deliver 0 (MessageEvent (Json other)) st)
  = Some (Resolved (VJson other)).
Proof. by vm_compute. Qed.

(** C3, where the code departs from it.  The wait is resolved by the
    first notification, and [handleEvent] calls [wsClient.off]; but it
    stays a listener and the next notification calls it again, as its
    second call of [off] shows: every call of [off] allocates one
    wrapper. *)
Theorem waiter_stays_registered :
  let params := [("state", JStr "activated")] in
  let waiter := handleEvent "statechange" params 0 in
  let st0 := snd (waitForEvent "statechange" (Some params) opened) in
  let st1 := deliver 0 (MessageEvent (Json (notification "statechange" params))) st0 in
  let st2 := deliver 0 (MessageEvent (Json (notification "statechange" params))) st1 in
  handlers "message" (wsClient st0) = [waiter] /\
  outcome 0 st1 = Some (Resolved (VJson (notification "statechange" params))) /\
  handlers "message" (wsClient st1) = [waiter] /\
  closures (wsClient st1) = S (closures (wsClient st0)) /\
  handlers "message" (wsClient st2) = [waiter] /\
  closures (wsClient st2) = S (closures (wsClient st1)).
Proof. by vm_compute. Qed.

(** *** The continuations of a session *)

Lemma tidy_new config : tidy (createThunderSession config).
Proof. split; simpl; try done. Qed.

Lemma tidy_extend st st' extra :
  tidy st ->
  promises st' = promises st ++ extra ->
  Forall (fun pr => reactions pr = []) extra ->
  jobs st' = jobs st ->
  (length (operations st) <= length (operations st'))%nat ->
  (forall eventType matchParams p,
     In (handleEvent eventType matchParams p) (registered st') ->
     In (handleEvent eventType matchParams p) (registered st) \/
     (length (promises st) <= p)%nat) ->
  tidy st'.
Proof.
  intros [Hr Hw Hj] Hp Hextra Hjobs Hlen Hreg.
  assert (Hnew : forall p pr k, promises st' !! p = Some pr -> In k (reactions pr) ->
                   promises st !! p = Some pr).
  { intros p pr k. rewrite Hp. intros [Hl|[_ Hl]]%lookup_app_Some Hk; [done|].
    apply list_elem_of_lookup_2 in Hl.
    rewrite Forall_forall in Hextra. rewrite (Hextra pr Hl) in Hk. done. }
  split.
  - intros p pr k Hl Hk. specialize (Hr p pr k (Hnew _ _ _ Hl Hk) Hk). lia.
  - intros et mp p pr k Hin Hl Hk. pose proof (Hnew _ _ _ Hl Hk) as Hl'.
    destruct (Hreg _ _ _ Hin) as [Hold|Hge]; [by eapply Hw|].
    apply lookup_lt_Some in Hl'. lia.
  - rewrite Hjobs. intros k o Hin. specialize (Hj k o Hin). lia.
Qed.

Lemma tidy_frame st st' :
  tidy st -> promises st' = promises st -> jobs st' = jobs st ->
  (length (operations st) <= length (operations st'))%nat ->
  events (wsClient st') = events (wsClient st) ->
  tidy st'.
Proof.
  intros Ht Hp Hj Hlen He. apply (tidy_extend st st' []); try done.
  - by rewrite app_nil_r.
  - intros et mp p. unfold registered. rewrite He. auto.
Qed.

Lemma tidy_settle_promise st p o : tidy st -> tidy (settle_promise p o st).
Proof.
  intros [Hr Hw Hj]. unfold settle_promise.
  destruct (promises st !! p) as [[[] ks]|] eqn:E; try done.
  split; simpl.
  - intros p' pr k. rewrite list_lookup_insert.
    case_decide as Hd; [by intros [= <-]|]. apply Hr.
  - intros et mp p' pr k Hin. rewrite list_lookup_insert.
    case_decide as Hd; [by intros [= <-]|]. by eapply Hw.
  - intros k o' [Hin|Hin]%in_app_iff; [by eapply Hj|].
    apply in_map_iff in Hin as (k' & [= -> _] & Hk). by eapply Hr.
Qed.

Lemma tidy_await st p k :
  tidy st -> (target k < length (operations st))%nat ->
  (forwards k \/
   forall eventType matchParams,
     ~ In (handleEvent eventType matchParams p) (registered st)) ->
  tidy (await p k st).
Proof.
  intros [Hr Hw Hj] Hk Hor. unfold await.
  destruct (promises st !! p) as [[o ks]|] eqn:E; [|done].
  assert (tidy (set_jobs (jobs st ++ [(k, o)]) st)) as Hjob.
  { split; simpl; try done.
    intros k' o' [Hin|[[= <- _]|[]]]%in_app_iff; [by eapply Hj|done]. }
  destruct o; try done. clear Hjob.
  split; simpl; try done.
  - intros p' pr k'. rewrite list_lookup_insert.
    case_decide as Hd; [|apply Hr]. destruct Hd as [-> _].
    intros [= <-]. simpl. intros [Hin|[<-|[]]]%in_app_iff; [|done].
    by eapply Hr.
  - intros et mp p' pr k' Hin. rewrite list_lookup_insert.
    case_decide as Hd; [|by eapply Hw]. destruct Hd as [-> _].
    intros [= <-]. simpl. intros [Hk'|[<-|[]]]%in_app_iff; [by eapply Hw|].
    destruct Hor as [|Hno]; [done|]. by destruct (Hno et mp).
Qed.

Lemma tidy_sendRpc st method params :
  consistent st -> tidy st -> tidy (snd (sendRpc method params st)).
Proof.
  intros Hc Ht. unfold sendRpc. simpl.
  destruct (send _ _) as [cl|err] eqn:Hsend; simpl.
  - simpl in Hsend.
    eapply (tidy_extend st _ [_]); simpl; try done.
    + by repeat constructor.
    + intros et mp p. unfold registered; simpl.
      change (addEventListener _ _ _ _) with
        (events (on "message" (Response (messageId st) (length (promises st))) cl)).
      rewrite on_events by (eapply wf_send; [|done]; apply Hc).
      rewrite (send_events _ _ _ Hsend), map_app.
      intros [Hin|[[=]|[]]]%in_app_iff. by left.
  - apply tidy_settle_promise.
    eapply (tidy_extend st _ [_]); simpl; try done.
    + by repeat constructor.
    + auto.
Qed.

Lemma tidy_waitForEvent st eventType matchParams :
  consistent st -> tidy st -> tidy (snd (waitForEvent eventType matchParams st)).
Proof.
  intros Hc Ht. unfold waitForEvent. simpl.
  eapply (tidy_extend st _ [_]); simpl; try done.
  - by repeat constructor.
  - intros et mp p. unfold registered; simpl.
    change (addEventListener _ _ _ _) with
      (events (on "message"
                 (handleEvent eventType (default [] matchParams) (length (promises st)))
                 (wsClient st))).
    rewrite on_events by apply Hc. rewrite map_app.
    intros [Hin|[[= _ _ <-]|[]]]%in_app_iff; auto.
Qed.

Lemma tidy_update st f :
  tidy st -> events (f (wsClient st)) = events (wsClient st) -> tidy (update f st).
Proof. intros Ht He. by apply (tidy_frame st). Qed.

Lemma tidy_settle_operation st q o : tidy st -> tidy (settle_operation q o st).
Proof.
  intros Ht. apply (tidy_frame st); simpl; try done. by rewrite length_alter.
Qed.

Lemma tidy_invoke st h e : consistent st -> tidy st -> tidy (invoke h e st).
Proof.
  intros Hc Ht.
  assert (forall h', tidy (update (off "message" h') st)) as Hoff
    by (intros h'; apply tidy_update; [done|apply off_events, Hc]).
  destruct h as [id p|eventType matchParams p]; simpl.
  - unfold on_response. destruct (detail e) as [data|]; [|done].
    destruct (nonempty data); [|done].
    destruct (response_for id data) as [[v|]|err];
      auto using tidy_settle_promise.
  - unfold on_event. destruct (detail e) as [data|]; [|done].
    destruct (nonempty data); [|done].
    destruct (JSON_parse data) as [response|err]; [|done].
    destruct (accepts _ _ _) as [[]|]; auto using tidy_settle_promise.
Qed.

Lemma tidy_foldl_invoke hs e st :
  consistent st -> tidy st ->
  tidy (foldl (fun w h => invoke h e w) st hs).
Proof.
  revert st. induction hs as [|h hs IH]; intros st Hc Ht; simpl; [done|].
  apply IH; [by apply consistent_invoke|by apply tidy_invoke].
Qed.

Lemma tidy_call st e f :
  consistent st -> tidy st -> tidy (call view update invoke e st f).
Proof.
  intros Hc Ht.
  assert (forall g, consistent (update (fun cl => enter cl g) st) /\
                    tidy (update (fun cl => enter cl g) st))
    as Henter.
  { intros g. split.
    - apply consistent_update; [done|apply wf_enter, Hc|apply enter_events].
    - apply tidy_update; [done|apply enter_events]. }
  destruct f as [c|c|c|c|n]; simpl; try done.
  - apply tidy_update; [|done].
    destruct (Henter (OnOpen c)). by apply tidy_foldl_invoke.
  - destruct (Henter (OnError c)). by apply tidy_foldl_invoke.
  - by apply tidy_foldl_invoke.
  - destruct e; try done. by apply tidy_foldl_invoke.
Qed.

Lemma tidy_foldl_call fs e st :
  consistent st -> tidy st -> tidy (foldl (call view update invoke e) st fs).
Proof.
  revert st. induction fs as [|f fs IH]; intros st Hc Ht; simpl; [done|].
  apply IH; [by apply consistent_call|by apply tidy_call].
Qed.

Lemma tidy_fire st s e :
  consistent st -> tidy st -> tidy (fire view update invoke s e st).
Proof.
  intros Hc Ht. unfold fire. destruct (possible _ _ _); [|done].
  apply tidy_foldl_call; [|by apply tidy_update].
  apply consistent_update; [done| |done].
  apply wf_with_connection; [apply Hc|by destruct e|].
  intros k. destruct e; simpl; done.
Qed.

Lemma tidy_connect_rest st cq : tidy st -> tidy (connect_rest st cq).
Proof.
  intros Ht. unfold connect_rest.
  destruct (connection_promise _ _); auto using tidy_settle_operation.
  simpl. destruct (send _ _) as [cl|err] eqn:Hsend; simpl in *.
  - apply tidy_settle_operation. apply (tidy_frame st); simpl; try done.
    by apply send_events in Hsend.
  - apply tidy_settle_operation. by apply (tidy_frame st).
Qed.

Lemma tidy_transition st q eventType matchParams method params :
  consistent st -> tidy st -> (q < length (operations st))%nat ->
  tidy
    (let (w, st) := waitForEvent eventType matchParams st in
     let st := await w (Forward q) st in
     snd (sendRpc method (params st) st)).
Proof.
  intros Hc Ht Hq.
  pose proof (consistent_waitForEvent st eventType matchParams Hc) as Hcw.
  pose proof (tidy_waitForEvent st eventType matchParams Hc Ht) as Htw.
  destruct (waitForEvent eventType matchParams st) as [w st1] eqn:Hw.
  simpl in Hcw, Htw.
  assert (operations st1 = operations st) as Hops
    by (unfold waitForEvent in Hw; simpl in Hw; by injection Hw as _ <-).
  apply tidy_sendRpc; [by apply consistent_await|].
  apply tidy_await; [done|rewrite Hops; done|by left].
Qed.

Lemma tidy_rest_of st op q state :
  consistent st -> tidy st -> (q < length (operations st))%nat ->
  tidy (rest_of op q state st).
Proof.
  intros Hc Ht Hq. destruct op; simpl.
  - unfold stop_rest. destruct (equals _ _); [by apply tidy_settle_operation|].
    by apply (tidy_transition st q _ _ _ (fun st => Some (callsign_params st))).
  - unfold start_rest. destruct (_ || _); [by apply tidy_settle_operation|].
    by apply (tidy_transition st q _ _ _ (fun st => Some (callsign_params st))).
  - unfold resume_rest. destruct (_ || _); [by apply tidy_settle_operation|].
    by apply (tidy_transition st q _ _ _ (fun st => Some (callsign_params st))).
Qed.

Lemma tidy_run_job st job :
  consistent st -> tidy st -> (target (fst job) < length (operations st))%nat ->
  tidy (run_job st job).
Proof.
  intros Hc Ht Hq. destruct job as [[op q|q] o]; simpl in *.
  - destruct o as [|result|err]; try done.
    destruct (state_of _ _); [|done]. by apply tidy_rest_of.
  - by apply tidy_settle_operation.
Qed.

(** No step of the session but a call of its interface makes a promise
    for the caller. *)
Lemma operations_sendRpc st method params :
  operations (snd (sendRpc method params st)) = operations st.
Proof.
  unfold sendRpc. simpl. destruct (send _ _); simpl; [done|].
  unfold settle_promise; simpl.
  by destruct (_ !! _) as [[[] ks]|].
Qed.

Lemma operations_await st p k : operations (await p k st) = operations st.
Proof. unfold await. by destruct (_ !! _) as [[[] ks]|]. Qed.

Lemma length_operations_rest_of st op q state :
  length (operations (rest_of op q state st)) = length (operations st).
Proof.
  assert (forall o, length (operations (settle_operation q o st))
                    = length (operations st)) as Hs
    by (intros o; simpl; by rewrite length_alter).
  destruct op; simpl.
  - unfold stop_rest. destruct (equals _ _); [done|]. simpl.
    by rewrite operations_sendRpc, operations_await.
  - unfold start_rest. destruct (_ || _); [done|]. simpl.
    by rewrite operations_sendRpc, operations_await.
  - unfold resume_rest. destruct (_ || _); [done|]. simpl.
    by rewrite operations_sendRpc, operations_await.
Qed.

Lemma length_operations_run_job st job :
  length (operations (run_job st job)) = length (operations st).
Proof.
  destruct job as [[op q|q] o]; simpl.
  - destruct o as [|result|err]; try done.
    destruct (state_of _ _); [|done]. apply length_operations_rest_of.
  - by rewrite length_alter.
Qed.

Lemma tidy_checkpoint st : consistent st -> tidy st -> tidy (checkpoint st).
Proof.
  intros Hc Ht. unfold checkpoint.
  set (st1 := set_connecting _ st).
  assert (Hc1 : consistent st1)
    by (apply (consistent_same_events st); simpl; try done; try lia; apply Hc).
  assert (Ht1 : tidy st1) by (by apply (tidy_frame st)).
  clearbody st1.
  assert (H2 : consistent (foldl connect_rest st1 (connecting st)) /\
               tidy (foldl connect_rest st1 (connecting st))).
  { clear Hc Ht. revert st1 Hc1 Ht1. induction (connecting st) as [|cq l IH];
      intros st1 Hc1 Ht1; simpl; [done|].
    apply IH; [by apply consistent_connect_rest|by apply tidy_connect_rest]. }
  set (st2 := foldl connect_rest st1 (connecting st)) in *. clearbody st2.
  destruct H2 as [Hc2 Ht2].
  assert (Hc3 : consistent (set_jobs [] st2))
    by (apply (consistent_same_events st2); simpl; try done; try lia; apply Hc2).
  assert (Ht3 : tidy (set_jobs [] st2)).
  { destruct Ht2 as [Hr Hw Hj]. split; simpl; try done. }
  assert (Hjobs : forall job, In job (jobs st2) ->
            (target (fst job) < length (operations (set_jobs [] st2)))%nat).
  { intros [k o] Hin. simpl. by eapply (tidy_jobs _ Ht2). }
  revert Hc3 Ht3 Hjobs. generalize (set_jobs [] st2).
  induction (jobs st2) as [|j l IH]; intros st3 Hc3 Ht3 Hjobs; simpl; [done|].
  apply IH.
  - by apply consistent_run_job.
  - apply tidy_run_job; [done..|]. apply Hjobs. by left.
  - intros job Hin. rewrite length_operations_run_job. apply Hjobs. by right.
Qed.

Lemma tidy_getState st op q :
  consistent st -> tidy st -> (q < length (operations st))%nat ->
  tidy (getState op q st).
Proof.
  intros Hc Ht Hq. unfold getState, status.
  pose proof (consistent_sendRpc st "Controller.1.status" None Hc) as Hcs.
  pose proof (tidy_sendRpc st "Controller.1.status" None Hc Ht) as Hts.
  pose proof (operations_sendRpc st "Controller.1.status" None) as Hops.
  pose proof (keeps_sendRpc st "Controller.1.status" None) as [_ Hp].
  assert (forall et mp,
            In (handleEvent et mp (length (promises st)))
               (registered (snd (sendRpc "Controller.1.status" None st))) -> False)
    as Hfresh.
  { intros et mp. unfold sendRpc. simpl.
    destruct (send _ _) as [cl|err] eqn:Hsend; simpl.
    - unfold registered; simpl. simpl in Hsend.
      change (addEventListener _ _ _ _) with
        (events (on "message" (Response (messageId st) (length (promises st))) cl)).
      rewrite on_events by (eapply wf_send; [|done]; apply Hc).
      rewrite (send_events _ _ _ Hsend), map_app.
      intros [Hin|[[=]|[]]]%in_app_iff.
      apply (consistent_bound _ Hc) in Hin. simpl in Hin. lia.
    - intros Hin.
      assert (In (handleEvent et mp (length (promises st))) (registered st)) as Hin'.
      { revert Hin. unfold registered, settle_promise; simpl.
        by destruct (_ !! _) as [[[] ks]|]. }
      apply (consistent_bound _ Hc) in Hin'. simpl in Hin'. lia. }
  destruct (sendRpc _ _ st) as [p st1]. simpl in *. subst p.
  apply tidy_await; [done|by rewrite Hops|].
  right. intros et mp Hin. by eapply Hfresh.
Qed.

Lemma tidy_operation st op :
  consistent st -> tidy st ->
  tidy (getState op (length (operations st)) (snd (new_operation st))).
Proof.
  intros Hc Ht. apply tidy_getState.
  - by apply consistent_new_operation.
  - apply (tidy_frame st); simpl; try done. rewrite length_app. lia.
  - simpl. rewrite length_app. simpl. lia.
Qed.

Lemma reachable_tidy st : reachable st -> tidy st.
Proof.
  induction 1 as [config|st H IH|st H IH|st H IH|st H IH|st H IH
                  |st et mp H IH|st s e H IH|st t H IH|st H IH];
    pose proof (fun st => reachable_consistent st) as Hc.
  - apply tidy_new.
  - unfold connect, new_operation.
    match goal with
    | |- context [WebSocketClient.connect ?u ?t ?p ?c] =>
        pose proof (connect_events c u t p) as Hev;
        destruct (WebSocketClient.connect u t p c) as [c' cl]
    end.
    simpl in *. apply (tidy_frame st); simpl; try done.
    rewrite length_app. lia.
  - apply tidy_update; [done|apply close_events].
  - by apply tidy_operation; [apply Hc|].
  - by apply tidy_operation; [apply Hc|].
  - by apply tidy_operation; [apply Hc|].
  - by apply tidy_waitForEvent; [apply Hc|].
  - by apply tidy_fire; [apply Hc|].
  - apply tidy_update; [done|apply expire_events].
  - by apply tidy_checkpoint; [apply Hc|].
Qed.

(** *** C7, C9, C10: [getState] and the operations that start with it *)

(** Every turn of the event loop leaves the session idle. *)
Lemma quiet_sendRpc st method params :
  jobs (snd (sendRpc method params st)) = jobs st /\
  connecting (snd (sendRpc method params st)) = connecting st /\
  forall c, connection_promise c (snd (sendRpc method params st))
            = connection_promise c st.
Proof.
  unfold sendRpc. simpl. destruct (send _ _) as [cl|err] eqn:Hsend; simpl.
  - repeat split. intros c.
    apply send_returns in Hsend as (s & _ & ->). unfold connection_promise; simpl.
    rewrite list_lookup_alter. case_decide as Hd; [|done]. subst s.
    by destruct (connections (wsClient st) !! c).
  - unfold settle_promise; simpl. rewrite list_lookup_middle by done. simpl.
    by rewrite app_nil_r.
Qed.

Lemma quiet_rest_of st op q state :
  jobs (rest_of op q state st) = jobs st /\
  connecting (rest_of op q state st) = connecting st /\
  forall c, connection_promise c (rest_of op q state st) = connection_promise c st.
Proof.
  assert (forall eventType matchParams method,
            let st' :=
              (let (w, st) := waitForEvent eventType matchParams st in
               let st := await w (Forward q) st in
               snd (sendRpc method (Some (callsign_params st)) st)) in
            jobs st' = jobs st /\ connecting st' = connecting st /\
            forall c, connection_promise c st' = connection_promise c st) as Hgo.
  { intros eventType matchParams method. unfold waitForEvent. simpl.
    unfold await; simpl. rewrite list_lookup_middle by done. simpl.
    match goal with
    | |- context [sendRpc ?m ?ps ?s] =>
        destruct (quiet_sendRpc s m ps) as (-> & -> & Hp)
    end.
    repeat split. intros c. by rewrite Hp. }
  destruct op; simpl.
  - unfold stop_rest. destruct (equals _ _); [done|]. apply Hgo.
  - unfold start_rest. destruct (_ || _); [done|]. apply Hgo.
  - unfold resume_rest. destruct (_ || _); [done|]. apply Hgo.
Qed.

Lemma quiet_run_job st job :
  jobs (run_job st job) = jobs st /\
  connecting (run_job st job) = connecting st /\
  forall c, connection_promise c (run_job st job) = connection_promise c st.
Proof.
  destruct job as [[op q|q] o]; simpl; [|done].
  destruct o as [|result|err]; try done.
  destruct (state_of _ _); [apply quiet_rest_of|done].
Qed.

Lemma quiet_connect_rest st cq :
  jobs (connect_rest st cq) = jobs st /\
  connecting (connect_rest st cq) = connecting st /\
  forall c, connection_promise c (connect_rest st cq) = connection_promise c st.
Proof.
  unfold connect_rest. destruct (connection_promise _ _); try done.
  simpl. destruct (send _ _) as [cl|err] eqn:Hsend; simpl; [|done].
  repeat split. intros c.
  apply send_returns in Hsend as (s & _ & ->). unfold connection_promise; simpl.
  rewrite list_lookup_alter. case_decide as Hd; [|done]. subst s.
  by destruct (connections (wsClient st) !! c).
Qed.

Lemma idle_checkpoint st : idle (checkpoint st).
Proof.
  unfold checkpoint.
  set (st1 := set_connecting _ st).
  assert (H1 : forall cq, In cq (connecting st1) ->
                 connection_promise (fst cq) st1 = Pending).
  { intros cq [_ Hcq]%filter_In. unfold still_connecting in Hcq.
    change (connection_promise cq.1 st1) with (connection_promise cq.1 st).
    by destruct (connection_promise cq.1 st). }
  clearbody st1.
  assert (H2 : forall cq, In cq (connecting (foldl connect_rest st1 (connecting st))) ->
                 connection_promise (fst cq) (foldl connect_rest st1 (connecting st))
                 = Pending).
  { revert st1 H1. induction (connecting st) as [|x l IH]; intros st1 H1; [done|].
    simpl. apply IH. destruct (quiet_connect_rest st1 x) as (_ & -> & Hp).
    intros cq Hin. rewrite Hp. by apply H1. }
  set (st2 := foldl connect_rest st1 (connecting st)) in *. clearbody st2.
  assert (H3 : jobs (set_jobs [] st2) = [] /\
               forall cq, In cq (connecting (set_jobs [] st2)) ->
                 connection_promise (fst cq) (set_jobs [] st2) = Pending) by done.
  revert H3. generalize (set_jobs [] st2).
  induction (jobs st2) as [|j l IH]; intros st3 H3; [done|].
  simpl. apply IH. destruct (quiet_run_job st3 j) as (-> & -> & Hp).
  destruct H3 as [H3 H4]. split; [done|]. intros cq Hin. rewrite Hp. by apply H4.
Qed.

Lemma idle_deliver st s e : idle (deliver s e st).
Proof. apply idle_checkpoint. Qed.

(** The session after [stop()], [start()] or [resume()] has returned,
    when the socket is open: the status request is sent, its handler
    registered, and the rest of the operation awaits its promise. *)
Lemma operation_begins st op :
  consistent st -> isConnected st = true ->
  exists s,
    socket (wsClient st) = Some s /\
    getState op (length (operations st)) (snd (new_operation st))
    = {| cfg := cfg st;
         wsClient :=
           on "message" (Response (messageId st) (length (promises st)))
             (with_connection s (push_sent (status_request (messageId st)))
                (wsClient st));
         messageId := messageId st + 1;
         promises :=
           promises st ++
           [{| state := Pending;
               reactions := [GetState op (length (operations st))] |}];
         operations := operations st ++ [Pending];
         connecting := connecting st;
         jobs := jobs st |}.
Proof.
  intros Hc Hopen. unfold getState, status, sendRpc. simpl.
  destruct (send_when_connected (status_request (messageId st)) (wsClient st) Hopen)
    as (s & Hs & Hsend & _).
  change (request (messageId st) "Controller.1.status" (JObj []))
    with (status_request (messageId st)).
  rewrite Hsend. exists s. split; [done|].
  unfold await; simpl. rewrite list_lookup_middle by done. unfold set_promises; simpl.
  f_equal.
  replace (length (promises st)) with (length (promises st) + 0)%nat at 1 by lia.
  by rewrite insert_app_r.
Qed.

Lemma calm_off st1 q p st h :
  calm st1 q p st -> calm st1 q p (update (off "message" h) st).
Proof.
  intros [H1 H2 H3 H4 H5 H6 H7 H8 H9 H10 H11]. split; simpl; try done.
  - rewrite <- H3. apply (off_events (wsClient st) "message" h H4).
  - by apply wf_off.
Qed.

Lemma calm_settle_waiter st1 q p st eventType matchParams p' o :
  calm st1 q p st -> p' <> p ->
  In (handleEvent eventType matchParams p') (registered st1) ->
  calm st1 q p (settle_promise p' o st).
Proof.
  intros [H1 H2 H3 H4 H5 H6 H7 H8 H9 H10 H11] Hne Hin. unfold settle_promise.
  destruct (promises st !! p') as [[[] ks]|] eqn:E; try done.
  split; simpl; try done.
  - by rewrite length_insert.
  - by rewrite list_lookup_insert_ne.
  - apply Forall_app. split; [done|]. apply Forall_forall.
    intros [k o'] Hk%list_elem_of_In. apply in_map_iff in Hk as (k' & [= -> _] & Hk).
    simpl. by eapply H11.
  - intros et mp p'' pr k Hin'. rewrite list_lookup_insert.
    case_decide as Hd; [by intros [= <-]|]. by eapply H11.
Qed.

Lemma calm_invoke st1 q p st h e :
  calm st1 q p st -> In h (registered st1) -> handler_promise h <> p ->
  (forall id' p', h = Response id' p' -> answer id' e = Pending) ->
  calm st1 q p (invoke h e st).
Proof.
  intros Hcalm Hin Hne Hunanswered.
  destruct h as [id' p'|eventType matchParams p'].
  - by rewrite invoke_unanswered by (by eapply Hunanswered).
  - simpl in *. unfold on_event. destruct (detail e) as [data|]; [|done].
    destruct (nonempty data); [|done].
    destruct (JSON_parse data) as [response|err]; [|by apply calm_off].
    destruct (accepts _ _ _) as [[]|]; try done; [|by apply calm_off].
    eapply calm_settle_waiter; [by apply calm_off|done..].
Qed.

Lemma calm_foldl st1 q p hs e st :
  calm st1 q p st ->
  (forall h, In h hs ->
     In h (registered st1) /\ handler_promise h <> p /\
     forall id' p', h = Response id' p' -> answer id' e = Pending) ->
  calm st1 q p (foldl (fun w h => invoke h e w) st hs).
Proof.
  revert st. induction hs as [|h hs IH]; intros st Hcalm Hall; simpl; [done|].
  apply IH; [|intros h' Hh'; apply Hall; by right].
  destruct (Hall h) as (Hin & Hne & Hun); [by left|]. by apply calm_invoke.
Qed.

(** Jobs that forward outcomes to older promises change nothing but
    those promises. *)
Lemma forwarding_jobs q js st :
  Forall (fun job => forwards (fst job) /\ (target (fst job) < q)%nat) js ->
  wsClient (foldl run_job st js) = wsClient st /\
  cfg (foldl run_job st js) = cfg st /\
  promises (foldl run_job st js) = promises st /\
  jobs (foldl run_job st js) = jobs st /\
  operations (foldl run_job st js) !! q = operations st !! q.
Proof.
  revert st. induction js as [|[k o] js IH]; intros st Hall; simpl; [done|].
  apply Forall_cons in Hall as [[Hf Ht] Hall]. simpl in Hf, Ht.
  destruct k as [op q'|q']; [done|]. simpl in Ht.
  destruct (IH (settle_operation q' o st) Hall) as (H1 & H2 & H3 & H4 & H5).
  simpl. rewrite H1, H2, H3, H4, H5. simpl.
  repeat split; try done. apply list_lookup_alter_ne. lia.
Qed.

(** With no [connect] to go on from, the checkpoint runs the jobs. *)
Lemma checkpoint_jobs st :
  (forall cq, In cq (connecting st) -> connection_promise (fst cq) st = Pending) ->
  checkpoint st = foldl run_job (set_jobs [] st) (jobs st).
Proof.
  intros Hpending. unfold checkpoint.
  assert (List.filter (still_connecting st) (connecting st) = connecting st) as ->.
  { apply forallb_filter_id, forallb_forall. intros cq Hin.
    unfold still_connecting. by rewrite (Hpending cq Hin). }
  assert (set_connecting (connecting st) st = st) as -> by (by destruct st).
  assert (foldl connect_rest st (connecting st) = st) as ->; [|done].
  revert Hpending. generalize (connecting st). intros l Hl.
  induction l as [|cq l IH]; simpl; [done|].
  assert (connect_rest st cq = st) as ->.
  { unfold connect_rest. rewrite (Hl cq); [done|by left]. }
  apply IH. intros cq' Hin. apply Hl. by right.
Qed.

Lemma on_response_answer st id p e :
  on_response id p e st
  = match answer id e with
    | Pending => st
    | o => settle_promise p o st
    end.
Proof.
  unfold on_response, answer. destruct (detail e) as [data|]; [|done].
  destruct (nonempty data); [|done].
  by destruct (response_for id data) as [[v|]|err].
Qed.



Lemma opened_reachable : reachable opened.
Proof. apply reach_checkpoint, reach_fire, reach_connect, reach_new. Qed.

Lemma opened_idle : idle opened.
Proof. apply idle_deliver. Qed.







(** The whole of such a [resume()] on the device: the frames are the
    registration and the status request. *)
Lemma resume_of_activated_sends_no_resume :
  frames (deliver 0 (MessageEvent (Json (listing 2 "Activated")))
            (snd (resume opened)))
  = [register_request 1; status_request 2].
Proof. by vm_compute. Qed.






End ThunderSessionFacts.

(** * Properties of the debug feed client *)

Module WebInspectorFacts.

Import JS WebSocketClient WebSocketClientSpec WebSocketClientFacts.
Import WebInspector WebInspectorSpec.

Lemma view_last config older cl forwarded :
  view (length older) (with_last config older cl forwarded) = cl.
Proof. unfold view, with_last; simpl. by rewrite list_lookup_middle. Qed.

Lemma update_last config older cl forwarded f :
  update (length older) f (with_last config older cl forwarded)
  = with_last config older (f cl) forwarded.
Proof.
  unfold update, with_last; simpl. f_equal.
  replace (length older) with (length older + 0)%nat at 1 by lia.
  by rewrite alter_app_r.
Qed.

Lemma ws_send_last config older cl forwarded data :
  ws_send data (with_last config older cl forwarded)
  = cl' ← send data cl; Normal (with_last config older cl' forwarded).
Proof.
  unfold ws_send. simpl ws. cbv iota beta. rewrite view_last.
  destruct (send data cl) as [cl'|err]; simpl; [|done].
  unfold mbind, completion_bind; simpl. f_equal. apply update_last.
Qed.

Lemma connect_makes_last st :
  exists older,
    length older = length (clients st) /\
    connect st
    = with_last (config st) older (new_client (endpoint (config st))) (forwarded st).
Proof.
  unfold connect. destruct (ws st) as [i|] eqn:Hws.
  - exists (alter close i (clients st)). split; [by rewrite length_alter|].
    unfold disconnect. rewrite Hws. reflexivity.
  - by exists (clients st).
Qed.

Ltac evaluate_send data :=
  match goal with
  | |- context [send data ?c] =>
      let r := eval vm_compute in (send data c) in
      replace (send data c) with r by (vm_compute; reflexivity)
  end;
  unfold mbind, completion_bind; cbn [bind]; cbn [ws with_last].

(** The socket of the new client opens: the handler of 'open' passes the
    three requests to the socket, in this order. *)
Lemma open_sends_three config older forwarded url :
  sent_on (length older) 0
    (deliver (length older) 0 OpenEvent
       (with_last config older (new_client url) forwarded))
  = [enable_inspector; enable_console; initialized].
Proof.
  unfold deliver, fire. rewrite view_last.
  assert (possible 0 (@OpenEvent text) (new_client url) = true) as ->
    by reflexivity.
  rewrite update_last, view_last.
  assert (socket_listeners 0 (type_of (@OpenEvent text))
            (with_connection 0 (arrive (M := text) OpenEvent) (new_client url))
          = [OnOpen 0]) as -> by reflexivity.
  cbn [foldl call]. rewrite update_last.
  unfold dispatchEvent. rewrite view_last.
  match goal with
  | |- context [handlers ?t ?c] =>
      assert (handlers t c = [whenOpen]) as -> by reflexivity
  end.
  cbn [foldl invoke]. unfold on_open. cbn [ws with_last].
  rewrite ws_send_last. evaluate_send enable_inspector.
  rewrite ws_send_last. evaluate_send enable_console.
  rewrite ws_send_last. evaluate_send initialized.
  rewrite update_last. unfold sent_on. rewrite view_last. reflexivity.
Qed.

(** C8.  After [connect()], when the socket of the new client opens,
    what has been passed to the socket's [send] is the three requests
    [Inspector.enable] (id 1), [Console.enable] (id 22) and
    [Inspector.initialized] (id 23), in this order, and nothing else;
    nothing is sent before the socket opens. *)
Theorem open_enables_in_order (st : inspector) :
  let client := length (clients st) in
  ws (connect st) = Some client /\
  sent_on client 0 (connect st) = [] /\
  sent_on client 0 (deliver client 0 OpenEvent (connect st))
  = [JObj [("id", JNum 1); ("method", JStr "Inspector.enable")];
     JObj [("id", JNum 22); ("method", JStr "Console.enable")];
     JObj [("id", JNum 23); ("method", JStr "Inspector.initialized")]].
Proof.
  destruct (connect_makes_last st) as (older & <- & ->). repeat split.
  - unfold sent_on. by rewrite view_last.
  - apply open_sends_three.
Qed.

End WebInspectorFacts.

(** * More properties of the transport *)

Module WebSocketClientMore.

Import JS WebSocketClient WebSocketClientSpec WebSocketClientTerms.
Import WebSocketClientFacts.

Section Proofs.

Context {D H : Type}.
Implicit Types (cl : client D H) (k : connection D).

(** *** At most one live socket *)

Lemma tight_with_connection cl s f :
  tight cl ->
  (forall k, readyState (f k) = OPEN -> readyState k = OPEN) ->
  tight (with_connection s f cl).
Proof.
  intros Ht Hf c k. rewrite lookup_with_connection. simpl.
  destruct (decide (s = c)) as [->|]; [|by apply Ht].
  destruct (connections cl !! c) as [k0|] eqn:E; simpl; [|done].
  intros [= <-] Hopen. apply (Ht c k0 E). by apply Hf.
Qed.

Lemma close_shuts cl c k :
  wf cl -> tight cl ->
  connections (close cl) !! c = Some k -> readyState k <> OPEN.
Proof.
  intros Hwf Ht Hk Hopen.
  assert (is_Some (connections cl !! c)) as [k0 Hk0].
  { apply lookup_lt_is_Some. apply lookup_lt_Some in Hk.
    unfold close in Hk. destruct (socket cl); [|done].
    unfold with_connection in Hk; simpl in Hk. by rewrite !length_alter in Hk. }
  rewrite (close_lookup cl c k0 Hwf Hk0) in Hk. injection Hk as <-.
  destruct (decide (socket cl = Some c)) as [Hs|Hs].
  - unfold socket_close in Hopen.
    destruct (readyState k0) eqn:E; simpl in Hopen; congruence.
  - apply Hs. by apply (Ht c k0).
Qed.

Lemma tight_close cl : wf cl -> tight cl -> tight (close cl).
Proof.
  intros Hwf Ht c k Hk Hopen. by destruct (close_shuts cl c k Hwf Ht Hk).
Qed.

Lemma tight_enter cl f : tight cl -> tight (enter cl f).
Proof.
  intros Ht. destruct f as [c|c|c|c|n]; simpl; try done.
  - unfold onOpen_enter. apply tight_with_connection; [|done].
    unfold clearTimeout. destruct (timeoutId cl); [|done].
    apply tight_with_connection; [done|]. intros k. by destruct (timer k).
  - unfold onError_enter. destruct (is_connected c cl); [done|].
    by apply tight_with_connection.
Qed.

Lemma tight_foldl_enter fs cl : tight cl -> tight (foldl enter cl fs).
Proof.
  revert cl. induction fs as [|f fs IH]; intros cl Ht; simpl; [done|].
  by apply IH, tight_enter.
Qed.

Lemma tight_step cl a : wf cl -> tight cl -> tight (step cl a).
Proof.
  intros Hwf Ht. destruct a; simpl.
  - unfold connect.
    set (cl' := match socket cl with Some _ => close cl | None => cl end).
    assert (Hshut : forall c k, connections cl' !! c = Some k -> readyState k <> OPEN).
    { subst cl'. destruct (socket cl) eqn:Hs;
        [intros c k Hk; by apply (close_shuts cl c k)|].
      intros c k Hk Hopen. specialize (Ht c k Hk Hopen). congruence. }
    clearbody cl'. intros c k; simpl.
    intros [Hc|[Hlen Hc]]%lookup_app_Some Hopen; [by destruct (Hshut c k Hc)|].
    destruct (c - length (connections cl'))%nat eqn:E; simpl in Hc; [|done].
    f_equal. lia.
  - destruct (send data cl) as [cl'|] eqn:Hsend; [|done].
    apply send_returns in Hsend as (s & _ & ->).
    by apply tight_with_connection.
  - by apply tight_close.
  - done.
  - done.
  - destruct (is_connecting s cl) eqn:Hcon; [|done].
    apply tight_foldl_enter. unfold is_connecting in Hcon.
    destruct (connections cl !! s) as [k0|] eqn:Hk0; [|done].
    apply bool_decide_eq_true in Hcon.
    pose proof (wf_connecting _ Hwf s k0 Hk0 Hcon) as Hs.
    intros c k. rewrite lookup_with_connection. simpl.
    destruct (decide (s = c)) as [->|]; [done|]. by apply Ht.
  - destruct (is_connected c cl); [|done]. by apply tight_with_connection.
  - apply tight_foldl_enter. by apply tight_with_connection.
  - by apply tight_with_connection.
  - done.
  - unfold expire. destruct (is_armed t cl); [|done].
    unfold onTimeout. destruct (is_connected _ _).
    + by apply tight_with_connection.
    + apply tight_with_connection; [|done]. apply tight_close.
      * by apply wf_with_connection.
      * by apply tight_with_connection.
Qed.

Lemma reachable_tight cl : reachable cl -> tight cl.
Proof.
  intros [trace ->].
  assert (wf (@createWebSocketClient D H) /\ tight (@createWebSocketClient D H))
    as Hinit by (split; [apply wf_new|done]).
  revert Hinit. generalize (@createWebSocketClient D H).
  induction trace as [|a trace IH]; intros cl [Hwf Ht]; simpl; [done|].
  apply IH. split; [by apply wf_step|by apply tight_step].
Qed.

(** X1.  On a reachable client a socket that is connecting or open is the
    socket [socket] refers to; so no two sockets of the client are live
    at once, whatever the order of [connect], [close] and the events. *)
Theorem one_live_socket cl c1 c2 k1 k2 :
  reachable cl ->
  connections cl !! c1 = Some k1 -> live (readyState k1) = true ->
  connections cl !! c2 = Some k2 -> live (readyState k2) = true ->
  socket cl = Some c1 /\ c1 = c2.
Proof.
  intros Hreach Hk1 Hl1 Hk2 Hl2.
  pose proof (reachable_wf _ Hreach) as Hwf.
  pose proof (reachable_tight _ Hreach) as Ht.
  assert (forall c k, connections cl !! c = Some k -> live (readyState k) = true ->
                      socket cl = Some c) as Hcur.
  { intros c k Hk Hl. destruct (readyState k) eqn:E; try done.
    - by apply (wf_connecting _ Hwf c k).
    - by apply (Ht c k). }
  pose proof (Hcur _ _ Hk1 Hl1). pose proof (Hcur _ _ Hk2 Hl2).
  split; [done|congruence].
Qed.

(** *** A connection that has opened *)

Lemma has_opened_ext cl cl' c :
  connections cl' = connections cl -> has_opened c cl -> has_opened c cl'.
Proof. intros E (k & Hk & Hrest). exists k. by rewrite E. Qed.

Lemma has_opened_with_connection cl c s f :
  has_opened c cl ->
  (forall k, connected k = true -> timer k <> Armed ->
             promise k = Pending \/ promise k = Resolved tt ->
             connected (f k) = true /\ timer (f k) <> Armed /\
             (promise (f k) = Pending \/ promise (f k) = Resolved tt)) ->
  has_opened c (with_connection s f cl).
Proof.
  intros (k & Hk & Hc & Ht & Hp) Hf. unfold has_opened.
  rewrite lookup_with_connection.
  destruct (decide (s = c)) as [->|]; [|by exists k].
  rewrite Hk; simpl. exists (f k). split; [done|]. by apply Hf.
Qed.

Lemma has_opened_ne cl c s f :
  s <> c -> has_opened c cl -> has_opened c (with_connection s f cl).
Proof.
  intros Hne (k & Hk & Hrest). exists k.
  by rewrite lookup_with_connection, decide_False.
Qed.

Lemma has_opened_connected cl c : has_opened c cl -> is_connected c cl = true.
Proof. intros (k & Hk & Hc & _). unfold is_connected. by rewrite Hk. Qed.

Lemma has_opened_not_armed cl c : has_opened c cl -> is_armed c cl = false.
Proof.
  intros (k & Hk & _ & Ht & _). unfold is_armed. rewrite Hk.
  by destruct (timer k).
Qed.

Lemma has_opened_close cl c : has_opened c cl -> has_opened c (close cl).
Proof.
  intros Ho. unfold close. destruct (socket cl) as [s|]; [|done].
  eapply has_opened_ext; [reflexivity|].
  apply has_opened_with_connection.
  2:{ intros k ? ? ?. unfold socket_close. by destruct (readyState k). }
  by do 4 (apply has_opened_with_connection; [|by intros k ? ? ?]).
Qed.

Lemma has_opened_enter cl c f : has_opened c cl -> has_opened c (enter cl f).
Proof.
  intros Ho. destruct f as [c'|c'|c'|c'|n]; simpl; try done.
  - unfold onOpen_enter. apply has_opened_with_connection; [|by intros k ? ? ?].
    unfold clearTimeout. destruct (timeoutId cl); [|done].
    apply has_opened_with_connection; [done|].
    intros k ? Ht ?. destruct (timer k) eqn:E; [done|simpl; rewrite E; auto..].
  - unfold onError_enter. destruct (is_connected c' cl) eqn:E; [done|].
    apply has_opened_ne; [|done]. intros ->.
    by rewrite (has_opened_connected _ _ Ho) in E.
Qed.

Lemma has_opened_foldl_enter fs cl c :
  has_opened c cl -> has_opened c (foldl enter cl fs).
Proof.
  revert cl. induction fs as [|f fs IH]; intros cl Ho; simpl; [done|].
  by apply IH, has_opened_enter.
Qed.

Lemma has_opened_step cl a c : has_opened c cl -> has_opened c (step cl a).
Proof.
  intros Ho. destruct a; simpl.
  - unfold connect.
    set (cl' := match socket cl with Some _ => close cl | None => cl end).
    assert (has_opened c cl') as (k & Hk & Hrest).
    { subst cl'. destruct (socket cl); [by apply has_opened_close|done]. }
    exists k. split; [|done]. simpl. by apply lookup_app_l_Some.
  - destruct (send data cl) as [cl'|] eqn:Hsend; [|done].
    apply send_returns in Hsend as (s & _ & ->).
    by apply has_opened_with_connection.
  - by apply has_opened_close.
  - by eapply has_opened_ext.
  - by eapply has_opened_ext.
  - destruct (is_connecting s cl); [|done].
    apply has_opened_foldl_enter. by apply has_opened_with_connection.
  - destruct (is_connected c0 cl); [|done].
    apply has_opened_with_connection; [done|].
    intros k ? ? [Hp|Hp]; simpl; rewrite Hp; auto.
  - apply has_opened_foldl_enter. by apply has_opened_with_connection.
  - by apply has_opened_with_connection.
  - done.
  - unfold expire. destruct (is_armed t cl) eqn:Harmed; [|done].
    assert (t <> c) as Hne.
    { intros ->. by rewrite (has_opened_not_armed _ _ Ho) in Harmed. }
    unfold onTimeout. destruct (is_connected _ _).
    + by apply has_opened_ne.
    + apply has_opened_ne; [done|]. apply has_opened_close.
      by apply has_opened_ne.
Qed.

Lemma has_opened_run trace cl c :
  has_opened c cl -> has_opened c (run cl trace).
Proof.
  revert cl. induction trace as [|a trace IH]; intros cl Ho; simpl; [done|].
  by apply IH, has_opened_step.
Qed.

(** The socket of connection [c] opens while [c] is connecting and its
    timer is armed. *)
Lemma opens_lookup cl c k :
  wf cl -> connections cl !! c = Some k ->
  readyState k = CONNECTING -> timer k = Armed ->
  socket (step cl (Opens c)) = Some c /\
  connections (step cl (Opens c)) !! c
  = Some (set_connected true (set_timer Cleared (set_readyState OPEN k))).
Proof.
  intros Hwf Hk Hr Ht.
  pose proof (wf_connecting _ Hwf c k Hk Hr) as Hs.
  pose proof (wf_socket _ Hwf c Hs) as Hlen.
  pose proof (wf_timeoutId _ Hwf) as Hid. rewrite <- Hlen in Hid.
  simpl. unfold is_connecting. rewrite Hk, bool_decide_eq_true_2 by done.
  rewrite (socket_listeners_open _ c (set_readyState OPEN k)).
  2:{ by rewrite lookup_with_connection, decide_True, Hk. }
  2:{ simpl. by apply (wf_listeners _ Hwf c). }
  simpl. unfold onOpen_enter. simpl. rewrite Hid. unfold clearTimeout.
  split; [done|].
  rewrite list_lookup_alter, decide_True by done.
  rewrite !lookup_with_connection, !decide_True, Hk by done. simpl.
  by rewrite Ht.
Qed.






(** The socket of a connection that has not opened reports an error. *)
Lemma errors_lookup cl c k :
  wf cl -> connections cl !! c = Some k -> connected k = false ->
  socket (step cl (Errors c)) = socket cl /\
  closures (step cl (Errors c)) = closures cl /\
  connections (step cl (Errors c)) !! c
  = Some (settle_promise failed (set_readyState CLOSED k)).
Proof.
  intros Hwf Hk Hc. simpl.
  rewrite (socket_listeners_error _ c (set_readyState CLOSED k)).
  2:{ by rewrite lookup_with_connection, decide_True, Hk. }
  2:{ simpl. by apply (wf_listeners _ Hwf c). }
  simpl. unfold onError_enter, is_connected.
  rewrite lookup_with_connection, decide_True, Hk by done. simpl. rewrite Hc.
  repeat split.
  by rewrite !lookup_with_connection, !decide_True, Hk.
Qed.

(** X2.  When the socket of a connection opens before its timer runs
    out, [isConnected] becomes true and the timer is cleared; whatever the
    handlers of the open event and later steps do, [onOpen] resolves the
    promise when it resumes, and the timer running out changes nothing. *)
Theorem connect_resolves_on_open cl url timeout protocols trace later :
  reachable cl ->
  Forall (leaves_alone (fst (connect url timeout protocols cl))) trace ->
  let c := fst (connect url timeout protocols cl) in
  let before := run (snd (connect url timeout protocols cl)) trace in
  let now := step before (Opens c) in
  let after := run now later in
  is_connecting c before = true ->
  promise_of c before = Some Pending /\
  isConnected now = true /\ timer_of c now = Some Cleared /\
  promise_of c now = Some Pending /\
  promise_of c (step after (Opened c)) = Some (Resolved tt) /\
  step after (Expires c) = after.
Proof.
  intros Hreach Hall c before now after Hcon.
  pose proof (wf_connect cl url timeout protocols (reachable_wf _ Hreach)) as Hwf1.
  pose proof (waiting_connect cl url timeout protocols) as Hw1.
  destruct (waiting_run trace _ _ Hwf1 Hw1 Hall) as [Hwf Hw].
  fold c in Hw. fold before in Hwf, Hw.
  destruct Hw as (k & Hk & Hp & Hc & Ht & Hr).
  assert (readyState k = CONNECTING) as Hing.
  { unfold is_connecting in Hcon. rewrite Hk in Hcon.
    by apply bool_decide_eq_true in Hcon. }
  destruct (opens_lookup before c k Hwf Hk Hing Ht) as [Hs Hnow].
  fold now in Hs, Hnow.
  assert (has_opened c now) as Ho.
  { eexists. split; [exact Hnow|]. simpl. rewrite Hp. auto. }
  pose proof (has_opened_run later _ _ Ho) as Ho'. fold after in Ho'.
  repeat split.
  - unfold promise_of. by rewrite Hk; simpl; rewrite Hp.
  - unfold isConnected. by rewrite Hs, Hnow.
  - unfold timer_of. by rewrite Hnow.
  - unfold promise_of. by rewrite Hnow; simpl; rewrite Hp.
  - simpl. rewrite (has_opened_connected _ _ Ho').
    destruct Ho' as (k' & Hk' & _ & _ & Hp').
    unfold onOpen_leave, promise_of.
    rewrite lookup_with_connection, decide_True, Hk' by done. simpl.
    by destruct Hp' as [-> | ->].
  - simpl. unfold expire. by rewrite (has_opened_not_armed _ _ Ho').
Qed.

(** X3.  The socket of a connection that has not opened reports an
    error: the promise is rejected with 'WebSocket connection failed' and
    the socket is closed, but [close()] is not called and the timer stays
    armed; when the timer runs out later it calls [close()] and leaves
    the promise as it is. *)
Theorem connect_fails_on_error cl url timeout protocols trace :
  reachable cl ->
  Forall (leaves_alone (fst (connect url timeout protocols cl))) trace ->
  let c := fst (connect url timeout protocols cl) in
  let before := run (snd (connect url timeout protocols cl)) trace in
  let after := step before (Errors c) in
  let late := step after (Expires c) in
  promise_of c after = Some failed /\
  readyState_of c after = Some CLOSED /\
  socket after = socket before /\ closures after = closures before /\
  timer_of c after = Some Armed /\
  promise_of c late = Some failed /\ socket late = None /\
  closures late = (closures before + match socket before with Some _ => 4 | None => 0 end)%nat.
Proof.
  intros Hreach Hall c before after late.
  pose proof (wf_connect cl url timeout protocols (reachable_wf _ Hreach)) as Hwf1.
  pose proof (waiting_connect cl url timeout protocols) as Hw1.
  destruct (waiting_run trace _ _ Hwf1 Hw1 Hall) as [Hwf Hw].
  fold c in Hw. fold before in Hwf, Hw.
  destruct Hw as (k & Hk & Hp & Hc & Ht & Hr).
  destruct (errors_lookup before c k Hwf Hk Hc) as (Hs & Hcl & Hafter).
  fold after in Hs, Hcl, Hafter.
  assert (wf after) as Hwfa by apply wf_step, Hwf.
  set (fired := with_connection c (set_timer Fired) after).
  assert (Hwff : wf fired) by (by apply wf_with_connection).
  assert (Hkf : connections fired !! c
                = Some (set_timer Fired (settle_promise failed (set_readyState CLOSED k)))).
  { subst fired. by rewrite lookup_with_connection, decide_True, Hafter. }
  assert (late = with_connection c (settle_promise timed_out) (close fired)) as Hlate.
  { subst late. simpl. unfold expire, is_armed. rewrite Hafter; simpl. rewrite Ht.
    unfold onTimeout, is_connected. fold fired. by rewrite Hkf; simpl; rewrite Hc. }
  repeat split; try done.
  - unfold promise_of. by rewrite Hafter; simpl; rewrite Hp.
  - unfold readyState_of. by rewrite Hafter.
  - unfold timer_of. by rewrite Hafter; simpl; rewrite Ht.
  - rewrite Hlate. unfold promise_of.
    rewrite lookup_with_connection, decide_True by done.
    rewrite (close_lookup fired c _ Hwff Hkf).
    destruct (decide _); simpl; by rewrite Hp.
  - rewrite Hlate. apply close_socket.
  - rewrite Hlate. simpl. unfold close.
    change (socket fired) with (socket after). rewrite Hs.
    destruct (socket before); simpl; [by rewrite Hcl|]. rewrite Hcl. lia.
Qed.


(** *** The listeners of [events] *)

Lemma handlers_app cl cl' type hs :
  events cl' = events cl ++ hs ->
  handlers type cl'
  = handlers type cl
    ++ map (fun e => snd (snd e))
         (List.filter (fun e => String.eqb (fst e) type) hs).
Proof.
  intros E. unfold handlers. by rewrite E, List.filter_app, map_app.
Qed.

Lemma handlers_same cl cl' type :
  events cl' = events cl -> handlers type cl' = handlers type cl.
Proof. intros E. unfold handlers. by rewrite E. Qed.

Lemma foldl_enter_events fs cl : events (foldl enter cl fs) = events cl.
Proof.
  revert cl. induction fs as [|f fs IH]; intros cl; simpl; [done|].
  by rewrite IH, enter_events.
Qed.

Lemma step_handlers cl a type :
  wf cl ->
  handlers type (step cl a) = handlers type cl ++ subscribed type [a].
Proof.
  intros Hwf.
  destruct a as [u t p|data| |event handler|event handler|s|c|s|s|s|t];
    cbn [step subscribed]; rewrite ?app_nil_r;
    try apply handlers_same; try done.
  - apply connect_events.
  - destruct (send data cl) eqn:E; [|done]. by apply send_events in E.
  - apply close_events.
  - rewrite (handlers_app cl _ type [(event, (closures cl, handler))]).
    2:{ by apply on_events. }
    simpl. by destruct (String.eqb event type).
  - by apply off_events.
  - destruct (is_connecting s cl); [|done]. by rewrite foldl_enter_events.
  - by destruct (is_connected c cl).
  - by rewrite foldl_enter_events.
  - apply expire_events.
Qed.

Lemma subscribed_app type (t1 t2 : list (action D H)) :
  subscribed type (t1 ++ t2) = subscribed type t1 ++ subscribed type t2.
Proof.
  induction t1 as [|a t1 IH]; simpl; [done|].
  destruct a as [| | |event handler| | | | | | |]; try done.
  destruct (String.eqb event type); [|done].
  simpl. by rewrite IH.
Qed.

Lemma run_handlers trace cl type :
  wf cl ->
  handlers type (run cl trace) = handlers type cl ++ subscribed type trace.
Proof.
  revert cl. induction trace as [|a trace IH]; intros cl Hwf.
  { simpl. by rewrite app_nil_r. }
  change (run cl (a :: trace)) with (run (step cl a) trace).
  rewrite IH by (by apply wf_step). rewrite step_handlers by done.
  rewrite <- app_assoc. f_equal.
  change (a :: trace) with ([a] ++ trace). by rewrite subscribed_app.
Qed.

(** X5.  The handlers [events.dispatchEvent] calls for a type of event
    are, in order, the handlers the owner has ever given to [on] for that
    type: [on] adds a handler also when it is there already, and neither
    [off] nor [close] nor [connect] takes one away. *)
Theorem handlers_are_all_subscriptions (trace : list (action D H)) type :
  handlers type (run createWebSocketClient trace) = subscribed type trace.
Proof.
  rewrite run_handlers by apply wf_new. done.
Qed.

(** *** What the sockets were given to send *)

Lemma sent_alter (l : list (connection D)) s f :
  (forall k, sent (f k) = sent k) -> map sent (alter f s l) = map sent l.
Proof.
  intros Hf. apply list_eq. intros i.
  rewrite !list_lookup_fmap, list_lookup_alter.
  case_decide as E; [|done]. subst i.
  destruct (l !! s); simpl; [|done]. by rewrite Hf.
Qed.

Lemma wire_with_connection cl s f :
  (forall k, sent (f k) = sent k) -> wire (with_connection s f cl) = wire cl.
Proof.
  intros Hf. unfold wire, with_connection; simpl. by rewrite sent_alter.
Qed.

Lemma wire_close cl : wire (close cl) = wire cl.
Proof.
  unfold close, wire. destruct (socket cl) as [s|]; [|done]. simpl.
  rewrite sent_alter.
  2:{ intros k. unfold socket_close. by destruct (readyState k). }
  by rewrite !sent_alter.
Qed.

Lemma wire_connect cl url timeout protocols :
  wire (snd (connect url timeout protocols cl)) = wire cl.
Proof.
  unfold connect, wire; simpl. rewrite map_app, concat_app; simpl.
  rewrite app_nil_r. destruct (socket cl); [apply wire_close|done].
Qed.

Lemma wire_clearTimeout cl id : wire (clearTimeout id cl) = wire cl.
Proof.
  unfold clearTimeout. destruct id; [|done].
  apply wire_with_connection. intros k. by destruct (timer k).
Qed.

Lemma wire_enter cl f : wire (enter cl f) = wire cl.
Proof.
  destruct f; simpl; try done.
  - unfold onOpen_enter. rewrite wire_with_connection by done.
    apply wire_clearTimeout.
  - unfold onError_enter. destruct (is_connected _ _); [done|].
    by apply wire_with_connection.
Qed.

Lemma wire_expire cl t : wire (expire t cl) = wire cl.
Proof.
  unfold expire. destruct (is_armed _ _); [|done].
  unfold onTimeout. destruct (is_connected _ _).
  - by apply wire_with_connection.
  - rewrite wire_with_connection by done. rewrite wire_close.
    by apply wire_with_connection.
Qed.

(** [send] hands the data to the socket made last. *)
Lemma wire_send cl (data : D) cl' :
  wf cl -> send data cl = Normal cl' -> wire cl' = wire cl ++ [data].
Proof.
  intros Hwf Hsend. apply send_returns in Hsend as (s & Hs & ->).
  pose proof (wf_socket _ Hwf s Hs) as Hlen.
  unfold wire, with_connection; simpl.
  destruct (connections cl) as [|k0 l0] eqn:E using rev_ind; [done|].
  clear IHl0. rewrite length_app in Hlen; simpl in Hlen.
  replace s with (length l0 + 0)%nat by lia.
  rewrite alter_app_r. simpl.
  rewrite !map_app, !concat_app. simpl. by rewrite !app_nil_r, app_assoc.
Qed.


Lemma addEventListener_In {F} (same : F -> F -> bool) type f ls e :
  In e (addEventListener same type f ls) -> In e ls \/ e = (type, f).
Proof.
  unfold addEventListener. destruct (existsb _ _); [by left|].
  intros [He|[<-|[]]]%in_app_iff; auto.
Qed.






End Proofs.

Lemma one_live_socket_witness :
  socket (run (@createWebSocketClient string unit)
            [Connect device None None; Close; Connect device None None; Opens 1])
  = Some 1%nat /\ 1%nat = 1%nat.
Proof.
  eapply one_live_socket.
  - by eexists.
  - reflexivity.
  - reflexivity.
  - reflexivity.
  - reflexivity.
Defined.

Lemma connect_resolves_on_open_witness :
  promise_of 0
    (run (@createWebSocketClient string unit)
       [Connect device None None; On "open" tt; Opens 0; Send "x"; Opened 0])
  = Some (Resolved tt).
Proof.
  assert (W := connect_resolves_on_open createWebSocketClient device None None
                 [On "open" tt] [Send "x"] (ex_intro _ [] eq_refl)).
  cbv zeta in W.
  specialize (W ltac:(repeat constructor; discriminate)
                ltac:(vm_compute; reflexivity)).
  vm_compute in W. vm_compute. exact (proj1 (proj2 (proj2 (proj2 (proj2 W))))).
Defined.

Lemma connect_fails_on_error_witness :
  promise_of 0
    (run (@createWebSocketClient string unit)
       [Connect device None None; On "error" tt; Errors 0])
  = Some failed.
Proof.
  refine (proj1 (connect_fails_on_error createWebSocketClient device None None
                   [On "error" tt] _ _)).
  - by exists [].
  - repeat constructor; discriminate.
Defined.


End WebSocketClientMore.

(** * More properties of the session *)

Module ThunderSessionMore.

Import JS WebSocketClient WebSocketClientSpec WebSocketClientTerms.
Import WebSocketClientFacts WebSocketClientMore.
Import ThunderSession ThunderSessionSpec ThunderSessionTerms ThunderSessionFacts.

#[local] Arguments on : simpl never.
#[local] Arguments off : simpl never.
#[local] Arguments close : simpl never.
#[local] Arguments send : simpl never.
#[local] Arguments WebSocketClient.connect : simpl never.
#[local] Arguments expire : simpl never.
#[local] Arguments get : simpl never.

(** *** Steps of the session and what they send *)

Lemma advances_refl st : advances st st.
Proof.
  split; [done|lia| | |lia|by auto].
  - exists [], []. rewrite app_nil_r. repeat split; constructor.
  - exists []. by rewrite app_nil_r.
Qed.

Lemma advances_trans st1 st2 st3 :
  advances st1 st2 -> advances st2 st3 -> advances st1 st3.
Proof.
  intros [C1 I1 (ids1 & n1 & F1 & R1 & S1 & B1) (m1 & E1 & M1) O1 K1]
         [C2 I2 (ids2 & n2 & F2 & R2 & S2 & B2) (m2 & E2 & M2) O2 K2].
  split.
  - congruence.
  - lia.
  - exists (ids1 ++ ids2), (n1 ++ n2). repeat split.
    + by rewrite F2, F1, app_assoc.
    + by apply Forall2_app.
    + apply StronglySorted_app_2; [|done..].
      intros x1 x2 H1 H2.
      rewrite Forall_forall in B1. rewrite Forall_forall in B2.
      specialize (B1 _ H1). specialize (B2 _ H2). lia.
    + apply Forall_app. split; eapply Forall_impl; try eassumption;
        simpl; intros; lia.
  - exists (m1 ++ m2). split; [by rewrite E2, E1, app_assoc|].
    intros e [He|He]%in_app_iff; auto.
  - lia.
  - intros cq Hin. destruct (K2 cq Hin) as [Hin'|]; [|right; lia].
    destruct (K1 cq Hin') as [|]; [by left|right; lia].
Qed.


(** A step that sends nothing and may add listeners for messages. *)
Lemma advances_listen st st' more :
  cfg st' = cfg st -> messageId st <= messageId st' ->
  frames st' = frames st ->
  events (wsClient st') = events (wsClient st) ++ more ->
  (forall e, In e more -> fst e = "message") ->
  (length (operations st) <= length (operations st'))%nat ->
  (forall cq, In cq (connecting st') -> In cq (connecting st)) ->
  advances st st'.
Proof.
  intros C I F E M O K. split; [done..| |by exists more|done|by auto].
  exists [], []. rewrite app_nil_r. repeat split; try done; constructor.
Qed.

(** A step that sends nothing. *)
Lemma advances_quiet st st' :
  cfg st' = cfg st -> messageId st <= messageId st' ->
  frames st' = frames st ->
  events (wsClient st') = events (wsClient st) ->
  (length (operations st) <= length (operations st'))%nat ->
  (forall cq, In cq (connecting st') -> In cq (connecting st)) ->
  advances st st'.
Proof.
  intros C I F E O K. apply (advances_listen st st' []); try done.
  by rewrite app_nil_r.
Qed.

(** A step that sends one request. *)
Lemma advances_request st st' id method params more :
  cfg st' = cfg st -> messageId st <= id < messageId st' ->
  frames st' = frames st ++ [request id method params] ->
  events (wsClient st') = events (wsClient st) ++ more ->
  (forall e, In e more -> fst e = "message") ->
  (length (operations st) <= length (operations st'))%nat ->
  (forall cq, In cq (connecting st') -> In cq (connecting st)) ->
  advances st st'.
Proof.
  intros C I F E M O K. split; [done|lia| |by exists more|done|by auto].
  exists [id], [request id method params].
  split; [done|]. split; [|split].
  - constructor; [by eexists _, _|constructor].
  - constructor; constructor.
  - constructor; [done|constructor].
Qed.

Ltac quiet :=
  apply advances_quiet; simpl;
  first [done | lia | by auto
        | rewrite ?length_alter, ?length_app; simpl; lia].

Lemma advances_settle_promise st p o : advances st (settle_promise p o st).
Proof.
  unfold settle_promise. destruct (promises st !! p) as [[[] ks]|];
    try apply advances_refl.
  quiet.
Qed.

Lemma advances_settle_operation st q o : advances st (settle_operation q o st).
Proof. quiet. Qed.

Lemma advances_await st p k : advances st (await p k st).
Proof.
  unfold await. destruct (promises st !! p) as [[[] ks]|];
    try apply advances_refl; quiet.
Qed.

(** A step of the client that sends nothing and leaves the listeners. *)
Lemma advances_update st f :
  wire (f (wsClient st)) = wire (wsClient st) ->
  events (f (wsClient st)) = events (wsClient st) ->
  advances st (update f st).
Proof.
  intros Hw He. quiet.
Qed.

Lemma advances_sendRpc st method params :
  consistent st -> advances st (snd (sendRpc method params st)).
Proof.
  intros Hc. unfold sendRpc. simpl.
  destruct (send _ _) as [cl|err] eqn:Hsend; simpl in *.
  - pose proof (wf_send _ _ _ (consistent_client _ Hc) Hsend) as Hwf.
    apply (advances_request st _ (messageId st) method (default (JObj []) params)
             [("message", (closures cl,
                           Response (messageId st) (length (promises st))))]);
      cbn [cfg messageId update wsClient operations connecting]; try done;
      [lia| | |by intros e [<-|[]]].
    + unfold frames; cbn [wsClient update].
      change (concat (map sent (connections (on "message" _ cl)))) with (wire cl).
      apply (wire_send _ _ _ (consistent_client _ Hc) Hsend).
    + rewrite on_events by done. by rewrite (send_events _ _ _ Hsend).
  - eapply advances_trans; [|apply advances_settle_promise].
    quiet.
Qed.

Lemma advances_waitForEvent st eventType matchParams :
  consistent st -> advances st (snd (waitForEvent eventType matchParams st)).
Proof.
  intros Hc. unfold waitForEvent. cbn [new_promise fst snd].
  eapply advances_listen;
    cbn [cfg messageId update wsClient operations connecting set_promises];
    try done.
  - apply on_events, Hc.
  - by intros e [<-|[]].
Qed.

Lemma advances_off st h :
  consistent st -> advances st (update (off "message" h) st).
Proof.
  intros Hc. apply advances_update; [done|]. apply off_events, Hc.
Qed.

Lemma advances_invoke st h e : consistent st -> advances st (invoke h e st).
Proof.
  intros Hc. destruct h as [id p|eventType matchParams p]; simpl.
  - rewrite on_response_answer.
    destruct (answer id e); [apply advances_refl|apply advances_settle_promise..].
  - unfold on_event. destruct (detail e) as [data|]; [|apply advances_refl].
    destruct (nonempty data); [|apply advances_refl].
    destruct (JSON_parse data) as [response|err]; [|by apply advances_off].
    destruct (accepts _ _ _) as [[]|];
      [|apply advances_refl|by apply advances_off].
    eapply advances_trans; [by apply advances_off|apply advances_settle_promise].
Qed.

Lemma advances_dispatchEvent st e :
  consistent st -> advances st (dispatchEvent view invoke e st).
Proof.
  unfold dispatchEvent. generalize (handlers (type_of e) (view st)).
  intros hs. revert st. induction hs as [|h hs IH]; intros st Hc; simpl.
  - apply advances_refl.
  - eapply advances_trans; [by apply advances_invoke|].
    by apply IH, consistent_invoke.
Qed.

Lemma advances_call st e f :
  consistent st -> advances st (call view update invoke e st f).
Proof.
  intros Hc. destruct f as [c|c|c|c|n]; simpl.
  - assert (consistent (update (onOpen_enter c) st)) as Hc1.
    { apply consistent_update; [done| |].
      - apply (wf_enter _ (OnOpen c)), Hc.
      - apply (enter_events _ (OnOpen c)). }
    eapply advances_trans; [|eapply advances_trans].
    + apply (advances_update st (onOpen_enter c)).
      * apply (wire_enter _ (OnOpen c)).
      * apply (enter_events _ (OnOpen c)).
    + by apply advances_dispatchEvent.
    + apply advances_update; [by apply wire_with_connection|done].
  - eapply advances_trans; [|apply advances_dispatchEvent].
    + apply (advances_update st (onError_enter c)).
      * apply (wire_enter _ (OnError c)).
      * apply (enter_events _ (OnError c)).
    + apply consistent_update; [done| |].
      * apply (wf_enter _ (OnError c)), Hc.
      * apply (enter_events _ (OnError c)).
  - by apply advances_dispatchEvent.
  - destruct e; try apply advances_refl. by apply advances_dispatchEvent.
  - apply advances_refl.
Qed.

Lemma advances_fire st s e :
  consistent st -> advances st (fire view update invoke s e st).
Proof.
  intros Hc. unfold fire. destruct (possible _ _ _); [|apply advances_refl].
  assert (consistent (update (with_connection s (arrive e)) st)) as Hc1.
  { apply consistent_update; [done| |done].
    apply wf_with_connection; [apply Hc|by destruct e|].
    intros k. destruct e; simpl; done. }
  eapply advances_trans.
  - apply (advances_update st (with_connection s (arrive e))); [|done].
    apply wire_with_connection. intros k. by destruct e.
  - revert Hc1.
    generalize (socket_listeners s (type_of e)
                  (view (update (with_connection s (arrive e)) st))).
    intros fs. generalize (update (with_connection s (arrive e)) st).
    induction fs as [|f fs IH]; intros st' Hc'; simpl; [apply advances_refl|].
    eapply advances_trans; [by apply advances_call|].
    by apply IH, consistent_call.
Qed.

Lemma advances_connect_rest st cq :
  consistent st -> advances st (connect_rest st cq).
Proof.
  intros Hc. unfold connect_rest.
  destruct (connection_promise _ _);
    [apply advances_refl| |apply advances_settle_operation].
  simpl. destruct (send _ _) as [cl|err] eqn:Hsend; simpl in *.
  - eapply advances_trans; [|apply advances_settle_operation].
    apply (advances_request st _ (messageId st) "Controller.1.register"
             (JObj [("event", JStr "all"); ("id", JStr "client.Controller.events")])
             []);
      simpl; try done; [lia| |].
    + apply (wire_send _ _ _ (consistent_client _ Hc) Hsend).
    + by rewrite app_nil_r, (send_events _ _ _ Hsend).
  - eapply advances_trans; [|apply advances_settle_operation]. quiet.
Qed.

Lemma advances_transition st q eventType matchParams method params :
  consistent st ->
  advances st
    (let (w, st) := waitForEvent eventType matchParams st in
     let st := await w (Forward q) st in
     snd (sendRpc method (params st) st)).
Proof.
  intros Hc.
  pose proof (advances_waitForEvent st eventType matchParams Hc) as H1.
  pose proof (consistent_waitForEvent st eventType matchParams Hc) as Hc1.
  destruct (waitForEvent eventType matchParams st) as [w st1]. simpl in *.
  eapply advances_trans; [exact H1|].
  eapply advances_trans; [apply advances_await|].
  apply advances_sendRpc. by apply consistent_await.
Qed.

Lemma advances_rest_of st op q state :
  consistent st -> advances st (rest_of op q state st).
Proof.
  intros Hc. destruct op; simpl.
  - unfold stop_rest. destruct (equals _ _); [apply advances_settle_operation|].
    by apply (advances_transition st q "statechange"
                (Some [("state", JStr "deactivated")]) "Controller.1.deactivate"
                (fun st => Some (callsign_params st))).
  - unfold start_rest. destruct (_ || _); [apply advances_settle_operation|].
    by apply (advances_transition st q "statechange"
                (Some [("state", JStr "activated")]) "Controller.1.activate"
                (fun st => Some (callsign_params st))).
  - unfold resume_rest. destruct (_ || _); [apply advances_settle_operation|].
    by apply (advances_transition st q "statechange"
                (Some [("suspended", JBool false)]) "Controller.1.resume"
                (fun st => Some (callsign_params st))).
Qed.

Lemma advances_run_job st job : consistent st -> advances st (run_job st job).
Proof.
  intros Hc. destruct job as [[op q|q] o]; simpl.
  - destruct o as [|result|err]; try apply advances_refl.
    destruct (state_of _ _); [by apply advances_rest_of|apply advances_refl].
  - apply advances_settle_operation.
Qed.

Lemma advances_checkpoint st : consistent st -> advances st (checkpoint st).
Proof.
  intros Hc. unfold checkpoint.
  set (st1 := set_connecting _ st).
  assert (Hc1 : consistent st1)
    by (apply (consistent_same_events st); simpl; try done; try lia; apply Hc).
  assert (H1 : advances st st1).
  { apply advances_quiet; simpl; try done.
    by intros cq [Hin _]%filter_In. }
  clearbody st1.
  assert (consistent (foldl connect_rest st1 (connecting st)) /\
          advances st (foldl connect_rest st1 (connecting st))) as [Hc2 H2].
  { clear Hc. revert st1 Hc1 H1. induction (connecting st) as [|cq l IH];
      intros st1 Hc1 H1; simpl; [done|].
    apply IH; [by apply consistent_connect_rest|].
    eapply advances_trans; [exact H1|by apply advances_connect_rest]. }
  set (st2 := foldl connect_rest st1 (connecting st)) in *. clearbody st2.
  assert (Hc3 : consistent (set_jobs [] st2))
    by (apply (consistent_same_events st2); simpl; try done; try lia; apply Hc2).
  assert (H3 : advances st (set_jobs [] st2)).
  { eapply advances_trans; [exact H2|]. quiet. }
  revert Hc3 H3. generalize (set_jobs [] st2). induction (jobs st2) as [|j l IH];
    intros st3 Hc3 H3; simpl; [done|].
  apply IH; [by apply consistent_run_job|].
  eapply advances_trans; [exact H3|by apply advances_run_job].
Qed.

Lemma advances_operation st op :
  consistent st ->
  advances st (getState op (length (operations st)) (snd (new_operation st))).
Proof.
  intros Hc. unfold getState, status.
  pose proof (consistent_new_operation st Hc) as Hc1.
  assert (advances st (snd (new_operation st))) as H1 by quiet.
  pose proof (advances_sendRpc _ "Controller.1.status" None Hc1) as H2.
  destruct (sendRpc _ _ _) as [p st2]. simpl in H2.
  eapply advances_trans; [exact H1|].
  eapply advances_trans; [exact H2|apply advances_await].
Qed.

Lemma advances_connect st : advances st (snd (connect st)).
Proof.
  unfold connect, new_operation.
  match goal with
  | |- context [WebSocketClient.connect ?u ?t ?p ?c] =>
      pose proof (wire_connect c u t p) as Hw;
      pose proof (connect_events c u t p) as He;
      destruct (WebSocketClient.connect u t p c) as [n cl]
  end.
  simpl in *. split; simpl; try done.
  - exists [], []. rewrite app_nil_r. repeat split; try done; constructor.
  - exists []. by rewrite app_nil_r.
  - rewrite length_app; simpl. lia.
  - intros cq [Hin|[<-|[]]]%in_app_iff; [by left|right].
    simpl. rewrite length_app; simpl. lia.
Qed.

Lemma advances_further st st' :
  advances (createThunderSession (cfg st)) st -> advances st st' ->
  advances (createThunderSession (cfg st')) st'.
Proof.
  intros H1 H2. rewrite (advances_cfg _ _ H2). by eapply advances_trans.
Qed.

Lemma advances_step st : reachable st -> advances (createThunderSession (cfg st)) st.
Proof.
  induction 1 as [config|st H IH|st H IH|st H IH|st H IH|st H IH
                  |st et mp H IH|st s e H IH|st t H IH|st H IH];
    try pose proof (reachable_consistent _ H) as Hc;
    try (apply (advances_further st); [exact IH|]).
  - apply advances_refl.
  - apply advances_connect.
  - apply advances_update; [apply wire_close|apply close_events].
  - apply (advances_operation st Stop Hc).
  - apply (advances_operation st Start Hc).
  - apply (advances_operation st Resume Hc).
  - by apply advances_waitForEvent.
  - by apply advances_fire.
  - apply advances_update; [apply wire_expire|apply expire_events].
  - by apply advances_checkpoint.
Qed.




(** *** [connect()] of the session *)

Lemma connect_unfold st :
  let url := String.append "ws://" (String.append (host (cfg st)) ":80/jsonrpc") in
  connect st
  = (length (operations st),
     {| cfg := cfg st;
        wsClient := snd (WebSocketClient.connect url None None (wsClient st));
        messageId := messageId st;
        promises := promises st;
        operations := operations st ++ [Pending];
        connecting := connecting st ++
          [(fst (WebSocketClient.connect url None None (wsClient st)),
            length (operations st))];
        jobs := jobs st |}).
Proof.
  intros url. subst url. unfold connect, new_operation.
  cbn [cfg wsClient connecting set_operations].
  match goal with
  | |- context [WebSocketClient.connect ?u ?t ?p ?c] =>
      by destruct (WebSocketClient.connect u t p c)
  end.
Qed.










(** *** Promises of the interface that nothing settles *)

Section Hung.

Variable config : config.
Variable q : nat.

Lemma hung_lt st : hung config q st -> (q < length (operations st))%nat.
Proof. intros Hh. eapply lookup_lt_Some, Hh. Qed.

Lemma hung_settle_promise st p o :
  hung config q st -> hung config q (settle_promise p o st).
Proof.
  intros [H1 H2 H3 H4 H5]. unfold settle_promise.
  destruct (promises st !! p) as [[[] ks]|] eqn:E; try done.
  split; simpl; try done.
  - intros p' pr k. rewrite list_lookup_insert.
    case_decide as Hd; [by intros [= <-]|]. apply H3.
  - intros job [Hin|Hin]%in_app_iff; [by apply H4|].
    apply in_map_iff in Hin as (k & <- & Hk). simpl. intros Ht.
    by destruct (H3 p _ k E Hk).
Qed.

Lemma hung_settle_operation st q' o :
  q' <> q -> hung config q st -> hung config q (settle_operation q' o st).
Proof.
  intros Hne [H1 H2 H3 H4 H5]. split; simpl; try done.
  by rewrite list_lookup_alter_ne.
Qed.

Lemma hung_await st p k :
  target k <> q -> hung config q st -> hung config q (await p k st).
Proof.
  intros Hne [H1 H2 H3 H4 H5]. unfold await.
  destruct (promises st !! p) as [[[] ks]|] eqn:E; try done;
    split; simpl; try done.
  - intros p' pr k'. rewrite list_lookup_insert.
    case_decide as Hd; [|apply H3]. intros [= <-]. simpl.
    intros [Hin|[<-|[]]]%in_app_iff; [|done]. by apply (H3 p _ k' E).
  - intros job [Hin|[<-|[]]]%in_app_iff; [by apply H4|]. by simpl.
  - intros job [Hin|[<-|[]]]%in_app_iff; [by apply H4|]. by simpl.
Qed.

Lemma hung_update st f : hung config q st -> hung config q (update f st).
Proof. by intros [H1 H2 H3 H4 H5]. Qed.

Lemma hung_new_promise st : hung config q st -> hung config q (snd (new_promise st)).
Proof.
  intros [H1 H2 H3 H4 H5]. split; simpl; try done.
  intros p pr k [Hl|[_ Hl]]%lookup_app_Some; [by apply (H3 p)|].
  destruct (p - length (promises st))%nat; simpl in Hl; [|done].
  by injection Hl as <-.
Qed.

Lemma hung_new_operation st :
  hung config q st -> hung config q (snd (new_operation st)).
Proof.
  intros Hh. pose proof (hung_lt _ Hh) as Hlt.
  destruct Hh as [H1 H2 H3 H4 H5]. split; simpl; try done.
  by rewrite lookup_app_l.
Qed.

Lemma hung_sendRpc st method params :
  hung config q st -> hung config q (snd (sendRpc method params st)).
Proof.
  intros Hh. apply hung_new_promise in Hh. unfold sendRpc.
  destruct (new_promise st) as [p st1]. simpl in *.
  destruct (send _ _) as [cl|err]; simpl.
  - apply hung_update. by destruct Hh as [H1 H2 H3 H4 H5].
  - apply hung_settle_promise. by destruct Hh as [H1 H2 H3 H4 H5].
Qed.

Lemma hung_waitForEvent st eventType matchParams :
  hung config q st -> hung config q (snd (waitForEvent eventType matchParams st)).
Proof.
  intros Hh. apply hung_new_promise in Hh. unfold waitForEvent.
  destruct (new_promise st) as [p st1]. simpl in *. by apply hung_update.
Qed.

Lemma hung_invoke st h e : hung config q st -> hung config q (invoke h e st).
Proof.
  intros Hh. destruct h as [id p|eventType matchParams p]; simpl.
  - rewrite on_response_answer.
    destruct (answer id e); [done|by apply hung_settle_promise..].
  - unfold on_event. destruct (detail e) as [data|]; [|done].
    destruct (nonempty data); [|done].
    destruct (JSON_parse data) as [response|err]; [|by apply hung_update].
    destruct (accepts _ _ _) as [[]|]; [|done|by apply hung_update].
    by apply hung_settle_promise, hung_update.
Qed.

Lemma hung_dispatchEvent st e :
  hung config q st -> hung config q (dispatchEvent view invoke e st).
Proof.
  unfold dispatchEvent. generalize (handlers (type_of e) (view st)).
  intros hs. revert st. induction hs as [|h hs IH]; intros st Hh; simpl; [done|].
  by apply IH, hung_invoke.
Qed.

Lemma hung_call st e f :
  hung config q st -> hung config q (call view update invoke e st f).
Proof.
  intros Hh. destruct f as [c|c|c|c|n]; simpl; try done.
  - by apply hung_update, hung_dispatchEvent, hung_update.
  - by apply hung_dispatchEvent, hung_update.
  - by apply hung_dispatchEvent.
  - destruct e; try done. by apply hung_dispatchEvent.
Qed.

Lemma hung_fire st s e :
  hung config q st -> hung config q (fire view update invoke s e st).
Proof.
  intros Hh. unfold fire. destruct (possible _ _ _); [|done].
  apply (hung_update _ (with_connection s (arrive e))) in Hh.
  revert Hh. generalize (update (with_connection s (arrive e)) st).
  intros st'.
  generalize (socket_listeners s (type_of e) (view st')). intros fs.
  revert st'. induction fs as [|f fs IH]; intros st' Hh; simpl; [done|].
  by apply IH, hung_call.
Qed.

Lemma hung_transition st q' eventType matchParams method params :
  q' <> q -> hung config q st ->
  hung config q
    (let (w, st) := waitForEvent eventType matchParams st in
     let st := await w (Forward q') st in
     snd (sendRpc method (params st) st)).
Proof.
  intros Hne Hh. apply (hung_waitForEvent _ eventType matchParams) in Hh.
  destruct (waitForEvent eventType matchParams st) as [w st1]. simpl in *.
  by apply hung_sendRpc, hung_await.
Qed.

Lemma hung_rest_of st op q' state :
  q' <> q -> hung config q st -> hung config q (rest_of op q' state st).
Proof.
  intros Hne Hh. destruct op; simpl.
  - unfold stop_rest. destruct (equals _ _); [by apply hung_settle_operation|].
    by apply (hung_transition st q' "statechange"
                (Some [("state", JStr "deactivated")]) "Controller.1.deactivate"
                (fun st => Some (callsign_params st))).
  - unfold start_rest. destruct (_ || _); [by apply hung_settle_operation|].
    by apply (hung_transition st q' "statechange"
                (Some [("state", JStr "activated")]) "Controller.1.activate"
                (fun st => Some (callsign_params st))).
  - unfold resume_rest. destruct (_ || _); [by apply hung_settle_operation|].
    by apply (hung_transition st q' "statechange"
                (Some [("suspended", JBool false)]) "Controller.1.resume"
                (fun st => Some (callsign_params st))).
Qed.

Lemma hung_run_job st job :
  hung config q st -> (target (fst job) = q -> lost config job) ->
  hung config q (run_job st job).
Proof.
  intros Hh Hlost. destruct job as [[op q'|q'] o]; simpl in *.
  - destruct o as [|result|err]; try done.
    rewrite (hung_cfg _ _ _ Hh).
    destruct (state_of (callsign config) result) as [state|err] eqn:E; [|done].
    apply hung_rest_of; [|done]. intros ->.
    destruct (Hlost eq_refl) as [err Herr]. congruence.
  - apply hung_settle_operation; [|done]. intros ->. by apply Hlost.
Qed.

Lemma hung_connect_rest st cq :
  snd cq <> q -> hung config q st -> hung config q (connect_rest st cq).
Proof.
  intros Hne Hh. unfold connect_rest.
  destruct (connection_promise _ _); [done| |by apply hung_settle_operation].
  simpl.
  destruct (send _ _) as [cl|err]; apply hung_settle_operation; try done;
    try apply hung_update; by destruct Hh as [H1 H2 H3 H4 H5].
Qed.

Lemma hung_checkpoint st : hung config q st -> hung config q (checkpoint st).
Proof.
  intros Hh. unfold checkpoint.
  set (st1 := set_connecting _ st).
  assert (Hh1 : hung config q st1).
  { destruct Hh as [H1 H2 H3 H4 H5]. split; simpl; try done.
    intros cq [Hin _]%filter_In. by apply H5. }
  assert (Hjobs1 : jobs st1 = jobs st) by done.
  clearbody st1.
  assert (hung config q (foldl connect_rest st1 (connecting st)) /\
          jobs (foldl connect_rest st1 (connecting st)) = jobs st) as [Hh2 Hjobs2].
  { pose proof (hung_connecting _ _ _ Hh) as Hall. clear Hh.
    revert st1 Hh1 Hjobs1 Hall. induction (connecting st) as [|cq l IH];
      intros st1 Hh1 Hjobs1 Hall; simpl; [done|].
    apply IH.
    - apply hung_connect_rest; [|done]. apply Hall. by left.
    - by rewrite (proj1 (quiet_connect_rest st1 cq)).
    - intros cq' Hin. apply Hall. by right. }
  set (st2 := foldl connect_rest st1 (connecting st)) in *. clearbody st2.
  rewrite Hjobs2.
  assert (Hh3 : hung config q (set_jobs [] st2)).
  { destruct Hh2 as [H1 H2 H3 H4 H5]. by split. }
  pose proof (hung_jobs _ _ _ Hh) as Hall. clear Hh Hh1 Hh2 Hjobs1 Hjobs2.
  revert Hh3 Hall. generalize (set_jobs [] st2). induction (jobs st) as [|j l IH];
    intros st3 Hh3 Hall; simpl; [done|].
  apply IH.
  - apply hung_run_job; [done|]. apply Hall. by left.
  - intros job Hin. apply Hall. by right.
Qed.

Lemma hung_operation st op :
  hung config q st ->
  hung config q (getState op (length (operations st)) (snd (new_operation st))).
Proof.
  intros Hh. pose proof (hung_lt _ Hh) as Hlt.
  apply hung_new_operation in Hh. unfold getState, status.
  apply (hung_sendRpc _ "Controller.1.status" None) in Hh.
  destruct (sendRpc _ _ _) as [p st2]. simpl in *.
  apply hung_await; [simpl; lia|done].
Qed.

Lemma hung_connect st : hung config q st -> hung config q (snd (connect st)).
Proof.
  intros Hh. pose proof (hung_lt _ Hh) as Hlt.
  apply hung_new_operation in Hh.
  rewrite connect_unfold. cbn [snd].
  destruct Hh as [H1 H2 H3 H4 H5]. split; simpl in *; try done.
  intros cq [Hin|[<-|[]]]%in_app_iff; [by apply H5|]. simpl. lia.
Qed.

Lemma hung_later st st' : hung config q st -> later st st' -> hung config q st'.
Proof.
  intros Hh. induction 1.
  - done.
  - by apply hung_connect.
  - by apply hung_update.
  - by apply (hung_operation _ Stop).
  - by apply (hung_operation _ Start).
  - by apply (hung_operation _ Resume).
  - by apply hung_waitForEvent.
  - by apply hung_fire.
  - by apply hung_update.
  - by apply hung_checkpoint.
Qed.

End Hung.

(** *** The response to the status request of an operation *)

Lemma messageId_settle_promise st p o :
  messageId (settle_promise p o st) = messageId st.
Proof.
  unfold settle_promise. by destruct (promises st !! p) as [[[] ks]|].
Qed.

Lemma messageId_invoke st h e : messageId (invoke h e st) = messageId st.
Proof.
  destruct h as [id p|eventType matchParams p]; simpl.
  - rewrite on_response_answer.
    destruct (answer id e); by rewrite ?messageId_settle_promise.
  - unfold on_event. destruct (detail e) as [data|]; [|done].
    destruct (nonempty data); [|done].
    destruct (JSON_parse data) as [response|err]; [|done].
    destruct (accepts _ _ _) as [[]|]; try done.
    by rewrite messageId_settle_promise.
Qed.

Lemma messageId_foldl_invoke hs e st :
  messageId (foldl (fun w h => invoke h e w) st hs) = messageId st.
Proof.
  revert st. induction hs as [|h hs IH]; intros st; simpl; [done|].
  by rewrite IH, messageId_invoke.
Qed.

Lemma reacts_below_settle_promise p q st p' o :
  reacts_below p q st -> reacts_below p q (settle_promise p' o st).
Proof.
  intros Hr. unfold settle_promise.
  destruct (promises st !! p') as [[[] ks]|] eqn:E; try done.
  intros p'' pr k. simpl. rewrite list_lookup_insert.
  case_decide as Hd; [by intros [= <-]|]. apply Hr.
Qed.

Lemma reacts_below_invoke p q st h e :
  reacts_below p q st -> reacts_below p q (invoke h e st).
Proof.
  intros Hr. destruct h as [id p'|eventType matchParams p']; simpl.
  - rewrite on_response_answer.
    destruct (answer id e); [done|by apply reacts_below_settle_promise..].
  - unfold on_event. destruct (detail e) as [data|]; [|done].
    destruct (nonempty data); [|done].
    destruct (JSON_parse data) as [response|err]; [|done].
    destruct (accepts _ _ _) as [[]|]; try done.
    by apply reacts_below_settle_promise.
Qed.

Lemma reacts_below_foldl p q hs e st :
  reacts_below p q st ->
  reacts_below p q (foldl (fun w h => invoke h e w) st hs).
Proof.
  revert st. induction hs as [|h hs IH]; intros st Hr; simpl; [done|].
  by apply IH, reacts_below_invoke.
Qed.

(** Jobs that forward outcomes leave the rest of the session alone. *)
Lemma forwarding_jobs_rest q js st :
  Forall (fun job => forwards (fst job) /\ (target (fst job) < q)%nat) js ->
  messageId (foldl run_job st js) = messageId st /\
  connecting (foldl run_job st js) = connecting st /\
  length (operations (foldl run_job st js)) = length (operations st) /\
  (consistent st -> consistent (foldl run_job st js)).
Proof.
  revert st. induction js as [|[k o] js IH]; intros st Hall; simpl; [done|].
  apply Forall_cons in Hall as [[Hf Ht] Hall]. simpl in Hf, Ht.
  destruct k as [op q'|q']; [done|].
  destruct (IH (settle_operation q' o st) Hall) as (H1 & H2 & H3 & H4).
  simpl. rewrite H1, H2, H3. simpl. rewrite length_alter.
  split; [done|]. split; [done|]. split; [done|].
  intros Hc. by apply H4, consistent_settle_operation.
Qed.

(** An operation is called on a reachable session between two turns whose
    socket is open, and the next message is the response to its status
    request.  Then the turn of that message ends with the rest of
    [getState] for the result of the response, run in a session that has
    seen nothing but the status request. *)
Lemma status_answered st op s response :
  reachable st -> idle st -> isConnected st = true ->
  (s < length (connections (wsClient st)))%nat ->
  carries (messageId st) (Json response) ->
  let q := length (operations st) in
  let st1 := getState op q (snd (new_operation st)) in
  exists st3,
    answered st q st3 /\
    deliver s (MessageEvent (Json response)) st1
    = run_job st3 (GetState op q, Resolved (result_or_response response)).
Proof.
  intros Hreach [Hjobs Hconn] Hopen Hs Hcarries q st1.
  set (st2 := deliver s (MessageEvent (Json response)) st1).
  pose proof (reachable_consistent _ Hreach) as Hc.
  pose proof (reachable_tidy _ Hreach) as Ht.
  set (id := messageId st) in *. set (p := length (promises st)) in *.
  assert (Hc1 : consistent st1)
    by (by apply consistent_getState, consistent_new_operation).
  destruct (operation_begins st op Hc Hopen) as (s0 & Hs0 & Hst1).
  fold q id p st1 in Hst1.
  destruct (send_when_connected (status_request id) (wsClient st) Hopen)
    as (s0' & Hs0' & Hsend & _).
  rewrite Hs0 in Hs0'. injection Hs0' as <-.
  set (cl0 := with_connection s0 (push_sent (status_request id)) (wsClient st)) in *.
  assert (Hwf0 : wf cl0) by (apply wf_with_connection; [apply Hc|done..]).
  assert (Hcl1 : wsClient st1 = on "message" (Response id p) cl0)
    by (by rewrite Hst1).
  assert (Hconns1 : connections (wsClient st1) = connections cl0)
    by (by rewrite Hcl1).
  assert (Hev1 : events (wsClient st1)
                 = events (wsClient st) ++ [("message", (closures cl0, Response id p))]).
  { rewrite Hcl1. by rewrite on_events. }
  assert (Hh1 : handlers "message" (wsClient st1)
                = handlers "message" (wsClient st) ++ [Response id p]).
  { rewrite Hcl1. by rewrite handlers_on. }
  assert (Hp1 : promises st1 !! p
                = Some {| state := Pending; reactions := [GetState op q] |}).
  { rewrite Hst1; simpl. by apply list_lookup_middle. }
  assert (Hops1 : operations st1 = operations st ++ [Pending]) by (by rewrite Hst1).
  assert (Hq1 : operations st1 !! q = Some Pending).
  { rewrite Hops1. by apply list_lookup_middle. }
  assert (Hcalm1 : calm st1 q p st1).
  { split; try done; [apply Hc1|by rewrite Hst1; simpl; rewrite Hjobs|].
    intros et mp p' pr k Hin Hl Hk.
    assert (In (handleEvent et mp p') (registered st)) as Hin'.
    { revert Hin. unfold registered. rewrite Hev1, map_app.
      by intros [Hin|[[=]|[]]]%in_app_iff. }
    pose proof (consistent_bound _ Hc _ Hin') as Hlt. simpl in Hlt.
    rewrite Hst1 in Hl; simpl in Hl. rewrite lookup_app_l in Hl by done.
    split; [by eapply (tidy_waiters _ Ht)|by eapply (tidy_reactions _ Ht)]. }
  assert (Hbelow1 : reacts_below p q st1).
  { intros p' pr k Hl Hk Hne. rewrite Hst1 in Hl; simpl in Hl.
    apply lookup_app_Some in Hl as [Hl|[Hge Hl]].
    - by eapply (tidy_reactions _ Ht).
    - destruct (p' - length (promises st))%nat eqn:E; simpl in Hl; [|done].
      fold p in Hge, E. lia. }
  set (st' := foldl (fun w h => invoke h (MessageEvent (Json response)) w) st1
                (handlers "message" (wsClient st))).
  assert (Hcalm : calm st1 q p st').
  { apply calm_foldl; [done|]. intros h Hh.
    pose proof (handlers_registered _ _ _ Hh) as Hreg. repeat split.
    - unfold registered. rewrite Hev1, map_app. apply in_app_iff. by left.
    - pose proof (consistent_bound _ Hc _ Hreg). fold p in H. lia.
    - intros id' p' ->. apply (answer_other id); [done|].
      pose proof (consistent_ids _ Hc _ _ Hreg). fold id in H. lia. }
  assert (Hbelow : reacts_below p q st') by (by apply reacts_below_foldl).
  assert (Hid' : messageId st' = id + 1).
  { subst st'. rewrite messageId_foldl_invoke. by rewrite Hst1. }
  assert (Hans : answer id (MessageEvent (Json response))
                 = Resolved (result_or_response response)).
  { apply answer_resolved. by exists response. }
  assert (Hfire : fire view update invoke s (MessageEvent (Json response)) st1
                  = settle_promise p (Resolved (result_or_response response)) st').
  { rewrite (fire_message st1 s (Json response));
      [|done|by rewrite Hconns1; subst cl0; simpl; rewrite length_alter].
    rewrite Hh1, foldl_app. simpl. fold st'. by rewrite on_response_answer, Hans. }
  destruct Hcalm as [G1 G2 G3 G4 G5 G6 G7 G8 G9 G10 G11].
  rewrite Hp1 in G9.
  assert (Hfire' : fire view update invoke s (MessageEvent (Json response)) st1
            = set_jobs (jobs st' ++ [(GetState op q, Resolved (result_or_response response))])
                (set_promises
                   (fun ps => <[p := {| state := Resolved (result_or_response response);
                                        reactions := [] |}]> ps) st')).
  { rewrite Hfire. unfold settle_promise. by rewrite G9. }
  pose proof (consistent_fire st1 s (MessageEvent (Json response)) Hc1) as Hc''.
  set (st'' := fire view update invoke s (MessageEvent (Json response)) st1) in *.
  assert (Hcheck : st2 = foldl run_job (set_jobs [] st'') (jobs st'')).
  { subst st2. unfold deliver. fold st''. apply checkpoint_jobs.
    intros cq Hin. rewrite Hfire' in Hin; simpl in Hin. rewrite G7 in Hin.
    rewrite Hst1 in Hin; simpl in Hin.
    rewrite <- (Hconn cq Hin). unfold connection_promise.
    rewrite Hfire'; simpl. rewrite G1, Hconns1. subst cl0.
    rewrite lookup_with_connection. case_decide as Hd; [|done]. subst s0.
    by destruct (connections (wsClient st) !! cq.1). }
  assert (Hjobs'' : jobs st'' = jobs st' ++
            [(GetState op q, Resolved (result_or_response response))])
    by (by rewrite Hfire').
  rewrite Hjobs'', foldl_app in Hcheck. cbn [foldl] in Hcheck.
  destruct (forwarding_jobs q (jobs st') (set_jobs [] st'') G10)
    as (F1 & F2 & F3 & F4 & F5).
  destruct (forwarding_jobs_rest q (jobs st') (set_jobs [] st'') G10)
    as (F6 & F7 & F8 & F9).
  set (st3 := foldl run_job (set_jobs [] st'') (jobs st')) in *.
  assert (Hws3 : wsClient st3 = wsClient st').
  { rewrite F1. by rewrite Hfire'. }
  exists st3. split; [|exact Hcheck]. split.
  - rewrite F2, Hfire'; simpl. rewrite G5. by rewrite Hst1.
  - rewrite F6, Hfire'; simpl. by rewrite Hid'.
  - unfold isConnected, WebSocketClient.isConnected in *.
    rewrite Hws3, G2, G1, Hconns1, Hcl1. simpl. rewrite Hs0 in *.
    subst cl0. rewrite list_lookup_alter_eq.
    destruct (connections (wsClient st) !! s0) as [k|]; [|done]. done.
  - apply F9. apply (consistent_same_events st''); simpl; try done; try lia.
    apply Hc''.
  - unfold frames. rewrite Hws3, G1, Hconns1.
    apply (wire_send _ _ _ (consistent_client _ Hc) Hsend).
  - transitivity (handlers "message" (wsClient st1)); [|exact Hh1].
    unfold handlers. by rewrite Hws3, G3.
  - rewrite F5, Hfire'; simpl. by rewrite G6, Hq1.
  - rewrite F8, Hfire'; simpl. rewrite G6, Hops1, length_app. simpl. lia.
  - rewrite F3, Hfire'; simpl.
    rewrite length_insert, G8, Hst1; simpl. rewrite length_app; simpl. lia.
  - intros p' pr k. rewrite F3, Hfire'; simpl. rewrite list_lookup_insert.
    case_decide as Hd; [by intros [= <-]|]. intros Hl Hk.
    apply (Hbelow p' pr k Hl Hk). intros ->. apply Hd. split; [done|].
    rewrite G8, Hst1; simpl. rewrite length_app; simpl. lia.
  - by rewrite F4.
  - rewrite F7, Hfire'; simpl. by rewrite G7, Hst1.
Qed.


Lemma operate_unfold op st :
  operate op st
  = (length (operations st),
     getState op (length (operations st)) (snd (new_operation st))).
Proof. by destruct op. Qed.


(** No [connect] in flight is for a promise that does not exist yet. *)
Lemma connecting_bound st cq :
  reachable st -> In cq (connecting st) -> (snd cq < length (operations st))%nat.
Proof.
  intros Hreach Hin.
  destruct (advances_connecting _ _ (advances_step st Hreach) cq Hin) as [[]|];
    lia.
Qed.




(** X9.  The response to the status request of [stop()], [start()] or
    [resume()] arrives, but looking up the state of the callsign in it
    throws (the result is no array, or lists no instance with the
    callsign).  Then the promise the call returned stays pending whatever
    happens to the session later. *)
Theorem operation_hangs_without_state st op s response err st' :
  reachable st -> idle st -> isConnected st = true ->
  (s < length (connections (wsClient st)))%nat ->
  carries (messageId st) (Json response) ->
  state_of (callsign (cfg st)) (result_or_response response) = Throw err ->
  let q := fst (operate op st) in
  let st2 := deliver s (MessageEvent (Json response)) (snd (operate op st)) in
  later st2 st' ->
  operations st' !! q = Some Pending /\
  frames st2 = frames st ++ [status_request (messageId st)].
Proof.
  intros Hreach Hidle Hopen Hs Hcarries Hstate. rewrite operate_unfold.
  cbn [fst snd].
  destruct (status_answered st op s response Hreach Hidle Hopen Hs Hcarries)
    as (st3 & Ha & Hst2).
  rewrite Hst2. cbn [run_job]. rewrite (answered_cfg _ _ _ Ha), Hstate.
  intros Hlater. split; [|apply Ha].
  assert (hung (cfg st) (length (operations st)) st3) as Hh.
  { split; try apply Ha.
    - intros p pr k Hl Hk. pose proof (answered_reactions _ _ _ Ha p pr k Hl Hk).
      lia.
    - by rewrite (answered_jobs _ _ _ Ha).
    - intros cq. rewrite (answered_connecting _ _ _ Ha). intros Hin.
      pose proof (connecting_bound st cq Hreach Hin). lia. }
  apply (hung_pending _ _ _ (hung_later _ _ _ _ Hh Hlater)).
Qed.

Lemma operation_hangs_without_state_witness :
  operations
    (deliver 0 (MessageEvent (Json (listing 3 "Activated")))
       (deliver 0 (MessageEvent (Json (no_instances 2))) (snd (stop opened))))
    !! 1%nat
  = Some Pending.
Proof.
  refine (proj1 (operation_hangs_without_state opened Stop 0 (no_instances 2)
                   TypeError _ opened_reachable opened_idle _ _ _ _ _)).
  - by vm_compute.
  - vm_compute. lia.
  - exists (no_instances 2), (VJson (JNum 2)). by vm_compute.
  - by vm_compute.
  - apply later_checkpoint, later_fire, later_now.
Defined.







(** *** The notification an operation waits for *)

















(** *** Listeners stay; what a message does to a wait *)

Lemma later_advances st st' :
  consistent st -> later st st' -> consistent st' /\ advances st st'.
Proof.
  intros Hc. induction 1 as [|st' H [Hc' IH]|st' H [Hc' IH]|st' H [Hc' IH]
                             |st' H [Hc' IH]|st' H [Hc' IH]
                             |st' et mp H [Hc' IH]|st' s e H [Hc' IH]
                             |st' t H [Hc' IH]|st' H [Hc' IH]].
  - split; [done|apply advances_refl].
  - split; [by apply consistent_connect|].
    eapply advances_trans; [exact IH|apply advances_connect].
  - split.
    + apply consistent_update; [done|apply wf_close, Hc'|apply close_events].
    + eapply advances_trans; [exact IH|].
      apply advances_update; [apply wire_close|apply close_events].
  - split; [by apply consistent_getState, consistent_new_operation|].
    eapply advances_trans; [exact IH|apply (advances_operation st' Stop Hc')].
  - split; [by apply consistent_getState, consistent_new_operation|].
    eapply advances_trans; [exact IH|apply (advances_operation st' Start Hc')].
  - split; [by apply consistent_getState, consistent_new_operation|].
    eapply advances_trans; [exact IH|apply (advances_operation st' Resume Hc')].
  - split; [by apply consistent_waitForEvent|].
    eapply advances_trans; [exact IH|by apply advances_waitForEvent].
  - split; [by apply consistent_fire|].
    eapply advances_trans; [exact IH|by apply advances_fire].
  - split.
    + apply consistent_update; [done|apply wf_expire, Hc'|apply expire_events].
    + eapply advances_trans; [exact IH|].
      apply advances_update; [apply wire_expire|apply expire_events].
  - split; [by apply consistent_checkpoint|].
    eapply advances_trans; [exact IH|by apply advances_checkpoint].
Qed.

(** X13.  No listener of the session is ever removed: whatever happens
    to a session, the handlers it calls for a message go on being called,
    in the same order, before those added since; and what was sent stays
    sent.  So every call and every wait leaves its handler behind. *)
Theorem handlers_are_never_removed st st' :
  reachable st -> later st st' ->
  exists more news,
    handlers "message" (wsClient st')
    = handlers "message" (wsClient st) ++ more /\
    frames st' = frames st ++ news /\
    (length (registered st) <= length (registered st'))%nat.
Proof.
  intros Hreach Hlater.
  destruct (later_advances st st' (reachable_consistent _ Hreach) Hlater)
    as [_ [_ _ (ids & news & F & _) (more & E & _) _ _]].
  exists (map (fun e => snd (snd e))
            (List.filter (fun e => String.eqb (fst e) "message") more)), news.
  split; [|split; [done|]].
  - unfold handlers. by rewrite E, List.filter_app, map_app.
  - unfold registered. rewrite E, map_app, length_app. lia.
Qed.

Lemma handlers_are_never_removed_witness :
  exists more news,
    handlers "message"
      (wsClient (deliver 0 (MessageEvent (Json (listing 2 "Activated")))
                   (snd (start opened))))
    = handlers "message" (wsClient (snd (start opened))) ++ more /\
    frames (deliver 0 (MessageEvent (Json (listing 2 "Activated")))
              (snd (start opened)))
    = frames (snd (start opened)) ++ news /\
    (length (registered (snd (start opened)))
     <= length (registered (deliver 0 (MessageEvent (Json (listing 2 "Activated")))
                              (snd (start opened)))))%nat.
Proof.
  apply (handlers_are_never_removed (snd (start opened))).
  - apply reach_start, opened_reachable.
  - apply later_checkpoint, later_fire, later_now.
Defined.

Lemma outcome_invoke_waiter st eventType matchParams p data :
  outcome p st = Some Pending ->
  outcome p (invoke (handleEvent eventType matchParams p) (MessageEvent data) st)
  = Some (verdict eventType matchParams data).
Proof.
  intros Hp. simpl. unfold on_event, verdict. simpl.
  destruct data as [| |note]; simpl; try done.
  destruct (accepts _ _ _) as [[]|]; try done.
  by apply outcome_settle_pending.
Qed.

Lemma outcome_foldl_waiter hs st eventType matchParams p data :
  NoDup (map handler_promise hs) ->
  In (handleEvent eventType matchParams p) hs ->
  outcome p st = Some Pending ->
  outcome p (foldl (fun w h => invoke h (MessageEvent data) w) st hs)
  = Some (settle (verdict eventType matchParams data) Pending).
Proof.
  intros Hnd Hin Hp.
  apply in_split in Hin as (h1 & h2 & ->).
  rewrite map_app in Hnd. simpl in Hnd.
  apply NoDup_app in Hnd as (Hnd1 & Hnd2 & Hnd3).
  apply NoDup_cons in Hnd3 as [Hnd3 _].
  rewrite foldl_app. cbn [foldl].
  rewrite outcome_foldl_other.
  2:{ intros h Hh Heq. apply Hnd3. rewrite <- Heq.
      apply list_elem_of_In, in_map_iff. by exists h. }
  rewrite outcome_invoke_waiter; [done|].
  rewrite outcome_foldl_other; [done|].
  intros h Hh Heq. apply (Hnd2 (handler_promise h)).
  - apply list_elem_of_In, in_map_iff. by exists h.
  - rewrite Heq. by left.
Qed.

(** X14.  What a message does to a pending wait of [waitForEvent]: the
    promise is resolved with the notification when the message is JSON
    text that the waiter accepts, and stays pending otherwise; no message
    rejects it. *)
Theorem wait_resolves_when_accepted st s data eventType matchParams p :
  reachable st ->
  (s < length (connections (wsClient st)))%nat ->
  In (handleEvent eventType matchParams p) (handlers "message" (wsClient st)) ->
  outcome p st = Some Pending ->
  outcome p (deliver s (MessageEvent data) st)
  = Some (verdict eventType matchParams data) /\
  (forall err, verdict eventType matchParams data <> Rejected err).
Proof.
  intros Hreach Hs Hin Hp.
  pose proof (reachable_consistent _ Hreach) as Hc. split.
  - unfold deliver.
    assert (outcome p (fire view update invoke s (MessageEvent data) st)
            = Some (verdict eventType matchParams data)) as Hfire.
    { rewrite fire_message by done.
      by rewrite (outcome_foldl_waiter _ _ eventType matchParams);
        [|apply NoDup_handlers|..]. }
    rewrite <- Hfire. apply keeps_checkpoint. by eapply outcome_lt.
  - intros err. unfold verdict. destruct data as [| |note]; try done.
    by destruct (accepts _ _ _) as [[]|].
Qed.

Lemma wait_resolves_when_accepted_witness :
  let params := [("state", JStr "activated")] in
  let st := snd (waitForEvent "statechange" (Some params) opened) in
  outcome 0 (deliver 0 (MessageEvent Malformed) st) = Some Pending.
Proof.
  refine (proj1 (wait_resolves_when_accepted
                   (snd (waitForEvent "statechange"
                           (Some [("state", JStr "activated")]) opened))
                   0 Malformed "statechange" [("state", JStr "activated")] 0
                   _ _ _ _)).
  - apply reach_waitForEvent, opened_reachable.
  - vm_compute. lia.
  - vm_compute. by left.
  - by vm_compute.
Defined.

End ThunderSessionMore.

(** * More properties of the debug feed *)

Module WebInspectorMore.

Import JS WebSocketClient WebSocketClientSpec WebSocketClientTerms.
Import WebSocketClientFacts WebSocketClientMore.
Import WebInspector WebInspectorSpec WebInspectorTerms WebInspectorFacts.

#[local] Arguments on : simpl never.
#[local] Arguments close : simpl never.
#[local] Arguments send : simpl never.
#[local] Arguments WebSocketClient.connect : simpl never.
#[local] Arguments expire : simpl never.
#[local] Arguments get : simpl never.

(** *** Every client keeps the listeners [connect] gave it *)

Lemma sound_update st i f :
  sound st ->
  (forall cl, wf cl -> events cl = subscriptions ->
              wf (f cl) /\ events (f cl) = subscriptions) ->
  sound (update i f st).
Proof.
  intros Hs Hf j cl. unfold update; simpl. rewrite list_lookup_alter.
  case_decide as Hd; [|by apply Hs]. subst j.
  destruct (clients st !! i) as [cl0|] eqn:E; simpl; [|done].
  intros [= <-]. destruct (Hs i cl0 E). by apply Hf.
Qed.

Lemma sound_same st st' : clients st' = clients st -> sound st -> sound st'.
Proof. intros E Hs i cl. rewrite E. apply Hs. Qed.

Lemma new_client_sound url :
  wf (new_client url) /\ events (new_client url) = subscriptions.
Proof.
  split; [|reflexivity].
  unfold new_client. do 4 apply wf_on. apply wf_connect, wf_new.
Qed.

Lemma sound_disconnect st : sound st -> sound (disconnect st).
Proof.
  intros Hs. unfold disconnect. destruct (ws st) as [i|]; [|done].
  apply (sound_update st i close Hs). intros cl Hwf He.
  split; [by apply wf_close|by rewrite close_events].
Qed.

Lemma sound_connect st : sound st -> sound (connect st).
Proof.
  intros Hs.
  assert (sound (match ws st with Some _ => disconnect st | None => st end)) as Hs'.
  { destruct (ws st); [by apply sound_disconnect|done]. }
  unfold connect.
  set (st0 := match ws st with Some _ => disconnect st | None => st end) in *.
  clearbody st0. intros i cl. cbn [clients].
  intros [Hl|[_ Hl]]%lookup_app_Some.
  - by apply (Hs' i cl).
  - destruct (i - _)%nat; simpl in Hl; [|done]. injection Hl as <-.
    apply new_client_sound.
Qed.

Lemma sound_ws_send st data st' :
  sound st -> ws_send data st = Normal st' -> sound st'.
Proof.
  intros Hs. unfold ws_send. destruct (ws st) as [i|]; [|done].
  destruct (send data (view i st)) as [cl'|err] eqn:Hsend; simpl; [|done].
  intros [= <-]. apply sound_update; [done|]. intros cl Hwf He.
  unfold view in Hsend. destruct (clients st !! i) as [cl0|] eqn:E; simpl in *.
  - destruct (Hs i cl0 E) as [Hwf0 He0].
    split; [by eapply wf_send|]. by rewrite (send_events _ _ _ Hsend).
  - apply send_returns in Hsend as (s & Hsock & _). done.
Qed.

Lemma sound_invoke st h e : sound st -> sound (invoke h e st).
Proof.
  intros Hs. destruct h; simpl; try done.
  - unfold on_open. destruct (ws st); [|done].
    destruct (ws_send enable_inspector st) as [st1|] eqn:E1; [|done].
    pose proof (sound_ws_send _ _ _ Hs E1) as Hs1.
    destruct (ws_send enable_console st1) as [st2|] eqn:E2; [|done].
    pose proof (sound_ws_send _ _ _ Hs1 E2) as Hs2.
    destruct (ws_send initialized st2) as [st3|] eqn:E3; [|done].
    apply (sound_ws_send _ _ _ Hs2 E3).
  - unfold on_message. destruct e; try done.
    destruct (nonempty data); [|done].
    by destruct (console_text data) as [[text|]|].
Qed.

Lemma sound_dispatchEvent st i e :
  sound st -> sound (dispatchEvent (view i) invoke e st).
Proof.
  unfold dispatchEvent. generalize (handlers (type_of e) (view i st)).
  intros hs. revert st. induction hs as [|h hs IH]; intros st Hs; simpl; [done|].
  by apply IH, sound_invoke.
Qed.

Lemma sound_call st i e f :
  sound st -> sound (call (view i) (update i) invoke e st f).
Proof.
  intros Hs. destruct f as [c|c|c|c|n]; simpl; try done.
  - apply sound_update.
    + apply sound_dispatchEvent, sound_update; [done|]. intros cl Hwf He.
      split; [apply (wf_enter _ (OnOpen c) Hwf)|].
      rewrite <- He. apply (enter_events cl (OnOpen c)).
    + intros cl Hwf He. split; [|done]. by apply wf_with_connection.
  - apply sound_dispatchEvent, sound_update; [done|]. intros cl Hwf He.
    split; [apply (wf_enter _ (OnError c) Hwf)|].
    rewrite <- He. apply (enter_events cl (OnError c)).
  - by apply sound_dispatchEvent.
  - destruct e; try done. by apply sound_dispatchEvent.
Qed.

Lemma sound_deliver st i s e : sound st -> sound (deliver i s e st).
Proof.
  intros Hs. unfold deliver, fire. destruct (possible _ _ _); [|done].
  assert (sound (update i (with_connection s (arrive e)) st)) as Hs1.
  { apply sound_update; [done|]. intros cl Hwf He. split; [|done].
    apply wf_with_connection; [done|by destruct e|].
    intros k. destruct e; simpl; done. }
  revert Hs1.
  generalize (socket_listeners s (type_of e)
                (view i (update i (with_connection s (arrive e)) st))).
  intros fs. generalize (update i (with_connection s (arrive e)) st).
  induction fs as [|f fs IH]; intros st' Hs'; simpl; [done|].
  by apply IH, sound_call.
Qed.

Lemma reachable_sound st : reachable st -> sound st.
Proof.
  induction 1.
  - by intros i cl.
  - by apply sound_connect.
  - by apply sound_disconnect.
  - by apply sound_deliver.
  - apply sound_update; [done|]. intros cl Hwf He.
    split; [by apply wf_expire|by rewrite expire_events].
Qed.

(** *** Messages of the inspector *)

Lemma update_unchanged st i : update i (fun cl => cl) st = st.
Proof.
  destruct st. unfold update; simpl. f_equal. by apply list_alter_id.
Qed.

(** A message of a socket of a client is what [handleMessage] is called
    with, and nothing else happens. *)
Lemma deliver_message st i s data cl k :
  sound st -> clients st !! i = Some cl -> connections cl !! s = Some k ->
  deliver i s (MessageEvent data) st = on_message (MessageEvent data) st.
Proof.
  intros Hs Hcl Hk. destruct (Hs i cl Hcl) as [Hwf He].
  unfold deliver, fire. simpl possible. cbv iota.
  replace (update i (with_connection s (arrive (MessageEvent data))) st) with st.
  2:{ rewrite <- (update_unchanged st i) at 1. unfold update. f_equal.
      apply list_alter_ext; [|done]. intros cl0 _. symmetry.
      apply ThunderSessionFacts.with_connection_same. }
  assert (view i st = cl) as Hview by (unfold view; by rewrite Hcl).
  rewrite Hview. unfold socket_listeners. rewrite Hk.
  rewrite (wf_listeners _ Hwf s k Hk). cbn [foldl call map List.filter
    own_listeners type_of fst snd String.eqb Ascii.eqb Bool.eqb].
  simpl. unfold dispatchEvent. rewrite Hview. unfold handlers. rewrite He.
  reflexivity.
Qed.

Lemma forwards_text data text :
  forwards data = [text] <->
  exists message method params,
    data = Json message /\
    get (VJson message) "method" = Normal method /\
    strict_equals method (VJson (JStr "Console.messageAdded")) = true /\
    get (VJson message) "params" = Normal params /\
    text = message_text params /\ truthy text = true.
Proof.
  unfold forwards, console_text, message_text. split.
  - destruct data as [| |message]; simpl; try done.
    unfold mbind, completion_bind; simpl.
    destruct (get (VJson message) "method") as [method|] eqn:Em; simpl; [|done].
    destruct (strict_equals method _) eqn:Es; simpl; [|done].
    destruct (get (VJson message) "params") as [params|] eqn:Ep; simpl; [|done].
    destruct (truthy _) eqn:Et; [|done]. intros [= <-].
    by exists message, method, params.
  - intros (message & method & params & -> & Em & Es & Ep & -> & Et). simpl.
    unfold mbind, completion_bind; simpl. rewrite Em; simpl. rewrite Es, Ep; simpl.
    by rewrite Et.
Qed.

(** X15.  A message on a socket of the inspector: [handleMessage] gives
    the text of a [Console.messageAdded] notification to [onMessage]
    when the notification has a text that is not empty; any other
    message, malformed or not, is dropped; nothing is sent and no client
    changes.  This holds for the socket of a client that [disconnect] or
    a later [connect] has put aside as well. *)
Theorem console_message_is_forwarded st i s data :
  reachable st ->
  (i < length (clients st))%nat ->
  (s < length (connections (view i st)))%nat ->
  let st' := deliver i s (MessageEvent data) st in
  forwarded st' = forwarded st ++ forwards data /\
  clients st' = clients st /\ ws st' = ws st /\
  (forall text,
     forwards data = [text] <->
     exists message method params,
       data = Json message /\
       get (VJson message) "method" = Normal method /\
       strict_equals method (VJson (JStr "Console.messageAdded")) = true /\
       get (VJson message) "params" = Normal params /\
       text = message_text params /\ truthy text = true).
Proof.
  intros Hreach Hi Hs st'.
  apply lookup_lt_is_Some in Hi as [cl Hcl].
  assert (view i st = cl) as Hview by (unfold view; by rewrite Hcl).
  rewrite Hview in Hs. apply lookup_lt_is_Some in Hs as [k Hk].
  subst st'.
  rewrite (deliver_message st i s data cl k (reachable_sound _ Hreach) Hcl Hk).
  split; [|split; [|split; [|apply forwards_text]]];
    unfold on_message, forwards; destruct (nonempty data);
    rewrite ?app_nil_r; try done;
    destruct (console_text data) as [[text|]|]; simpl; by rewrite ?app_nil_r.
Qed.

Lemma console_message_is_forwarded_witness :
  forwarded
    (deliver 0 0 (MessageEvent (Json (console_message "ready")))
       (disconnect (connect (createWebInspectorClient box))))
  = [VJson (JStr "ready")].
Proof.
  refine (proj1 (console_message_is_forwarded
                   (disconnect (connect (createWebInspectorClient box))) 0 0
                   (Json (console_message "ready")) _ _ _)).
  - apply reach_disconnect, reach_connect, reach_new.
  - apply le_n.
  - apply le_n.
Defined.

(** *** [connect], [disconnect] and [isConnected] of the inspector *)

(** The socket of the new client opens: for the client this is the trace
    of [opened_client]. *)
Lemma open_state config older forwarded url :
  deliver (length older) 0 OpenEvent
    (with_last config older (new_client url) forwarded)
  = with_last config older (opened_client url) forwarded.
Proof.
  unfold deliver, fire. rewrite view_last.
  assert (possible 0 (@OpenEvent text) (new_client url) = true) as ->
    by reflexivity.
  rewrite update_last, view_last.
  assert (socket_listeners 0 (type_of (@OpenEvent text))
            (with_connection 0 (arrive (M := text) OpenEvent) (new_client url))
          = [OnOpen 0]) as -> by reflexivity.
  cbn [foldl call]. rewrite update_last.
  unfold dispatchEvent. rewrite view_last.
  match goal with
  | |- context [handlers ?t ?c] =>
      assert (handlers t c = [whenOpen]) as -> by reflexivity
  end.
  cbn [foldl invoke]. unfold on_open. cbn [ws with_last].
  rewrite ws_send_last. evaluate_send enable_inspector.
  rewrite ws_send_last. evaluate_send enable_console.
  rewrite ws_send_last. evaluate_send initialized.
  rewrite update_last. f_equal.
Qed.

Lemma disconnect_last config older cl forwarded :
  disconnect (with_last config older cl forwarded)
  = {| config := config; ws := None; clients := older ++ [close cl];
       forwarded := forwarded |}.
Proof.
  unfold disconnect, with_last; simpl. f_equal.
  replace (length older) with (length older + 0)%nat at 1 by lia.
  by rewrite alter_app_r.
Qed.

(** X16.  The life of an inspector connection.  [connect()] leaves
    [isConnected()] false until the socket opens and true from then on;
    [disconnect()] closes the socket and forgets the client, so that
    [isConnected()] is false again; a second [disconnect()], or one with
    no connection, changes nothing. *)
Theorem inspector_connection_life (st : inspector) :
  let client := length (clients st) in
  let up := deliver client 0 OpenEvent (connect st) in
  isConnected (connect st) = false /\
  isConnected up = true /\
  isConnected (disconnect up) = false /\
  readyState_of 0 (view client (disconnect up)) = Some CLOSING /\
  ws (disconnect st) = None /\
  disconnect (disconnect st) = disconnect st /\
  (ws st = None -> disconnect st = st).
Proof.
  cbv zeta. destruct (connect_makes_last st) as (older & <- & ->).
  rewrite open_state.
  split; [|split; [|split; [|split; [|split; [|split]]]]].
  - unfold isConnected. cbn [ws with_last]. by rewrite view_last.
  - unfold isConnected. cbn [ws with_last]. by rewrite view_last.
  - by rewrite disconnect_last.
  - rewrite disconnect_last. unfold view. cbn [clients].
    by rewrite list_lookup_middle.
  - unfold disconnect. by destruct (ws st) eqn:E.
  - unfold disconnect at 1.
    assert (ws (disconnect st) = None) as ->
      by (unfold disconnect; by destruct (ws st) eqn:E).
    done.
  - intros Hnone. unfold disconnect. by rewrite Hnone.
Qed.

Lemma inspector_connection_life_witness :
  disconnect (createWebInspectorClient box) = createWebInspectorClient box.
Proof.
  refine (proj2 (proj2 (proj2 (proj2 (proj2 (proj2
            (inspector_connection_life (createWebInspectorClient box)))))))
            _).
  reflexivity.
Defined.

End WebInspectorMore.

(** * Properties of the orchestrator *)

Module ThunderWebkitAPIFacts.

Import JS ThunderWebkitAPI ThunderWebkitAPITerms.

(** *** What holds of every orchestrator *)

Lemma orderly_new config : orderly (createThunderWebkitAPI config).
Proof. by split. Qed.

Lemma lookup_grows (l : list effect) e n x :
  l !! n = Some x -> (l ++ [e]) !! n = Some x.
Proof. intros Hl. by apply lookup_app_l_Some. Qed.

(** The log grows by an event. *)
Lemma orderly_record_event st n :
  orderly st -> orderly (record (Event n) st).
Proof.
  intros [H1 H2 H3 H5]. split; simpl; try done.
  - intros e He. rewrite length_app. specialize (H1 e He). simpl. lia.
  - intros o Ho. specialize (H2 o Ho).
    destruct (log st !! o) as [x|] eqn:E; [|done].
    by rewrite (lookup_grows _ _ _ _ E).
  - intros o Ho. specialize (H3 o Ho).
    destruct (log st !! o) as [x|] eqn:E; [|done].
    by rewrite (lookup_grows _ _ _ _ E).
  - intros k o m [Hl|[_ Hl]]%lookup_app_Some.
    + destruct (H5 k o m Hl) as [Hlt Hk]. split; [done|].
      destruct (log st !! o) as [x|] eqn:E; [|done].
      by rewrite (lookup_grows _ _ _ _ E).
    + destruct (k - _)%nat; simpl in Hl; [done|done].
Qed.

Lemma orderly_onEvent st type source message :
  orderly st -> orderly (onEvent type source message st).
Proof. apply orderly_record_event. Qed.

(** The log grows by a call to an object of the right kind, which is
    awaited or not. *)
Lemma orderly_record_call st o m :
  orderly st ->
  (if of_session m then is_session else is_inspector) <$> log st !! o
  = Some true ->
  orderly (record (Call o m) st).
Proof.
  intros [H1 H2 H3 H5] Ho. split; simpl; try done.
  - intros e He. rewrite length_app. specialize (H1 e He). simpl. lia.
  - intros o' Ho'. specialize (H2 o' Ho').
    destruct (log st !! o') as [x|] eqn:E; [|done].
    by rewrite (lookup_grows _ _ _ _ E).
  - intros o' Ho'. specialize (H3 o' Ho').
    destruct (log st !! o') as [x|] eqn:E; [|done].
    by rewrite (lookup_grows _ _ _ _ E).
  - intros k o' m' [Hl|[Hge Hl]]%lookup_app_Some.
    + destruct (H5 k o' m' Hl) as [Hlt Hk]. split; [done|].
      destruct (log st !! o') as [x|] eqn:E; [|done].
      by rewrite (lookup_grows _ _ _ _ E).
    + destruct (k - _)%nat; simpl in Hl; [|done]. injection Hl as <- <-.
      destruct (log st !! o) as [x|] eqn:E; [|done].
      split; [apply lookup_lt_Some in E; lia|].
      by rewrite (lookup_grows _ _ _ _ E).
Qed.

Lemma orderly_await st p k :
  orderly st -> (p < length (log st))%nat -> orderly (await p k st).
Proof.
  intros [H1 H2 H3 H5] Hp. split; simpl; try done.
  intros e [He|[<-|[]]]%in_app_iff; [by apply H1|done].
Qed.

(** A call of a method on what a variable holds, awaited. *)
Lemma orderly_call st object m k fail :
  orderly st ->
  object = (if of_session m then thunderSession st else webInspector st) ->
  orderly match call object m st with
          | Normal (p, st) => await p k st
          | Throw _ => onEvent "error" "Thunder" fail st
          end.
Proof.
  intros Ho ->. unfold call.
  destruct (if of_session m then thunderSession st else webInspector st)
    as [o|] eqn:E; [|by apply orderly_onEvent].
  apply orderly_await.
  - apply orderly_record_call; [done|].
    destruct (of_session m); [by apply (orderly_session _ Ho)|
                              by apply (orderly_inspector _ Ho)].
  - simpl. rewrite length_app. simpl. lia.
Qed.

Lemma orderly_launch_from st step url :
  orderly st -> orderly (launch_from step url st).
Proof.
  intros Ho. unfold launch_from.
  destruct step as [|[|[|[|[|[|step]]]]]]; simpl;
    try (by apply orderly_onEvent); by apply orderly_call.
Qed.

Lemma orderly_close_from st step :
  orderly st -> orderly (close_from step st).
Proof.
  intros Ho. unfold close_from.
  destruct step as [|[|step]]; simpl;
    try (by apply orderly_onEvent); by apply orderly_call.
Qed.

Lemma orderly_start st : orderly st -> orderly (start st).
Proof.
  intros Ho. unfold start.
  destruct (thunderSession st) as [o|] eqn:Ets; [by apply orderly_onEvent|].
  destruct Ho as [H1 H2 H3 H5].
  unfold call. cbn [thunderSession log cfg suspended webInspector].
  apply orderly_await; [|simpl; rewrite !length_app; simpl; lia].
  split; simpl.
  - intros e He. rewrite !length_app. specialize (H1 e He). simpl. lia.
  - intros o [= <-]. rewrite <- !app_assoc. simpl.
    by rewrite list_lookup_middle.
  - intros o [= <-]. rewrite <- !app_assoc. simpl.
    rewrite lookup_app_r by (rewrite length_app; simpl; lia).
    rewrite length_app. simpl.
    by replace (length (log st) + 1 - length (log st))%nat with 1%nat by lia.
  - intros k o m. rewrite <- !app_assoc. simpl.
    intros [Hl|[Hge Hl]]%lookup_app_Some.
    + destruct (H5 k o m Hl) as [Hlt Hk]. split; [done|].
      destruct (log st !! o) as [x|] eqn:E; [|done].
      by rewrite (lookup_app_l_Some _ _ _ _ E).
    + destruct (k - length (log st))%nat as [|[|[|]]] eqn:Ek; simpl in Hl;
        try done.
      injection Hl as <- <-. split; [lia|]. simpl. by rewrite list_lookup_middle.
Qed.

Lemma orderly_quit st : orderly st -> orderly (quit st).
Proof.
  intros Ho. unfold quit.
  set (st1 := match webInspector st with
              | Some o => set_webInspector None (record (Call o InspectorDisconnect) st)
              | None => st
              end).
  assert (orderly st1 /\ thunderSession st1 = thunderSession st) as [Ho1 Hts].
  { subst st1. destruct (webInspector st) as [o|] eqn:E; [|done]. split; [|done].
    pose proof (orderly_record_call st o InspectorDisconnect Ho
                  (orderly_inspector _ Ho o E)) as [H1 H2 H3 H5].
    by split. }
  clearbody st1.
  destruct (thunderSession st1) as [o|] eqn:E; [|by apply orderly_onEvent].
  unfold call. apply orderly_await.
  - apply orderly_record_call; [done|]. by apply (orderly_session _ Ho1).
  - simpl. rewrite length_app. simpl. lia.
Qed.

Lemma orderly_forget st : orderly st -> orderly (set_thunderSession None st).
Proof. intros [H1 H2 H3 H5]. by split. Qed.

Lemma orderly_resume st k resolved : orderly st -> orderly (resume k resolved st).
Proof.
  intros Ho. destruct k, resolved; simpl;
    try (by apply orderly_onEvent);
    try (by apply orderly_launch_from); try (by apply orderly_close_from);
    unfold quit_done; apply orderly_onEvent, orderly_forget;
    try done; by apply orderly_onEvent.
Qed.

Lemma orderly_settle st p resolved : orderly st -> orderly (settle p resolved st).
Proof.
  intros Ho. unfold settle.
  destruct (List.find _ _) as [[p' k]|]; [|done].
  apply orderly_resume. destruct Ho as [H1 H2 H3 H5]. split; simpl; try done.
  intros e [He _]%filter_In. by apply H1.
Qed.

Lemma orderly_step st a : orderly st -> orderly (step st a).
Proof.
  intros Ho. destruct a as [|url| | |p resolved|err message]; simpl.
  - by apply orderly_start.
  - unfold launch. destruct (thunderSession st);
      [by apply orderly_launch_from|by apply orderly_onEvent].
  - unfold close. destruct (thunderSession st);
      [by apply orderly_close_from|by apply orderly_onEvent].
  - by apply orderly_quit.
  - by apply orderly_settle.
  - unfold handleConsoleMessage. destruct err; by apply orderly_onEvent.
Qed.

Lemma orderly_run trace st : orderly st -> orderly (run st trace).
Proof.
  revert st. induction trace as [|a trace IH]; intros st Ho; simpl; [done|].
  by apply IH, orderly_step.
Qed.

Lemma reachable_orderly st : reachable st -> orderly st.
Proof. intros (config & trace & ->). apply orderly_run, orderly_new. Qed.

(** X17.  Every method the orchestrator calls, it calls on an object it
    has created before, and on one of the right kind: the methods of the
    session on a session, those of the inspector on an inspector. *)
Theorem calls_go_to_created_objects st n o m :
  reachable st -> log st !! n = Some (Call o m) ->
  (o < n)%nat /\
  exists e, log st !! o = Some e /\
            (if of_session m then is_session e else is_inspector e) = true.
Proof.
  intros Hreach Hl. pose proof (reachable_orderly _ Hreach) as Ho.
  destruct (orderly_calls _ Ho n o m Hl) as [Hlt Hc]. split; [done|].
  destruct (log st !! o) as [e|] eqn:E; [|done].
  exists e. split; [done|]. injection Hc as Hc.
  by destruct (of_session m).
Qed.

Lemma calls_go_to_created_objects_witness :
  (0 < 2)%nat /\
  exists e,
    log (run (createThunderWebkitAPI demo) [DoStart]) !! 0%nat = Some e /\
    is_session e = true.
Proof.
  apply (calls_go_to_created_objects
           (run (createThunderWebkitAPI demo) [DoStart]) 2 0 ThunderConnect).
  - by exists demo, [DoStart].
  - reflexivity.
Defined.

(** *** The promise of a call is settled *)

Lemma settle_waiting c ts wi lg su rest p k resolved :
  (forall e, In e su -> fst e <> p) -> (forall e, In e rest -> fst e <> p) ->
  settle p resolved
    {| cfg := c; thunderSession := ts; webInspector := wi; log := lg;
       suspended := su ++ (p, k) :: rest |}
  = resume k resolved
      {| cfg := c; thunderSession := ts; webInspector := wi; log := lg;
         suspended := su ++ rest |}.
Proof.
  intros Hsu Hrest. unfold settle. cbn [suspended cfg thunderSession webInspector log].
  assert (forall l, (forall e, In e l -> fst e <> p) ->
            List.filter (fun e => negb (waits_for p e)) l = l) as Hkeep.
  { intros l Hl. apply forallb_filter_id, forallb_forall. intros e He.
    unfold waits_for. apply negb_true_iff, Nat.eqb_neq. by apply Hl. }
  assert (List.find (waits_for p) (su ++ (p, k) :: rest) = Some (p, k)) as ->.
  { clear Hkeep Hrest. induction su as [|e su IH]; simpl.
    - unfold waits_for. simpl. by rewrite Nat.eqb_refl.
    - unfold waits_for at 1. rewrite (proj2 (Nat.eqb_neq _ _)).
      + apply IH. intros e' He'. apply Hsu. by right.
      + apply Hsu. by left. }
  rewrite List.filter_app. simpl. unfold waits_for at 2. simpl.
  rewrite Nat.eqb_refl. simpl. by rewrite !Hkeep.
Qed.

Lemma settle_last c ts wi lg su p k resolved :
  (forall e, In e su -> fst e <> p) ->
  settle p resolved
    {| cfg := c; thunderSession := ts; webInspector := wi; log := lg;
       suspended := su ++ [(p, k)] |}
  = resume k resolved
      {| cfg := c; thunderSession := ts; webInspector := wi; log := lg;
         suspended := su |}.
Proof.
  intros Hsu. rewrite (settle_waiting c ts wi lg su [] p k resolved Hsu);
    [by rewrite app_nil_r|done].
Qed.

Lemma older_waits st p e :
  orderly st -> (length (log st) <= p)%nat -> In e (suspended st) -> fst e <> p.
Proof. intros Ho Hp He. pose proof (orderly_suspended _ Ho e He). lia. Qed.

(** *** [launch] and [close] *)

Lemma launch_begins st url i j :
  thunderSession st = Some i -> webInspector st = Some j ->
  launch url st = launching st i j url 0.
Proof.
  intros Hts Hwi. unfold launch, launch_from, launching, call. rewrite Hts.
  simpl. rewrite Hwi. simpl. unfold await, record. simpl.
  by rewrite Hts, Hwi, Nat.add_0_r.
Qed.

Lemma launch_goes_on st url i j m :
  orderly st -> (m < 5)%nat ->
  settle (length (log st) + m) true (launching st i j url m)
  = launching st i j url (S m).
Proof.
  intros Ho Hm. unfold launching.
  rewrite settle_last by (intros e He; apply (older_waits st); [done|lia|done]).
  destruct m as [|[|[|[|[|m]]]]]; try lia;
    unfold resume, launch_from, call, await, record; simpl;
    rewrite <- app_assoc, length_app; simpl; do 3 f_equal; lia.
Qed.

Lemma launch_ends st url i j :
  orderly st ->
  settle (length (log st) + 5) true (launching st i j url 5)
  = {| cfg := cfg st; thunderSession := Some i; webInspector := Some j;
       log := log st ++ calls_of_launch i j url ++ [launched url];
       suspended := suspended st |}.
Proof.
  intros Ho. unfold launching.
  rewrite settle_last by (intros e He; apply (older_waits st); [done|lia|done]).
  unfold resume, launch_from, onEvent, record; simpl.
  by rewrite <- app_assoc.
Qed.

Lemma launch_fails st url i j m :
  orderly st -> (m <= 5)%nat ->
  settle (length (log st) + m) false (launching st i j url m)
  = {| cfg := cfg st; thunderSession := Some i; webInspector := Some j;
       log := log st ++ firstn (S m) (calls_of_launch i j url) ++ [failed_launch];
       suspended := suspended st |}.
Proof.
  intros Ho Hm. unfold launching.
  rewrite settle_last by (intros e He; apply (older_waits st); [done|lia|done]).
  unfold resume, onEvent, record. cbn [cfg thunderSession webInspector log suspended].
  by rewrite <- app_assoc.
Qed.

Lemma answers_more first n :
  answers first (S n) = answers first n ++ [Settle (first + n) true].
Proof. unfold answers. by rewrite seq_S, map_app. Qed.

Lemma launch_waits st url i j n :
  orderly st -> thunderSession st = Some i -> webInspector st = Some j ->
  (n <= 5)%nat ->
  run st (DoLaunch url :: answers (length (log st)) n) = launching st i j url n.
Proof.
  intros Ho Hts Hwi. induction n as [|n IH]; intros Hn.
  - simpl. by apply launch_begins.
  - rewrite answers_more. change (?a :: ?l ++ ?r) with ((a :: l) ++ r).
    unfold run in *. rewrite foldl_app, IH by lia. simpl.
    apply launch_goes_on; [done|lia].
Qed.

(** X18.  [launch(url)] with a session and an inspector held, and nothing
    else going on.  It calls, each call after the promise of the one
    before is resolved, [disconnect] of the inspector, [stop] and [start]
    of the session, [connect] of the inspector, [resume] and [setURL(url)]
    of the session.  While a promise is pending [launch] waits and
    reports nothing; when one is rejected it reports 'Failed to launch
    URL' and makes no further call; when the last is resolved it reports
    the launch. *)
Theorem launch_calls_in_order st url i j n :
  reachable st -> thunderSession st = Some i -> webInspector st = Some j ->
  (n <= 5)%nat ->
  let base := length (log st) in
  let waiting := run st (DoLaunch url :: answers base n) in
  log waiting = log st ++ firstn (S n) (calls_of_launch i j url) /\
  suspended waiting = suspended st ++ [((base + n)%nat, Launch n url)] /\
  log (step waiting (Settle (base + n) false))
  = log st ++ firstn (S n) (calls_of_launch i j url) ++ [failed_launch] /\
  suspended (step waiting (Settle (base + n) false)) = suspended st /\
  (n = 5%nat ->
   log (step waiting (Settle (base + n) true))
   = log st ++ calls_of_launch i j url ++ [launched url]).
Proof.
  intros Hreach Hts Hwi Hn base waiting.
  pose proof (reachable_orderly _ Hreach) as Ho.
  assert (waiting = launching st i j url n) as -> by (by apply launch_waits).
  subst base. split; [done|]. split; [done|]. cbn [step].
  rewrite (launch_fails st url i j n Ho Hn). split; [done|]. split; [done|].
  intros ->. by rewrite (launch_ends st url i j Ho).
Qed.

Lemma launch_calls_in_order_witness :
  let st := run (createThunderWebkitAPI demo) [DoStart; Settle 2 true] in
  log (run st (DoLaunch "https://example.com" :: answers 4 2))
  = log st ++ firstn 3 (calls_of_launch 0 1 "https://example.com").
Proof.
  apply (launch_calls_in_order
           (run (createThunderWebkitAPI demo) [DoStart; Settle 2 true])
           "https://example.com" 0 1 2).
  - by exists demo, [DoStart; Settle 2 true].
  - reflexivity.
  - reflexivity.
  - lia.
Defined.

Lemma close_begins st i j :
  thunderSession st = Some i -> webInspector st = Some j ->
  close st = closing st i j 0.
Proof.
  intros Hts Hwi. unfold close, close_from, closing, call. rewrite Hts.
  simpl. rewrite Hwi. simpl. unfold await, record. simpl.
  by rewrite Hts, Hwi, Nat.add_0_r.
Qed.

(** X19.  [close()] with a session and an inspector held, and nothing
    else going on: it calls [disconnect] of the inspector and, once that
    promise is resolved, [stop] of the session; it reports 'Browser
    instance closed' when the promise of [stop] is resolved, 'Failed to
    close instance' when either promise is rejected, and nothing while
    it waits.  The session and the inspector stay held. *)
Theorem close_calls_in_order st i j :
  reachable st -> thunderSession st = Some i -> webInspector st = Some j ->
  let base := length (log st) in
  let first := close st in
  let second := step first (Settle base true) in
  log first = log st ++ [Call j InspectorDisconnect] /\
  log (step first (Settle base false))
  = log st ++ [Call j InspectorDisconnect; failed_close] /\
  log second = log st ++ calls_of_close i j /\
  log (step second (Settle (base + 1) false))
  = log st ++ calls_of_close i j ++ [failed_close] /\
  log (step second (Settle (base + 1) true))
  = log st ++ calls_of_close i j ++ [closed] /\
  thunderSession (step second (Settle (base + 1) true)) = Some i /\
  webInspector (step second (Settle (base + 1) true)) = Some j.
Proof.
  intros Hreach Hts Hwi base first second.
  pose proof (reachable_orderly _ Hreach) as Ho.
  assert (forall e, In e (suspended st) -> fst e <> base) as H0
    by (intros e He; apply (older_waits st); [done|lia|done]).
  assert (forall e, In e (suspended st) -> fst e <> (base + 1)%nat) as H1
    by (intros e He; apply (older_waits st); [done|subst base; lia|done]).
  assert (Hfirst : first = closing st i j 0) by (by apply close_begins).
  assert (Hsecond : second = closing st i j 1).
  { subst second. rewrite Hfirst. unfold closing. cbn [step].
    rewrite Nat.add_0_r. fold base. rewrite settle_last by done.
    unfold resume, close_from, call, await, record; simpl.
    rewrite <- app_assoc, length_app. simpl. by fold base. }
  rewrite Hsecond, Hfirst. unfold closing. cbn [step log].
  rewrite Nat.add_0_r. fold base. rewrite !settle_last by done.
  unfold resume, close_from, onEvent, record; simpl.
  rewrite <- !app_assoc. by repeat split.
Qed.

Lemma close_calls_in_order_witness :
  let st := run (createThunderWebkitAPI demo) [DoStart; Settle 2 true] in
  log (run st [DoClose; Settle 4 true; Settle 5 true])
  = log st ++ calls_of_close 0 1 ++ [closed].
Proof.
  refine (proj1 (proj2 (proj2 (proj2 (proj2
            (close_calls_in_order
               (run (createThunderWebkitAPI demo) [DoStart; Settle 2 true])
               0 1 _ _ _)))))).
  - by exists demo, [DoStart; Settle 2 true].
  - reflexivity.
  - reflexivity.
Defined.

(** *** [start] and [quit] *)

Lemma start_begins st :
  thunderSession st = None ->
  start st
  = {| cfg := cfg st; thunderSession := Some (length (log st));
       webInspector := Some (S (length (log st)));
       log := log st ++
         [CreateSession (thunderUrl (cfg st)) (callsign (cfg st));
          CreateInspector (webInspectorHost (cfg st)) (port_of (cfg st));
          Call (length (log st)) ThunderConnect];
       suspended := suspended st ++ [((length (log st) + 2)%nat, StartConnected)] |}.
Proof.
  intros Hts. unfold start, call, await, record. rewrite Hts. simpl.
  rewrite <- !app_assoc, !length_app. simpl.
  by rewrite Nat.add_1_r.
Qed.

(** X20.  [start()] with no session held creates the session and the
    inspector and calls [connect] of the session; it reports 'connected'
    when that promise is resolved and 'Failed to start Thunder session'
    when it is rejected.  The session is held from the call on, also
    after a failure: a [start()] made while the first one waits, or after
    it has failed, reports 'Session already started' and does nothing
    else. *)
Theorem start_connects_once st :
  reachable st -> thunderSession st = None ->
  let base := length (log st) in
  let made :=
    [CreateSession (thunderUrl (cfg st)) (callsign (cfg st));
     CreateInspector (webInspectorHost (cfg st)) (port_of (cfg st));
     Call base ThunderConnect] in
  log (start st) = log st ++ made /\
  thunderSession (start st) = Some base /\
  webInspector (start st) = Some (S base) /\
  log (run st [DoStart; Settle (base + 2) true]) = log st ++ made ++ [connected] /\
  log (run st [DoStart; Settle (base + 2) false])
  = log st ++ made ++ [failed_start] /\
  log (run st [DoStart; Settle (base + 2) false; DoStart])
  = log st ++ made ++ [failed_start; already_started] /\
  log (run st [DoStart; DoStart]) = log st ++ made ++ [already_started].
Proof.
  intros Hreach Hts base made.
  pose proof (reachable_orderly _ Hreach) as Ho.
  assert (forall e, In e (suspended st) -> fst e <> (base + 2)%nat) as H2
    by (intros e He; apply (older_waits st); [done|subst base; lia|done]).
  unfold run. cbn [foldl step]. rewrite (start_begins st Hts). fold base made.
  rewrite !settle_last by done.
  unfold resume, start, onEvent, record; simpl.
  rewrite <- !app_assoc. by repeat split.
Qed.

Lemma start_connects_once_witness :
  log (run (createThunderWebkitAPI demo) [DoStart; Settle 2 false; DoStart])
  = [CreateSession "ws://192.168.1.100:9998" "UX";
     CreateInspector "192.168.1.100" 9998; Call 0 ThunderConnect;
     failed_start; already_started].
Proof.
  refine (proj1 (proj2 (proj2 (proj2 (proj2 (proj2
            (start_connects_once (createThunderWebkitAPI demo) _ _))))))).
  - by exists demo, [].
  - reflexivity.
Defined.

Lemma quit_begins st i j :
  thunderSession st = Some i -> webInspector st = Some j ->
  quit st
  = {| cfg := cfg st; thunderSession := Some i; webInspector := None;
       log := log st ++ [Call j InspectorDisconnect; Call i ThunderDisconnect];
       suspended := suspended st ++ [((length (log st) + 1)%nat, QuitDisconnected)] |}.
Proof.
  intros Hts Hwi. unfold quit, call, await, record, set_webInspector.
  rewrite Hwi. simpl. rewrite Hts. simpl.
  by rewrite <- app_assoc, length_app.
Qed.

(** X21.  [quit()] with a session and an inspector held calls
    [disconnect] of the inspector, lets go of the inspector, and calls
    [disconnect] of the session; when that promise is settled it lets go
    of the session and reports 'quit', after 'Failed to stop instance'
    if the promise was rejected.  While it waits the session is still
    held but the inspector is not: [launch(url)] then fails with 'Failed
    to launch URL' without a call, and [start()] reports 'Session
    already started'.  With nothing held [quit()] reports 'quit' at
    once. *)
Theorem quit_lets_go st i j resolved url :
  reachable st -> thunderSession st = Some i -> webInspector st = Some j ->
  let base := length (log st) in
  let calls := [Call j InspectorDisconnect; Call i ThunderDisconnect] in
  let waiting := quit st in
  let over := step waiting (Settle (base + 1) resolved) in
  (log waiting = log st ++ calls /\
   thunderSession waiting = Some i /\ webInspector waiting = None) /\
  (log over
   = log st ++ calls ++ (if resolved then [] else [failed_stop]) ++ [stopped] /\
   thunderSession over = None /\ webInspector over = None /\
   suspended over = suspended st) /\
  log (launch url waiting) = log st ++ calls ++ [failed_launch] /\
  log (start waiting) = log st ++ calls ++ [already_started] /\
  log (quit over) = log over ++ [stopped].
Proof.
  intros Hreach Hts Hwi base calls waiting over.
  pose proof (reachable_orderly _ Hreach) as Ho.
  assert (forall e, In e (suspended st) -> fst e <> (base + 1)%nat) as H1
    by (intros e He; apply (older_waits st); [done|subst base; lia|done]).
  subst over waiting. rewrite (quit_begins st i j Hts Hwi). fold base calls.
  cbn [step]. rewrite settle_last by done.
  split; [done|]. split; [|split; [|split]].
  - destruct resolved; unfold resume, quit_done, onEvent, record; simpl;
      rewrite <- ?app_assoc; done.
  - unfold launch, launch_from, call, onEvent, record. simpl.
    by rewrite <- app_assoc.
  - unfold start, onEvent, record. simpl. by rewrite <- app_assoc.
  - by destruct resolved.
Qed.

Lemma quit_lets_go_witness :
  log (run (createThunderWebkitAPI demo)
         [DoStart; Settle 2 true; DoQuit; Settle 5 false])
  = [CreateSession "ws://192.168.1.100:9998" "UX";
     CreateInspector "192.168.1.100" 9998; Call 0 ThunderConnect; connected;
     Call 1 InspectorDisconnect; Call 0 ThunderDisconnect; failed_stop; stopped].
Proof.
  refine (proj1 (proj1 (proj2
            (quit_lets_go
               (run (createThunderWebkitAPI demo) [DoStart; Settle 2 true])
               0 1 false EmptyString _ _ _)))).
  - by exists demo, [DoStart; Settle 2 true].
  - reflexivity.
  - reflexivity.
Defined.

(** X22.  Two calls of [quit()] that overlap.  The first one completes
    and the application starts a new session; when the promise of the
    second [quit()] is settled, its continuation lets go of the new
    session without a call of its [disconnect], while the new inspector
    stays held: [launch(url)] then reports 'Session not started'. *)
Theorem overlapping_quit_drops_new_session st i j url :
  reachable st -> thunderSession st = Some i -> webInspector st = Some j ->
  let base := length (log st) in
  let after :=
    run st [DoQuit; DoQuit; Settle (base + 1) true; DoStart;
            Settle (base + 2) true] in
  log after
  = log st ++
    [Call j InspectorDisconnect; Call i ThunderDisconnect;
     Call i ThunderDisconnect; stopped;
     CreateSession (thunderUrl (cfg st)) (callsign (cfg st));
     CreateInspector (webInspectorHost (cfg st)) (port_of (cfg st));
     Call (base + 4) ThunderConnect; stopped] /\
  thunderSession after = None /\ webInspector after = Some (base + 5)%nat /\
  log (launch url after) = log after ++ [not_started].
Proof.
  intros Hreach Hts Hwi base after.
  pose proof (reachable_orderly _ Hreach) as Ho.
  assert (forall n e, In e (suspended st) -> fst e <> (base + n)%nat) as Hold
    by (intros n e He; apply (older_waits st); [done|subst base; lia|done]).
  assert (after
          = {| cfg := cfg st; thunderSession := None;
               webInspector := Some (base + 5)%nat;
               log := log st ++
                 [Call j InspectorDisconnect; Call i ThunderDisconnect;
                  Call i ThunderDisconnect; stopped;
                  CreateSession (thunderUrl (cfg st)) (callsign (cfg st));
                  CreateInspector (webInspectorHost (cfg st)) (port_of (cfg st));
                  Call (base + 4) ThunderConnect; stopped];
               suspended := suspended st ++ [((base + 6)%nat, StartConnected)] |})
    as ->.
  { subst after. unfold run. cbn [foldl step].
    rewrite (quit_begins st i j Hts Hwi). fold base.
    unfold quit at 1. cbn [webInspector thunderSession].
    unfold call, await, record. cbn [log cfg thunderSession webInspector suspended].
    rewrite <- !app_assoc, !length_app. cbn [app length]. fold base.
    rewrite (settle_waiting _ _ _ _ (suspended st)
               [((base + 2)%nat, QuitDisconnected)] (base + 1) QuitDisconnected true).
    2:{ apply Hold. }
    2:{ intros e [<-|[]]. simpl. lia. }
    unfold resume at 1. unfold quit_done, onEvent, record, set_thunderSession.
    cbn [log cfg thunderSession webInspector suspended].
    rewrite start_begins by done.
    cbn [log cfg thunderSession webInspector suspended].
    rewrite <- !app_assoc, !length_app. cbn [app length]. fold base.
    rewrite (settle_waiting _ _ _ _ (suspended st)
               [((base + 4 + 2)%nat, StartConnected)] (base + 2) QuitDisconnected true).
    2:{ apply Hold. }
    2:{ intros e [<-|[]]. simpl. lia. }
    unfold resume, quit_done, onEvent, record, set_thunderSession.
    cbn [log cfg thunderSession webInspector suspended].
    rewrite <- !app_assoc. cbn [app].
    replace (base + (3 + 1))%nat with (base + 4)%nat by lia.
    replace (S (base + 4)) with (base + 5)%nat by lia.
    replace (base + 4 + 2)%nat with (base + 6)%nat by lia.
    reflexivity. }
  by repeat split.
Qed.

Lemma overlapping_quit_drops_new_session_witness :
  thunderSession
    (run (createThunderWebkitAPI demo)
       [DoStart; Settle 2 true; DoQuit; DoQuit; Settle 5 true; DoStart;
        Settle 6 true])
  = None.
Proof.
  assert (W := overlapping_quit_drops_new_session
                 (run (createThunderWebkitAPI demo) [DoStart; Settle 2 true])
                 0 1 EmptyString
                 (ex_intro _ demo (ex_intro _ [DoStart; Settle 2 true] eq_refl))
                 eq_refl eq_refl).
  vm_compute in W. vm_compute. exact (proj1 (proj2 W)).
Defined.

End ThunderWebkitAPIFacts.
